(** * gifmaze: the GIF encoder, the maze grid and the animation engine

    A shallow embedding of [gifmaze/encoder.py], [gifmaze/maze.py],
    [gifmaze/surface.py] and [gifmaze/animation.py], and the properties of
    the LZW compressor, the bit packer, the dirty rectangle and the frame
    flush that the specification states about them.

    Python integers are [Z]; a byte is a [Z] in [0, 256); a [bytearray] is a
    [list Z]; a [dict] is a [gmap]; a value that may be [None] is an
    [option]; an uncaught exception is the [Raise] branch of [result]. *)

From Stdlib Require Import ZArith Lia Ascii String List Bool.
From stdpp Require Import base option list gmap.

Local Open Scope Z_scope.

(** ** Python primitives *)

(** The exceptions the modelled code can raise. *)
Inductive exn : Type :=
| KeyError
| IndexError
| AttributeError
| ValueError (msg : string)
| StructError
| ZeroDivisionError.

(** The outcome of a call: a value, or an exception that nobody catches. *)
Inductive result (A : Type) : Type :=
| Ok (a : A)
| Raise (e : exn).
Arguments Ok {A} a.
Arguments Raise {A} e.

Definition bind {A B : Type} (m : result A) (k : A -> result B) : result B :=
  match m with
  | Ok a => k a
  | Raise e => Raise e
  end.

Declare Scope py_scope.
Delimit Scope py_scope with py.
Notation "x <- m ;; k" := (bind m (fun x => k))
  (at level 20, m at level 99, k at level 200, only parsing) : py_scope.
Notation "' pat <- m ;; k" := (bind m (fun x => match x with pat => k end))
  (at level 20, pat pattern, m at level 99, k at level 200, only parsing) : py_scope.
Local Open Scope py_scope.

(** [d[k]] on a dictionary. *)
Definition getitem `{Countable K} {V : Type} (d : gmap K V) (k : K) : result V :=
  match d !! k with
  | Some v => Ok v
  | None => Raise KeyError
  end.

(** [len(l)]. *)
Definition len {A : Type} (l : list A) : Z := Z.of_nat (length l).

(** [range(n)]. *)
Definition range (n : Z) : list Z := seqZ 0 n.

(** [a << n]: a negative shift count is a [ValueError]. *)
Definition shl (a n : Z) : result Z :=
  if n <? 0 then Raise (ValueError "negative shift count") else Ok (Z.shiftl a n).

(** [for x in it: s = body(s, x)], over an iterable whose items are produced
    on demand: an item that fails to be produced raises where the loop
    asks for it. *)
Fixpoint for_each {S A : Type} (body : S -> A -> result S) (s : S)
    (it : list (result A)) : result S :=
  match it with
  | [] => Ok s
  | Ok a :: rest => s' <- body s a ;; for_each body s' rest
  | Raise e :: _ => Raise e
  end.

(** The index of a Python sequence of length [n] that [i] denotes:
    negative indices count from the end. *)
Definition norm_index (n : nat) (i : Z) : result nat :=
  if (0 <=? i) && (i <? Z.of_nat n) then Ok (Z.to_nat i)
  else if (- Z.of_nat n <=? i) && (i <? 0) then Ok (Z.to_nat (i + Z.of_nat n))
  else Raise IndexError.

(** [l[i]]. *)
Definition list_get {A : Type} (l : list A) (i : Z) : result A :=
  k <- norm_index (length l) i ;;
  match l !! k with
  | Some a => Ok a
  | None => Raise IndexError
  end.

(** [l[i] = v]. *)
Definition list_set {A : Type} (l : list A) (i : Z) (v : A) : result (list A) :=
  k <- norm_index (length l) i ;; Ok (<[k := v]> l).

(** A value a [bytearray] accepts. *)
Definition is_byte (v : Z) : bool := (0 <=? v) && (v <? 256).

(** [bytearray(l)] on a list of integers. *)
Definition bytearray (l : list Z) : result (list Z) :=
  if forallb is_byte l then Ok l else Raise (ValueError "byte must be in range(0, 256)").

(** The binary digits of a positive number, most significant first. *)
Fixpoint pos_digits (p : positive) : list ascii :=
  match p with
  | xH => ["1"%char]
  | xO q => pos_digits q ++ ["0"%char]
  | xI q => pos_digits q ++ ["1"%char]
  end.

(** [bin(num)]. *)
Definition bin (num : Z) : list ascii :=
  match num with
  | Z0 => ["0"; "b"; "0"]%char
  | Zpos p => ["0"; "b"]%char ++ pos_digits p
  | Zneg p => ["-"; "0"; "b"]%char ++ pos_digits p
  end.

(** [s.zfill(width)]: zeros on the left up to [width] characters, after a
    leading sign if there is one. *)
Definition zfill (width : Z) (s : list ascii) : list ascii :=
  let fill := replicate (Z.to_nat (width - len s)) "0"%char in
  match s with
  | c :: r =>
      if (Ascii.eqb c "+" || Ascii.eqb c "-")%bool then c :: fill ++ r else fill ++ s
  | [] => fill
  end.

(** [struct.pack] of one unsigned byte ([B]) and of one little-endian
    unsigned 16-bit integer ([H]). *)
Definition pack_B (v : Z) : result (list Z) :=
  if (0 <=? v) && (v <=? 255) then Ok [v] else Raise StructError.

Definition pack_H (v : Z) : result (list Z) :=
  if (0 <=? v) && (v <=? 65535) then Ok [v mod 256; v / 256] else Raise StructError.

(** [divmod(a, b)]: the quotient rounded down and the remainder of the
    sign of [b]. *)
Definition divmod (a b : Z) : result (Z * Z) :=
  if b =? 0 then Raise ZeroDivisionError else Ok (a / b, a mod b).

(** [range(0, n, 2)]. *)
Definition range_by_2 (n : Z) : list Z := map (Z.mul 2) (seqZ 0 ((n + 1) / 2)).

(** ** encoder.py: DataBlock *)

Module DataBlock.

Record t : Type := mk { _bitstream : list Z; _nbits : Z }.

Definition __init__ : t := mk [] 0.

(** One turn of the loop of [encode_bits], for one character of the
    reversed string. *)
Definition put_digit (self : t) (digit : ascii) : result t :=
  let bitstream :=
    if len (_bitstream self) * 8 =? _nbits self
    then _bitstream self ++ [0] else _bitstream self in
  bitstream <-
    (if Ascii.eqb digit "1" then
       b <- list_get bitstream (-1) ;;
       let v := Z.lor b (Z.shiftl 1 (_nbits self mod 8)) in
       if is_byte v then list_set bitstream (-1) v
       else Raise (ValueError "byte must be in range(0, 256)")
     else Ok bitstream) ;;
  Ok (mk bitstream (_nbits self + 1)).

Fixpoint put_digits (self : t) (digits : list ascii) : result t :=
  match digits with
  | [] => Ok self
  | d :: rest => self' <- put_digit self d ;; put_digits self' rest
  end.

Definition encode_bits (self : t) (num size : Z) : result t :=
  let string := zfill size (drop 2 (bin num)) in
  put_digits self (rev string).

(** The [while] loop of [dump_bytes]; every turn removes 255 bytes, so
    [length bitstream] turns are enough. *)
Fixpoint dump_loop (fuel : nat) (bitstream bytestream : list Z) : list Z * list Z :=
  match fuel with
  | O => (bitstream, bytestream)
  | S fuel' =>
      if 255 <? len bitstream
      then dump_loop fuel' (drop 255 bitstream) (bytestream ++ [255] ++ take 255 bitstream)
      else (bitstream, bytestream)
  end.

(** [dump_bytes] returns the packed blocks and leaves the block empty. *)
Definition dump_bytes (self : t) : list Z * t :=
  let '(bitstream, bytestream) :=
    dump_loop (length (_bitstream self)) (_bitstream self) [] in
  let bytestream :=
    if 0 <? len bitstream then bytestream ++ [len bitstream] ++ bitstream
    else bytestream in
  (bytestream, mk [] 0).

End DataBlock.

(** ** encoder.py: Compression *)

(** A symbol handed to the compressor: an integer, or [None] when the
    caller passes an unset value. *)
Abbreviation sym := (option Z) (only parsing).

(** [isinstance(v, int)], for the arguments that this model types as
    integers. *)
Definition isinstance_int (v : Z) : bool := true.

Module Compression.

Record t : Type := mk {
  _stream : DataBlock.t;
  _min_code_length : Z;
  _clear_code : Z;
  _end_code : Z;
  _max_codes : Z
}.

Definition __init__ (min_code_length : Z) : result t :=
  if negb (isinstance_int min_code_length)
     && negb ((2 <=? min_code_length) && (min_code_length <=? 12))
  then Raise (ValueError "Invalid minimum code length.")
  else
    clear_code <- shl 1 min_code_length ;;
    Ok (mk DataBlock.__init__ min_code_length clear_code (clear_code + 1) 4096).

(** [{(i,): i for i in range(n)}]. *)
Definition single_codes (n : Z) : gmap (list sym) Z :=
  foldl (fun d i => <[ [Some i] := i ]> d) ∅ (range n).

(** The local variables of [__call__], with the stream they write to. *)
Record locals : Type := mk_locals {
  code_length : Z;
  next_code : Z;
  code_table : gmap (list sym) Z;
  pattern : list sym;
  stream : DataBlock.t
}.

(** [2**code_length]; for a negative exponent Python gives a fraction,
    which no integer equals. *)
Definition pow2_plus_1_is (code_length next_code : Z) : bool :=
  (0 <=? code_length) && (next_code =? 2 ^ code_length + 1).

(** The body of the [for] loop of [__call__]. *)
Definition loop_body (self : t) (st : locals) (c : sym) : result locals :=
  let pattern := pattern st ++ [c] in
  match code_table st !! pattern with
  | Some _ =>
      Ok (mk_locals (code_length st) (next_code st) (code_table st) pattern (stream st))
  | None =>
      let code_table := <[ pattern := next_code st ]> (code_table st) in
      prefix <- getitem code_table (removelast pattern) ;;
      stream <- DataBlock.encode_bits (stream st) prefix (code_length st) ;;
      let pattern := [c] in
      let next_code := next_code st + 1 in
      let code_length :=
        if pow2_plus_1_is (code_length st) next_code
        then code_length st + 1 else code_length st in
      if next_code =? _max_codes self then
        let next_code := _end_code self + 1 in
        stream <- DataBlock.encode_bits stream (_clear_code self) code_length ;;
        let code_length := _min_code_length self + 1 in
        n <- shl 1 (_min_code_length self) ;;
        Ok (mk_locals code_length next_code (single_codes n) pattern stream)
      else
        Ok (mk_locals code_length next_code code_table pattern stream)
  end.

(** The state [__call__] enters its loop with: the clear code is already
    written. *)
Definition enter (self : t) : result locals :=
  let code_length := _min_code_length self + 1 in
  let next_code := _end_code self + 1 in
  n <- shl 1 (_min_code_length self) ;;
  let code_table := single_codes n in
  stream <- DataBlock.encode_bits (_stream self) (_clear_code self) code_length ;;
  Ok (mk_locals code_length next_code code_table [] stream).

(** What follows the loop: the last pattern, the end code, the blocks. *)
Definition leave (self : t) (st : locals) : result (list Z * t) :=
  code <- getitem (code_table st) (pattern st) ;;
  stream <- DataBlock.encode_bits (stream st) code (code_length st) ;;
  stream <- DataBlock.encode_bits stream (_end_code self) (code_length st) ;;
  head <- bytearray [_min_code_length self] ;;
  let '(blocks, stream) := DataBlock.dump_bytes stream in
  Ok (head ++ blocks ++ [0],
      mk stream (_min_code_length self) (_clear_code self) (_end_code self)
         (_max_codes self)).

(** [self(input_data)]: the compressed bytes, and the compressor with its
    stream as the call leaves it. *)
Definition __call__ (self : t) (input_data : list (result sym)) : result (list Z * t) :=
  st <- enter self ;;
  st <- for_each (loop_body self) st input_data ;;
  leave self st.

End Compression.

(** A list as an iterable: every item is there. *)
Definition items {A : Type} (l : list A) : list (result A) := map Ok l.

(** ** encoder.py: the blocks of a frame *)

Definition concat_packed (parts : list (result (list Z))) : result (list Z) :=
  foldr (fun p acc => x <- p ;; rest <- acc ;; Ok (x ++ rest)) (Ok []) parts.

(** [graphics_control_block(delay, trans_index)], format [<4BH2B]. *)
Definition graphics_control_block (delay : Z) (trans_index : option Z) : result (list Z) :=
  match trans_index with
  | None =>
      concat_packed [pack_B 33; pack_B 249; pack_B 4; pack_B 4; pack_H delay;
                     pack_B 0; pack_B 0]
  | Some i =>
      concat_packed [pack_B 33; pack_B 249; pack_B 4; pack_B 5; pack_H delay;
                     pack_B i; pack_B 0]
  end.

(** [image_descriptor(left, top, width, height, byte)], format [<B4HB]. *)
Definition image_descriptor (left top width height byte : Z) : result (list Z) :=
  concat_packed [pack_B 44; pack_H left; pack_H top; pack_H width; pack_H height;
                 pack_B byte].

(** [global_color_table(color_depth, palette)]. *)
Definition global_color_table (color_depth : Z) (palette : list Z) : result (list Z) :=
  palette <-
    match bytearray palette with
    | Ok p => Ok p
    | Raise _ => Raise (ValueError "Cannot convert palette to bytearray.")
    end ;;
  n <- shl 1 color_depth ;;
  let valid_length := 3 * n in
  if len palette <? valid_length then Raise (ValueError "Invalid palette length.")
  else if valid_length <? len palette then Ok (take (Z.to_nat valid_length) palette)
  else Ok palette.

(** [screen_descriptor(width, height, color_depth)], format [<6s2H3B];
    the six characters are [GIF89a]. *)
Definition screen_descriptor (width height color_depth : Z) : result (list Z) :=
  let byte := Z.lor (Z.lor 128 (color_depth - 1)) (Z.shiftl (color_depth - 1) 4) in
  concat_packed [Ok [71; 73; 70; 56; 57; 97]; pack_H width; pack_H height; pack_B byte;
                 pack_B 0; pack_B 0].

(** [loop_control_block(loop)], format [<3B8s3s2BHB]; the strings are
    [NETSCAPE] and [2.0]. *)
Definition loop_control_block (loop : Z) : result (list Z) :=
  concat_packed [pack_B 33; pack_B 255; pack_B 11; Ok [78; 69; 84; 83; 67; 65; 80; 69];
                 Ok [50; 46; 48]; pack_B 3; pack_B 1; pack_H loop; pack_B 0].

(** ** maze.py *)

Module Maze.

(** The grid, the change counter and the region to update.  [size] is
    [(width, height)]; [_grid] holds [width] columns of [height] cells. *)
Record t : Type := mk {
  size : Z * Z;
  _grid : list (list Z);
  _num_changes : Z;
  _frame_box : option (Z * Z * Z * Z)
}.

(** [Maze(width, height, None)]: no mask. *)
Definition __init__ (width height : Z) : result t :=
  if (width * height) mod 2 =? 0
  then Raise (ValueError "The width and height must both be odd integers.")
  else Ok (mk (width, height)
              (replicate (Z.to_nat width) (replicate (Z.to_nat height) 0)) 0 None).

Definition mark_cell (self : t) (cell : Z * Z) (value : Z) : result t :=
  let '(x, y) := cell in
  column <- list_get (_grid self) x ;;
  column <- list_set column y value ;;
  grid <- list_set (_grid self) x column ;;
  let num_changes := _num_changes self + 1 in
  let frame_box :=
    match _frame_box self with
    | Some (l, t, r, b) => Some (Z.min x l, Z.min y t, Z.max x r, Z.max y b)
    | None => Some (x, y, x, y)
    end in
  Ok (mk (size self) grid num_changes frame_box).

Definition get_cell (self : t) (cell : Z * Z) : result Z :=
  let '(x, y) := cell in
  column <- list_get (_grid self) x ;;
  list_get column y.

Definition reset (self : t) : t :=
  mk (size self) (_grid self) 0 None.

Definition frame_box (self : t) : option (Z * Z * Z * Z) := _frame_box self.

Definition num_changes (self : t) : Z := _num_changes self.

Definition WALL : Z := 0.
Definition TREE : Z := 1.
Definition PATH : Z := 2.
Definition FILL : Z := 3.

(** [self.cells], as [__init__] fills it when there is no mask: the
    cells with both coordinates even, row by row. *)
Definition cells (self : t) : list (Z * Z) :=
  flat_map (fun y => map (fun x => (x, y)) (range_by_2 (fst (size self))))
    (range_by_2 (snd (size self))).

(** [neighborhood(cell)] of [__init__], with no mask. *)
Definition neighborhood (self : t) (cell : Z * Z) : list (Z * Z) :=
  let '(x, y) := cell in
  let '(width, height) := size self in
  (if 2 <=? x then [(x - 2, y)] else []) ++
  (if 2 <=? y then [(x, y - 2)] else []) ++
  (if x <=? width - 3 then [(x + 2, y)] else []) ++
  (if y <=? height - 3 then [(x, y + 2)] else []).

(** [get_neighbors]: the entry of [self._graph], which [__init__] fills
    with the neighbourhood of every cell. *)
Definition get_neighbors (self : t) (cell : Z * Z) : result (list (Z * Z)) :=
  if bool_decide (cell ∈ cells self) then Ok (neighborhood self cell) else Raise KeyError.

Definition mark_space (self : t) (c1 c2 : Z * Z) (value : Z) : result t :=
  let c := ((fst c1 + fst c2) / 2, (snd c1 + snd c2) / 2) in
  mark_cell self c value.

Definition mark_path (self : t) (path : list (Z * Z)) (value : Z) : result t :=
  self <- for_each (fun m cell => mark_cell m cell value) self (items path) ;;
  for_each (fun m c => mark_space m (fst c) (snd c) value) self
    (items (zip (tail path) (removelast path))).

Definition barrier (self : t) (c1 c2 : Z * Z) : result bool :=
  let x := (fst c1 + fst c2) / 2 in
  let y := (snd c1 + snd c2) / 2 in
  v <- get_cell self (x, y) ;; Ok (v =? WALL).

Definition is_wall (self : t) (cell : Z * Z) : result bool :=
  v <- get_cell self cell ;; Ok (v =? WALL).

Definition in_tree (self : t) (cell : Z * Z) : result bool :=
  v <- get_cell self cell ;; Ok (v =? TREE).

Definition in_path (self : t) (cell : Z * Z) : result bool :=
  v <- get_cell self cell ;; Ok (v =? PATH).

End Maze.

(** ** surface.py *)

Module GIFSurface.

(** [_io] is the in-memory file, kept as the chunks written to it in
    order; its value is their concatenation. *)
Record t : Type := mk {
  size : Z * Z;
  loop : Z;
  _io : list (list Z);
  color_depth : Z;
  palette : list Z;
  _lzw_compress : Compression.t
}.

Definition getvalue (self : t) : list Z := concat (_io self).

Definition write (self : t) (data : list Z) : t :=
  mk (size self) (loop self) (_io self ++ [data]) (color_depth self) (palette self)
     (_lzw_compress self).

Definition set_palette (self : t) (palette : list Z) : result t :=
  palette <- global_color_table (color_depth self) palette ;;
  Ok (mk (size self) (loop self) (_io self) (color_depth self) palette
         (_lzw_compress self)).

Definition set_lzw_compress (self : t) (min_code_length : Z) : result t :=
  let n := Z.max 2 (Z.min 12 min_code_length) in
  lzw <- Compression.__init__ n ;;
  Ok (mk (size self) (loop self) (_io self) (color_depth self) (palette self) lzw).

Definition compress (self : t) (data : list (result sym)) : result (list Z * t) :=
  '(bytes, lzw) <- Compression.__call__ (_lzw_compress self) data ;;
  Ok (bytes, mk (size self) (loop self) (_io self) (color_depth self) (palette self) lzw).

Definition rectangle (self : t) (left top width height color : Z) : result t :=
  descriptor <- image_descriptor left top width height 0 ;;
  lzw <- Compression.__init__ 2 ;;
  '(data, _) <- Compression.__call__ lzw
                  (items (replicate (Z.to_nat width * Z.to_nat height) (Some color))) ;;
  Ok (write self (descriptor ++ data)).

(** [GIFSurface(width, height, color_depth, palette, loop, bg_color,
    min_code_length)]; an argument left at its default [None] is [None]
    here. *)
Definition __init__ (width height color_depth : Z) (palette : option (list Z))
    (loop : Z) (bg_color : option Z) (min_code_length : option Z) : result t :=
  if negb (isinstance_int color_depth) && ((1 <=? color_depth) && (color_depth <=? 8))
  then Raise (ValueError "Invalid color depth.")
  else
    palette <-
      match palette with
      | Some (c :: p) => Ok (c :: p)
      | _ => n <- shl (3 * 1) color_depth ;; Ok (replicate (Z.to_nat n) 0)
      end ;;
    palette <- global_color_table color_depth palette ;;
    let min_code_length :=
      match min_code_length with
      | Some 0 | None => color_depth
      | Some n => n
      end in
    lzw <- Compression.__init__ (Z.max 2 (Z.min 12 min_code_length)) ;;
    let self := mk (width, height) loop [] color_depth palette lzw in
    match bg_color with
    | Some color => rectangle self 0 0 width height color
    | None => Ok self
    end.

(** The property [_gif_header]. *)
Definition _gif_header (self : t) : result (list Z) :=
  screen <- screen_descriptor (fst (size self)) (snd (size self)) (color_depth self) ;;
  loop <- loop_control_block (GIFSurface.loop self) ;;
  Ok (screen ++ palette self ++ loop).

(** [save(filename)]: the bytes written to the file. *)
Definition save (self : t) : result (list Z) :=
  header <- _gif_header self ;;
  trailer <- bytearray [59] ;;
  Ok (header ++ getvalue self ++ trailer).

Definition clear (self : t) : t :=
  mk (size self) (loop self) [] (color_depth self) (palette self) (_lzw_compress self).

End GIFSurface.

(** ** animation.py *)

Module Animation.

Record t : Type := mk {
  _surface : GIFSurface.t;
  num_colors : Z;
  colormap : gmap Z Z;
  speed : Z;
  trans_index : option Z;
  delay : Z;
  cell_size : Z;
  translation : Z * Z;
  maze : option Maze.t
}.

Definition __init__ (surface : GIFSurface.t) : result t :=
  num_colors <- shl 1 (GIFSurface.color_depth surface) ;;
  let colormap := foldl (fun d i => <[ i := i ]> d) ∅ (range num_colors) in
  Ok (mk surface num_colors colormap 10 None 5 5 (0, 0) None).

Definition set_colormap (self : t) (cmap : gmap Z Z) : t :=
  mk (_surface self) (num_colors self) (cmap ∪ colormap self) (speed self)
     (trans_index self) (delay self) (cell_size self) (translation self) (maze self).

(** [set_control] with keyword arguments: a keyword that is not passed
    is [None]. *)
Definition set_control (self : t) (speed delay : option Z)
    (trans_index : option (option Z)) : t :=
  mk (_surface self) (num_colors self) (colormap self)
     (default (Animation.speed self) speed)
     (default (Animation.trans_index self) trans_index)
     (default (Animation.delay self) delay)
     (cell_size self) (translation self) (maze self).

Definition with_surface (self : t) (surface : GIFSurface.t) : t :=
  mk surface (num_colors self) (colormap self) (speed self) (trans_index self)
     (delay self) (cell_size self) (translation self) (maze self).

Definition with_maze (self : t) (m : Maze.t) : t :=
  mk (_surface self) (num_colors self) (colormap self) (speed self) (trans_index self)
     (delay self) (cell_size self) (translation self) (Some m).

(** [self.maze]: the attribute exists once [add_maze] has set it. *)
Definition get_maze (self : t) : result Maze.t :=
  match maze self with
  | Some m => Ok m
  | None => Raise AttributeError
  end.

Definition add_maze (self : t) (m : Maze.t) (cell_size : Z) (translation : Z * Z) : t :=
  mk (_surface self) (num_colors self) (colormap self) (speed self) (trans_index self)
     (delay self) cell_size translation (Some m).

Definition pad_delay_frame (self : t) (delay : Z) : result t :=
  control <- graphics_control_block delay (trans_index self) ;;
  descriptor <- image_descriptor 0 0 1 1 0 ;;
  '(data, surface) <- GIFSurface.compress (_surface self) (items [trans_index self]) ;;
  Ok (with_surface self (GIFSurface.write surface (control ++ descriptor ++ data))).

(** The generator [get_frame_pixels] of [_encode_frame]: item [i] is
    computed when the compressor asks for it. *)
Definition get_frame_pixels (self : t) (m : Maze.t) (left top width height : Z)
    : list (result sym) :=
  map (fun i =>
         let y := i / (width * cell_size self * cell_size self) in
         let x := (i mod (width * cell_size self)) / cell_size self in
         val <- Maze.get_cell m (x + left, y + top) ;;
         color <- getitem (colormap self) val ;;
         Ok (Some color))
      (range (width * height * cell_size self * cell_size self)).

(** [_encode_frame] returns the frame and leaves the maze reset. *)
Definition _encode_frame (self : t) : result (list Z * t) :=
  control <- graphics_control_block (delay self) (trans_index self) ;;
  m <- get_maze self ;;
  let '(l, t, r, b) :=
    match Maze.frame_box m with
    | Some box => box
    | None => (0, 0, fst (Maze.size m) - 1, snd (Maze.size m) - 1)
    end in
  let width := r - l + 1 in
  let height := b - t + 1 in
  descriptor <-
    image_descriptor (cell_size self * l + fst (translation self))
                     (cell_size self * t + snd (translation self))
                     (cell_size self * width) (cell_size self * height) 0 ;;
  '(data, surface) <-
    GIFSurface.compress (_surface self) (get_frame_pixels self m l t width height) ;;
  Ok (control ++ descriptor ++ data, with_maze (with_surface self surface) (Maze.reset m)).

Definition refresh_frame (self : t) : result t :=
  m <- get_maze self ;;
  if speed self <=? Maze.num_changes m then
    '(frame, self) <- _encode_frame self ;;
    Ok (with_surface self (GIFSurface.write (_surface self) frame))
  else Ok self.

Definition clear_remaining_changes (self : t) : result t :=
  m <- get_maze self ;;
  if 0 <? Maze.num_changes m then
    '(frame, self) <- _encode_frame self ;;
    Ok (with_surface self (GIFSurface.write (_surface self) frame))
  else Ok self.

(** [self.maze.mark_cell(cell, value)]: the algorithms mark cells of the
    maze the animation is bound to. *)
Definition mark_cell (self : t) (cell : Z * Z) (value : Z) : result t :=
  m <- get_maze self ;;
  m <- Maze.mark_cell m cell value ;;
  Ok (with_maze self m).

(** [create_maze_in_region(cell_size, region, None)]; [region] is an
    integer or a 4-tuple.  The maze returned is the one the animation is
    bound to afterwards. *)
Definition create_maze_in_region (self : t) (cell_size : Z)
    (region : Z + Z * Z * Z * Z) : result t :=
  let '(l, t, r, b) :=
    match region with
    | inl n => (n, n, fst (GIFSurface.size (_surface self)) - n - 1,
                snd (GIFSurface.size (_surface self)) - n - 1)
    | inr box => box
    end in
  '(w, rem) <- divmod (r - l + 1) cell_size ;;
  let '(w, l) := if w mod 2 =? 0 then (w - 1, l + (cell_size + rem) / 2) else (w, l) in
  '(h, rem) <- divmod (b - t + 1) cell_size ;;
  let '(h, t) := if h mod 2 =? 0 then (h - 1, t + (cell_size + rem) / 2) else (h, t) in
  m <- Maze.__init__ w h ;;
  Ok (add_maze self m cell_size (l, t)).

End Animation.

(** ** algorithms.py *)

(** [dist_to_color(distance)] of [bfs] and [dfs], for the animation the
    maze is bound to. *)
Definition dist_to_color (anim : Animation.t) (distance : Z) : result Z :=
  if Animation.num_colors anim =? 0 then Raise ZeroDivisionError
  else Ok (Z.max (distance mod Animation.num_colors anim) 3).

(** The [while] loop of [retrieve_path]: [None] when [fuel] turns do not
    reach [start]. *)
Fixpoint retrieve_loop (fuel : nat) (came_from : gmap (Z * Z) (Z * Z)) (start v : Z * Z)
    (path : list (Z * Z)) : option (result (list (Z * Z))) :=
  match fuel with
  | O => None
  | S fuel' =>
      if bool_decide (v = start) then Some (Ok path)
      else match came_from !! v with
           | Some u => retrieve_loop fuel' came_from start u (path ++ [u])
           | None => Some (Raise KeyError)
           end
  end.

Definition retrieve_path (fuel : nat) (came_from : gmap (Z * Z) (Z * Z))
    (start end_ : Z * Z) : option (result (list (Z * Z))) :=
  retrieve_loop fuel came_from start end_ [end_].

(** [manhattan(u, v)] of [astar]. *)
Definition manhattan (u v : Z * Z) : Z := Z.abs (fst u - fst v) + Z.abs (snd u - snd v).

(** ** The reader of the output: a GIF LZW decoder

    The repository has no decoder; the claims about what the compressor
    writes are stated against the decoder of the GIF89a specification:
    sub-blocks, codes read least significant bit first at a width that
    starts at the minimum code size plus one and grows to at most 12 bits,
    a table of at most 4096 codes, a clear code that resets the table and
    an end code that stops the decoder. *)

(** The [n] low-order bits of a number, least significant first. *)
Fixpoint low_bits (n : nat) (z : Z) : list bool :=
  match n with
  | O => []
  | S k => Z.odd z :: low_bits k (Z.div2 z)
  end.

(** The eight bits of a byte, least significant first. *)
Definition byte_bits (b : Z) : list bool := low_bits 8 b.

Definition bits_of_bytes (bytes : list Z) : list bool := concat (map byte_bits bytes).

(** The number a list of bits spells, least significant first. *)
Fixpoint bits_value (bits : list bool) : Z :=
  match bits with
  | [] => 0
  | b :: rest => Z.b2z b + 2 * bits_value rest
  end.

(** The next [width] bits as a code, and the bits after them. *)
Definition read_code (width : Z) (bits : list bool) : option (Z * list bool) :=
  if len bits <? width then None
  else Some (bits_value (take (Z.to_nat width) bits), drop (Z.to_nat width) bits).

(** Codes of the given widths, one after the other. *)
Fixpoint read_codes (widths : list Z) (bits : list bool) : option (list Z) :=
  match widths with
  | [] => Some []
  | w :: rest =>
      match read_code w bits with
      | Some (code, bits') => cons code <$> read_codes rest bits'
      | None => None
      end
  end.

(** The payload of a chain of sub-blocks: each block is a length byte and
    that many bytes; a zero length ends the chain. *)
Fixpoint read_blocks (fuel : nat) (data : list Z) : option (list Z) :=
  match fuel, data with
  | S fuel', n :: rest =>
      if n =? 0 then Some []
      else if (0 <? n) && (n <=? 255) && (n <=? len rest)
      then app (take (Z.to_nat n) rest) <$> read_blocks fuel' (drop (Z.to_nat n) rest)
      else None
  | _, _ => None
  end.

(** How a decoder run ends: at the end code, at the end of the data with
    no end code read, or at a code that is not in the table. *)
Inductive outcome : Type := EndOfInformation | OutOfData | Corrupt.

Module Decoder.

Record t : Type := mk {
  width : Z;
  next : Z;
  table : gmap Z (list Z);
  prev : option (list Z);
  out : list Z
}.

Definition literals (n : Z) : gmap Z (list Z) :=
  foldl (fun d i => <[ i := [i] ]> d) ∅ (range n).

(** The state after a clear code; the symbols decoded so far stay. *)
Definition cleared (mcs : Z) (out : list Z) : t :=
  mk (mcs + 1) (2 ^ mcs + 2) (literals (2 ^ mcs)) None out.

(** A code that is neither the clear code nor the end code: the string it
    stands for is written out and, after the first code of a table, the
    previous string extended by one symbol gets the next free code. *)
Definition lookup_code (st : t) (code : Z) : option (list Z) :=
  match table st !! code, prev st with
  | Some e, _ => Some e
  | None, Some p => if code =? next st then Some (p ++ take 1 p) else None
  | None, None => None
  end.

Definition accept (st : t) (code : Z) : option t :=
  match lookup_code st code with
  | None => None
  | Some entry =>
      match prev st with
      | Some p =>
          if next st <? 4096 then
            let table := <[ next st := p ++ take 1 entry ]> (table st) in
            let next := next st + 1 in
            let width :=
              if (next =? 2 ^ width st) && (width st <? 12)
              then width st + 1 else width st in
            Some (mk width next table (Some entry) (out st ++ entry))
          else
            Some (mk (width st) (next st) (table st) (Some entry) (out st ++ entry))
      | None =>
          Some (mk (width st) (next st) (table st) (Some entry) (out st ++ entry))
      end
  end.

(** Every turn reads one code of at least one bit. *)
Fixpoint loop (fuel : nat) (mcs : Z) (st : t) (bits : list bool) : list Z * outcome :=
  match fuel with
  | O => (out st, Corrupt)
  | S fuel' =>
      match read_code (width st) bits with
      | None => (out st, OutOfData)
      | Some (code, bits') =>
          if code =? 2 ^ mcs then loop fuel' mcs (cleared mcs (out st)) bits'
          else if code =? 2 ^ mcs + 1 then (out st, EndOfInformation)
          else
            match accept st code with
            | Some st' => loop fuel' mcs st' bits'
            | None => (out st, Corrupt)
            end
      end
  end.

(** The symbols decoded from the codes in [bits]. *)
Definition lzw (mcs : Z) (bits : list bool) : list Z * outcome :=
  loop (S (length bits)) mcs (cleared mcs []) bits.

(** The symbols decoded from image data: the minimum code size, then the
    sub-blocks. *)
Definition decode (data : list Z) : list Z * outcome :=
  match data with
  | mcs :: blocks =>
      if (2 <=? mcs) && (mcs <=? 11) then
        match read_blocks (length blocks) blocks with
        | Some payload => lzw mcs (bits_of_bytes payload)
        | None => ([], Corrupt)
        end
      else ([], Corrupt)
  | [] => ([], Corrupt)
  end.

End Decoder.

(** ** Notions the statements use *)

(** The number a [bytearray] spells, first byte least significant. *)
Fixpoint bytes_value (bytes : list Z) : Z :=
  match bytes with
  | [] => 0
  | b :: rest => b + 256 * bytes_value rest
  end.

(** The number a string of binary digits spells when read from its last
    character to its first; the argument is the reversed string. *)
Fixpoint digits_value (digits : list ascii) : Z :=
  match digits with
  | [] => 0
  | d :: rest => (if Ascii.eqb d "1" then 1 else 0) + 2 * digits_value rest
  end.

(** The bits written to a block so far. *)
Definition stream_bits (db : DataBlock.t) : list bool :=
  take (Z.to_nat (DataBlock._nbits db)) (bits_of_bytes (DataBlock._bitstream db)).

(** A block as [encode_bits] keeps it: whole bytes, as many as the bits
    written need, and no bit set beyond the last one written. *)
Definition block_wf (db : DataBlock.t) : Prop :=
  Forall (fun b => 0 <= b < 256) (DataBlock._bitstream db) /\
  8 * len (DataBlock._bitstream db) - 8 < DataBlock._nbits db
    <= 8 * len (DataBlock._bitstream db) /\
  0 <= bytes_value (DataBlock._bitstream db) < 2 ^ DataBlock._nbits db.

(** [encode_bits] for each [(code, width)] of a list, in order. *)
Fixpoint encode_all (db : DataBlock.t) (codes : list (Z * Z)) : result DataBlock.t :=
  match codes with
  | [] => Ok db
  | (code, width) :: rest =>
      db' <- DataBlock.encode_bits db code width ;; encode_all db' rest
  end.

(** A code that fits its width. *)
Definition fits (cw : Z * Z) : Prop := 0 <= fst cw < 2 ^ snd cw /\ 0 < snd cw.

(** The bits of a list of codes, each at its width, one after the other. *)
Definition codes_bits (codes : list (Z * Z)) : list bool :=
  concat (map (fun cw => low_bits (Z.to_nat (snd cw)) (fst cw)) codes).

(** A compressor for the minimum code length [mcl], as [__init__] sets its
    constants. *)
Definition compressor_of (self : Compression.t) (mcl : Z) : Prop :=
  Compression._min_code_length self = mcl /\
  Compression._clear_code self = 2 ^ mcl /\
  Compression._end_code self = 2 ^ mcl + 1 /\
  Compression._max_codes self = 4096.

(** A symbol of the alphabet of [mcl] bits. *)
Definition in_alphabet (mcl : Z) (s : Z) : Prop := 0 <= s < 2 ^ mcl.

(** What the decoder makes of a list of codes, none of them the end code,
    each written at the width the decoder reads with. *)
Fixpoint feed (mcs : Z) (st : Decoder.t) (codes : list (Z * Z)) : option Decoder.t :=
  match codes with
  | [] => Some st
  | (code, width) :: rest =>
      if negb (width =? Decoder.width st) then None
      else if code =? 2 ^ mcs then feed mcs (Decoder.cleared mcs (Decoder.out st)) rest
      else if code =? 2 ^ mcs + 1 then None
      else
        match Decoder.accept st code with
        | Some st' => feed mcs st' rest
        | None => None
        end
  end.

(** [bits] are the bits of [codes] followed by [pad] zero bits. *)
Definition spells (bits : list bool) (codes : list (Z * Z)) (pad : Z) : Prop :=
  bits_value bits = bits_value (codes_bits codes) /\
  len bits = len (codes_bits codes) + pad /\ 0 <= pad.

(** The compressor inside its loop, with pattern [z], against the decoder
    that has read every code written so far: same width, the decoder's
    table one entry behind the compressor's, the missing entry being the
    previous string extended by the first symbol of the pattern. *)
Record related (mcl : Z) (st : Compression.locals) (D : Decoder.t) (z : list Z) : Prop := {
  rel_pattern : Compression.pattern st = map Some z;
  rel_width : Compression.code_length st = Decoder.width D;
  rel_width_range : mcl + 1 <= Decoder.width D <= 12;
  rel_next :
    Compression.next_code st =
    Decoder.next D + match Decoder.prev D with Some _ => 1 | None => 0 end;
  rel_next_lo : 2 ^ mcl + 2 <= Decoder.next D;
  rel_next_hi : Decoder.next D < 2 ^ Decoder.width D;
  rel_next_max : Compression.next_code st <= 4095;
  rel_empty : z = [] -> Decoder.prev D = None;
  rel_member :
    z <> [] -> is_Some (Compression.code_table st !! Compression.pattern st);
  rel_prev : forall u, Decoder.prev D = Some u -> u <> [];
  rel_corr : forall x k,
    Compression.code_table st !! x = Some k <->
    (exists y, x = map Some y /\ Decoder.table D !! k = Some y) \/
    (exists u, Decoder.prev D = Some u /\ k = Decoder.next D /\
               x = map Some (u ++ take 1 z));
  rel_dom : forall k y,
    Decoder.table D !! k = Some y ->
    0 <= k < Decoder.next D /\ k <> 2 ^ mcl /\ k <> 2 ^ mcl + 1 /\ y <> [];
  rel_singles : forall s, 0 <= s < 2 ^ mcl -> Decoder.table D !! s = Some [s]
}.

(** The local variables [__call__] leaves its loop with. *)
Definition final_locals (self : Compression.t) (input_data : list (result sym))
    : result Compression.locals :=
  st <- Compression.enter self ;; for_each (Compression.loop_body self) st input_data.

(** How the decoder's run on the output ends, from the local variables
    the loop is left with: the compressor writes the end code at its
    width, the decoder reads it one bit wider when [next_code] has reached
    [2 ** code_length], and then finds that bit only if the stream does not
    end on a byte boundary. *)
Definition end_of_run (st : Compression.locals) : outcome :=
  if (Compression.next_code st =? 2 ^ Compression.code_length st)
     && ((DataBlock._nbits (Compression.stream st) + 2 * Compression.code_length st)
           mod 8 =? 0)
  then OutOfData else EndOfInformation.

(** The code length, and the size of the code table, that a run leaves
    its loop with; and what the decoder makes of the bytes of a call. *)
Definition code_length_after (self : Compression.t) (input_data : list (result sym))
    : result Z :=
  st <- final_locals self input_data ;; Ok (Compression.code_length st).

Definition table_size_after (self : Compression.t) (input_data : list (result sym))
    : result nat :=
  st <- final_locals self input_data ;; Ok (size (Compression.code_table st)).

Definition decoded (self : Compression.t) (input_data : list (result sym))
    : result (list Z * outcome) :=
  r <- Compression.__call__ self input_data ;; Ok (Decoder.decode (fst r)).

(** The digits [encode_bits] puts for [num] at width [size], first put
    first. *)
Definition digits_of (num size : Z) : list ascii := rev (zfill size (drop 2 (bin num))).

(** What one turn of the loop does to the local variables, with [w] the
    code length and [n] the next code before the turn: nothing but a longer
    pattern; or a new table entry under code [n], the prefix written at
    width [w], and the width one more when [n] is [2 ^ w]; or, when that
    entry is the 4095th code, also the clear code and a fresh table. *)
Inductive turn (mcl : Z) (self : Compression.t) (st : Compression.locals) (c : Z)
    : Compression.locals -> Prop :=
| turn_grow k0 :
    Compression.code_table st !! (Compression.pattern st ++ [Some c]) = Some k0 ->
    turn mcl self st c
      (Compression.mk_locals (Compression.code_length st) (Compression.next_code st)
         (Compression.code_table st) (Compression.pattern st ++ [Some c])
         (Compression.stream st))
| turn_emit k s1 :
    Compression.code_table st !! (Compression.pattern st ++ [Some c]) = None ->
    Compression.code_table st !! Compression.pattern st = Some k ->
    DataBlock.encode_bits (Compression.stream st) k (Compression.code_length st) = Ok s1 ->
    Compression.next_code st + 1 <> 4096 ->
    turn mcl self st c
      (Compression.mk_locals
         (if Compression.next_code st =? 2 ^ Compression.code_length st
          then Compression.code_length st + 1 else Compression.code_length st)
         (Compression.next_code st + 1)
         (<[ Compression.pattern st ++ [Some c] := Compression.next_code st ]>
            (Compression.code_table st))
         [Some c] s1)
| turn_clear k s1 s2 :
    Compression.code_table st !! (Compression.pattern st ++ [Some c]) = None ->
    Compression.code_table st !! Compression.pattern st = Some k ->
    DataBlock.encode_bits (Compression.stream st) k (Compression.code_length st) = Ok s1 ->
    Compression.next_code st + 1 = 4096 ->
    DataBlock.encode_bits s1 (Compression._clear_code self) (Compression.code_length st)
      = Ok s2 ->
    turn mcl self st c
      (Compression.mk_locals (mcl + 1) (Compression._end_code self + 1)
         (Compression.single_codes (2 ^ mcl)) [Some c] s2).

(** What holds of the local variables at every turn of a run on symbols
    of the alphabet: a decoder is related to them, the stream is well
    formed, and the table holds the codes below [next_code] except the
    clear and the end code. *)
Definition run_inv (mcl : Z) (st : Compression.locals) : Prop :=
  (exists D z, related mcl st D z) /\ block_wf (Compression.stream st) /\
  Z.of_nat (size (Compression.code_table st)) + 2 = Compression.next_code st.

(** [mark_cell] for each [(cell, value)] of a list, in order. *)
Fixpoint mark_cells (m : Maze.t) (marks : list (Z * Z * Z)) : result Maze.t :=
  match marks with
  | [] => Ok m
  | (cell, value) :: rest => bind (Maze.mark_cell m cell value) (fun m' => mark_cells m' rest)
  end.

(** [box] is the tight bounding box of the cells: nothing when there is
    no cell; otherwise every cell lies inside and every side touches one. *)
Definition tight_box (box : option (Z * Z * Z * Z)) (cells : list (Z * Z)) : Prop :=
  match box with
  | None => cells = []
  | Some (l, t, r, b) =>
      (forall x y, In (x, y) cells -> l <= x <= r /\ t <= y <= b) /\
      (exists y, In (l, y) cells) /\ (exists x, In (x, t) cells) /\
      (exists y, In (r, y) cells) /\ (exists x, In (x, b) cells)
  end.

(** The region of the maze a frame covers: the dirty rectangle, or the
    whole maze when nothing is marked. *)
Definition frame_region (m : Maze.t) : Z * Z * Z * Z :=
  match Maze.frame_box m with
  | Some box => box
  | None => (0, 0, fst (Maze.size m) - 1, snd (Maze.size m) - 1)
  end.

(** The animation that a flush of [self], bound to the maze [m], leaves
    when it writes [frame]: the surface has received that one chunk, the
    maze is [m] reset, and nothing else has changed. *)
Definition flushed (self : Animation.t) (m : Maze.t) (frame : list Z) : Animation.t :=
  Animation.with_maze
    (Animation.with_surface self (GIFSurface.write (Animation._surface self) frame))
    (Maze.reset m).


(** A symbol the initial code table knows. *)
Definition valid_symbol (mcl : Z) (s : option Z) : Prop :=
  exists t, s = Some t /\ in_alphabet mcl t.

(** The code table and the pattern hold valid symbols only, and the
    empty pattern is no key. *)
Definition clean (mcl : Z) (st : Compression.locals) : Prop :=
  (forall x k, Compression.code_table st !! x = Some k ->
               x <> [] /\ Forall (valid_symbol mcl) x) /\
  Forall (valid_symbol mcl) (Compression.pattern st).

(** The pattern is the one symbol [bad], and no key of the table starts
    with it. *)
Definition stuck (bad : option Z) (st : Compression.locals) : Prop :=
  Compression.pattern st = [bad] /\
  forall x k, Compression.code_table st !! x = Some k -> hd_error x <> Some bad.

(** A field of a packed block: its bytes, or the error of [struct.pack]. *)
Definition field (p : result (list Z)) : Prop := p = Raise StructError \/ exists x, p = Ok x.

(** The grid position a cell denotes: the indices are normalised
    against the number of columns and the height of the column. *)
Definition position (m : Maze.t) (cell : Z * Z) : result (nat * nat) :=
  bind (norm_index (length (Maze._grid m)) (fst cell)) (fun i =>
  match Maze._grid m !! i with
  | Some column => bind (norm_index (length column) (snd cell)) (fun j => Ok (i, j))
  | None => Raise IndexError
  end).

(** The value at a grid position. *)
Definition at_position (m : Maze.t) (p : nat * nat) : option Z :=
  column ← Maze._grid m !! fst p; column !! snd p.

(** The grid has as many columns as the width says and every column as
    many cells as the height says. *)
Definition shaped (m : Maze.t) : Prop :=
  length (Maze._grid m) = Z.to_nat (fst (Maze.size m)) /\
  forall i column, Maze._grid m !! i = Some column ->
                   length column = Z.to_nat (snd (Maze.size m)).

(** The position between two cells, the one [mark_space] marks and
    [barrier] reads. *)
Definition space_between (c1 c2 : Z * Z) : Z * Z :=
  ((fst c1 + fst c2) / 2, (snd c1 + snd c2) / 2).

(** The corners of the region [create_maze_in_region] is given: a
    margin on every side of the surface, or the corners themselves. *)
Definition region_box (self : Animation.t) (region : Z + Z * Z * Z * Z) : Z * Z * Z * Z :=
  match region with
  | inl n => (n, n, fst (GIFSurface.size (Animation._surface self)) - n - 1,
              snd (GIFSurface.size (Animation._surface self)) - n - 1)
  | inr box => box
  end.

(** One axis of [create_maze_in_region]: the number of cells and the
    start, from the first and the last pixel of the region. *)
Definition fit_axis (cell_size first last : Z) : Z * Z :=
  let n := (last - first + 1) / cell_size in
  let rem := (last - first + 1) mod cell_size in
  if n mod 2 =? 0 then (n - 1, first + (cell_size + rem) / 2) else (n, first).

(** [n] cells of [cs] pixels from [start] fit the pixels [first..last]:
    [n] is odd and, for a positive [cs], the cells lie within the pixels;
    when the cells that fit are even in number the margin before them is
    half of what is left over, otherwise they start at [first] and less
    than one cell is left over. *)
Definition fitted (cs first last n start : Z) : Prop :=
  Z.odd n = true /\
  (0 < cs ->
   first <= start /\ start + cs * n <= last + 1 /\
   (Z.even ((last - first + 1) / cs) = true ->
    start - first = (last + 1 - first - cs * n) / 2) /\
   (Z.even ((last - first + 1) / cs) = false ->
    start = first /\ last + 1 - cs < start + cs * n)).

(** A chain from [v] to [start] in [came_from]: every cell is mapped to
    the next one, [start] is the last cell and no other. *)
Fixpoint chain (came_from : gmap (Z * Z) (Z * Z)) (start v : Z * Z) (rest : list (Z * Z))
    : Prop :=
  match rest with
  | [] => v = start
  | u :: rest' => v <> start /\ came_from !! v = Some u /\ chain came_from start u rest'
  end.

(** The state after the symbols [0, 1, ..., k - 1] with 11-bit symbols:
    every pair of neighbours has got a code of its own. *)
Definition ascending (k : Z) (st : Compression.locals) : Prop :=
  Compression.pattern st = [Some (k - 1)] /\
  Compression.next_code st = 2049 + k /\
  forall x c, Compression.code_table st !! x = Some c ->
    (exists s, x = [Some s]) \/ (exists i, x = [Some i; Some (i + 1)] /\ i + 1 < k).

(** ** Objects the examples use *)

(** [GIFSurface(10, 10, 2)] and the animation on it. *)
Definition example_surface : GIFSurface.t :=
  GIFSurface.mk (10, 10) 0 [] 2 (replicate 12 0)
    (Compression.mk DataBlock.__init__ 2 4 5 4096).

Definition example_animation : Animation.t :=
  Animation.mk example_surface 4 (foldl (fun d i => <[ i := i ]> d) ∅ (range 4))
    10 None 5 5 (0, 0) None.

(** The maze [Maze(5, 5, None)]. *)
Definition example_maze : Maze.t :=
  Maze.mk (5, 5) (replicate 5 (replicate 5 0)) 0 None.

(** [example_animation] bound to [example_maze] with cells of one pixel,
    flushing at every change, after the mark of cell [(2, 3)]. *)
Definition example_marked_maze : Maze.t :=
  Maze.mk (5, 5)
    [[0; 0; 0; 0; 0]; [0; 0; 0; 0; 0]; [0; 0; 0; 1; 0]; [0; 0; 0; 0; 0]; [0; 0; 0; 0; 0]]
    1 (Some (2, 3, 2, 3)).

Definition example_bound : Animation.t :=
  Animation.set_control (Animation.add_maze example_animation example_marked_maze 1 (0, 0))
    (Some 1) None None.

Definition example_flushed : Animation.t :=
  Animation.with_maze
    (Animation.with_surface example_bound
       (GIFSurface.write example_surface
          [33; 249; 4; 4; 5; 0; 0; 0; 44; 2; 0; 3; 0; 1; 0; 1; 0; 0; 2; 2; 76; 1; 0]))
    (Maze.reset example_marked_maze).

(** The same animation after a mark with the value 7, which the colour
    map does not know. *)
Definition example_unmapped_maze : Maze.t :=
  Maze.mk (5, 5)
    [[0; 0; 0; 0; 0]; [0; 0; 0; 0; 0]; [0; 0; 0; 7; 0]; [0; 0; 0; 0; 0]; [0; 0; 0; 0; 0]]
    1 (Some (2, 3, 2, 3)).

Definition example_unmapped : Animation.t :=
  Animation.set_control (Animation.add_maze example_animation example_unmapped_maze 1 (0, 0))
    (Some 1) None None.

(** [GIFSurface(10, 10, 3, min_code_length=2)], with eight colours and a
    compressor for four, and its animation after a mark with the value 5. *)
Definition example_deep_surface : GIFSurface.t :=
  GIFSurface.mk (10, 10) 0 [] 3 (replicate 24 0)
    (Compression.mk DataBlock.__init__ 2 4 5 4096).

Definition example_deep_maze : Maze.t :=
  Maze.mk (5, 5)
    [[0; 0; 0; 0; 0]; [0; 0; 0; 0; 0]; [0; 0; 0; 5; 0]; [0; 0; 0; 0; 0]; [0; 0; 0; 0; 0]]
    1 (Some (2, 3, 2, 3)).

Definition example_deep : Animation.t :=
  Animation.mk example_deep_surface 8 (foldl (fun d i => <[ i := i ]> d) ∅ (range 8))
    1 None 5 1 (0, 0) (Some example_deep_maze).

(** * Proofs *)

(** ** Bits and bytes *)

Lemma bind_Ok {A B} (m : result A) (k : A -> result B) a :
  m = Ok a -> bind m k = k a.
Proof. intros ->. reflexivity. Qed.

Lemma lor_pow2_small b k : 0 <= k -> 0 <= b < 2 ^ k -> Z.lor b (2 ^ k) = b + 2 ^ k.
Proof.
  intros Hk Hb. symmetry. apply Z.add_nocarry_lor.
  apply Z.bits_inj'. intros n Hn. rewrite Z.land_spec, Z.bits_0.
  destruct (Z.eq_dec k n) as [<- | Hne].
  - rewrite <- (Z.mod_small b (2 ^ k)) by lia.
    rewrite Z.mod_pow2_bits_high by lia. reflexivity.
  - rewrite (Z.pow2_bits_false k n) by lia. apply andb_false_r.
Qed.

Lemma list_get_last {A} (l : list A) (b : A) : list_get (l ++ [b]) (-1) = Ok b.
Proof.
  unfold list_get, norm_index. rewrite length_app. simpl length.
  replace ((0 <=? -1) && (-1 <? Z.of_nat (length l + 1)))%bool with false by reflexivity.
  replace ((- Z.of_nat (length l + 1) <=? -1) && (-1 <? 0))%bool with true
    by (symmetry; apply andb_true_intro; split; [apply Z.leb_le; lia | reflexivity]).
  simpl. replace (Z.to_nat (-1 + Z.of_nat (length l + 1))) with (length l) by lia.
  rewrite list_lookup_middle by reflexivity. reflexivity.
Qed.

Lemma list_set_last {A} (l : list A) (b v : A) : list_set (l ++ [b]) (-1) v = Ok (l ++ [v]).
Proof.
  unfold list_set, norm_index. rewrite length_app. simpl length.
  replace ((0 <=? -1) && (-1 <? Z.of_nat (length l + 1)))%bool with false by reflexivity.
  replace ((- Z.of_nat (length l + 1) <=? -1) && (-1 <? 0))%bool with true
    by (symmetry; apply andb_true_intro; split; [apply Z.leb_le; lia | reflexivity]).
  simpl. replace (Z.to_nat (-1 + Z.of_nat (length l + 1))) with (length l + 0)%nat by lia.
  rewrite insert_app_r. reflexivity.
Qed.

Lemma bytes_value_app l1 l2 :
  bytes_value (l1 ++ l2) = bytes_value l1 + 2 ^ (8 * len l1) * bytes_value l2.
Proof.
  unfold len. induction l1 as [|b l1 IH]; simpl bytes_value; simpl length.
  - simpl. lia.
  - rewrite IH. replace (8 * Z.of_nat (S (length l1))) with (8 + 8 * Z.of_nat (length l1)) by lia.
    rewrite Z.pow_add_r by lia. change (2 ^ 8) with 256. ring.
Qed.

Lemma bytes_value_bound l :
  Forall (fun b => 0 <= b < 256) l -> 0 <= bytes_value l < 2 ^ (8 * len l).
Proof.
  unfold len. induction 1 as [|b l Hb _ IH]; simpl bytes_value; simpl length.
  - simpl. lia.
  - replace (8 * Z.of_nat (S (length l))) with (8 + 8 * Z.of_nat (length l)) by lia.
    rewrite Z.pow_add_r by lia. change (2 ^ 8) with 256. lia.
Qed.

Lemma digits_value_bound ds : 0 <= digits_value ds < 2 ^ len ds.
Proof.
  unfold len. induction ds as [|d ds IH]; simpl digits_value; simpl length.
  - simpl. lia.
  - rewrite Nat2Z.inj_succ, Z.pow_succ_r by lia. destruct (Ascii.eqb d "1"); lia.
Qed.

Lemma digits_value_app l1 l2 :
  digits_value (l1 ++ l2) = digits_value l1 + 2 ^ len l1 * digits_value l2.
Proof.
  unfold len. induction l1 as [|d l1 IH]; simpl digits_value; simpl length.
  - simpl. lia.
  - rewrite IH, Nat2Z.inj_succ, Z.pow_succ_r by lia. ring.
Qed.

Lemma digits_value_zeros n : digits_value (replicate n "0"%char) = 0.
Proof. induction n as [|n IH]; simpl; [reflexivity | rewrite IH; reflexivity]. Qed.

Lemma block_wf_init : block_wf DataBlock.__init__.
Proof.
  unfold block_wf, len. simpl. split; [constructor|]. split; [lia|].
  change (2 ^ 0) with 1. lia.
Qed.

(** One digit: the bit lands at position [_nbits], which advances by one. *)
Lemma put_digit_spec db d :
  block_wf db ->
  exists db', DataBlock.put_digit db d = Ok db' /\ block_wf db' /\
    DataBlock._nbits db' = DataBlock._nbits db + 1 /\
    bytes_value (DataBlock._bitstream db') =
      bytes_value (DataBlock._bitstream db)
      + 2 ^ DataBlock._nbits db * (if Ascii.eqb d "1" then 1 else 0).
Proof.
  destruct db as [bs n]. unfold block_wf, DataBlock.put_digit. simpl.
  intros (Hbytes & Hlen & Hval).
  assert (Hn : 0 <= n).
  { destruct (Z.lt_ge_cases n 0); [rewrite Z.pow_neg_r in Hval by lia|]; lia. }
  assert (Hpow : 2 ^ (n + 1) = 2 * 2 ^ n) by (rewrite Z.pow_add_r by lia; lia).
  destruct (Z.eqb_spec (len bs * 8) n) as [Heq | Hne].
  - (* a fresh byte *)
    assert (Hv0 : bytes_value (bs ++ [0]) = bytes_value bs)
      by (rewrite bytes_value_app; simpl bytes_value; lia).
    assert (Hv1 : bytes_value (bs ++ [1]) = bytes_value bs + 2 ^ n)
      by (rewrite bytes_value_app; simpl bytes_value; subst n;
          replace (8 * len bs) with (len bs * 8) by lia; lia).
    assert (Hmod : n mod 8 = 0) by (subst n; apply Z.mod_mul; lia).
    assert (Hl : forall v : Z, len (bs ++ [v]) = len bs + 1)
      by (intros v; unfold len; rewrite length_app; simpl; lia).
    destruct (Ascii.eqb d "1").
    + rewrite list_get_last. simpl bind. rewrite Hmod.
      change (Z.lor 0 (Z.shiftl 1 0)) with 1. simpl is_byte.
      cbv iota. rewrite list_set_last. simpl bind.
      eexists; split; [reflexivity|]. simpl. rewrite Hl, Hv1.
      split; [|lia]. split; [|lia].
      apply Forall_app; split; [assumption | apply Forall_singleton; cbv beta; lia].
    + simpl bind. eexists; split; [reflexivity|]. simpl. rewrite Hl, Hv0.
      split; [|lia]. split; [|lia].
      apply Forall_app; split; [assumption | apply Forall_singleton; cbv beta; lia].
  - (* the last byte has room *)
    destruct (Ascii.eqb d "1").
    + destruct (exists_last (l := bs)) as (bs0 & b & ->).
      { intros ->. unfold len in *. simpl in *. lia. }
      apply Forall_app in Hbytes as [Hb0 Hb]. rewrite Forall_singleton in Hb.
      rewrite bytes_value_app in Hval. simpl bytes_value in Hval.
      pose proof (bytes_value_bound bs0 Hb0) as Hv0.
      assert (Hl : forall v : Z, len (bs0 ++ [v]) = len bs0 + 1)
        by (intros v; unfold len; rewrite length_app; simpl; lia).
      rewrite Hl in *. set (m := len bs0) in *.
      assert (Hm : 0 <= m) by (unfold m, len; lia).
      assert (Hk : n mod 8 = n - 8 * m).
      { symmetry. apply Z.mod_unique_pos with (q := m); lia. }
      assert (Hsplit : 2 ^ n = 2 ^ (8 * m) * 2 ^ (n - 8 * m)).
      { rewrite <- Z.pow_add_r by lia. f_equal. lia. }
      assert (Hp8 : 0 < 2 ^ (8 * m)) by (apply Z.pow_pos_nonneg; lia).
      assert (Hlt : b < 2 ^ (n - 8 * m)) by nia.
      rewrite list_get_last. simpl bind. rewrite Hk, Z.shiftl_1_l.
      rewrite lor_pow2_small by lia.
      assert (Hle : 2 ^ (n - 8 * m + 1) <= 2 ^ 8) by (apply Z.pow_le_mono_r; lia).
      rewrite Z.pow_add_r in Hle by lia. change (2 ^ 8) with 256 in Hle.
      change (2 ^ 1) with 2 in Hle.
      assert (Hbyte : is_byte (b + 2 ^ (n - 8 * m)) = true).
      { unfold is_byte. apply andb_true_intro; split; [apply Z.leb_le | apply Z.ltb_lt]; lia. }
      rewrite Hbyte, list_set_last. simpl bind.
      eexists; split; [reflexivity|]. simpl.
      rewrite !bytes_value_app. simpl bytes_value. rewrite Hl. fold m.
      rewrite Hpow, Hsplit.
      generalize dependent (2 ^ (8 * m)). generalize dependent (2 ^ (n - 8 * m)).
      intros Y HY1 HY2 HY3 X HX1 HX2 HX3 HX4.
      split; [|split; [reflexivity | ring]]. split; [|split; [lia | nia]].
      apply Forall_app; split; [assumption | apply Forall_singleton; cbv beta; lia].
    + simpl bind. eexists; split; [reflexivity|]. simpl.
      split; [|lia]. split; [assumption|lia].
Qed.

Lemma put_digits_spec ds : forall db,
  block_wf db ->
  exists db', DataBlock.put_digits db ds = Ok db' /\ block_wf db' /\
    DataBlock._nbits db' = DataBlock._nbits db + len ds /\
    bytes_value (DataBlock._bitstream db') =
      bytes_value (DataBlock._bitstream db) + 2 ^ DataBlock._nbits db * digits_value ds.
Proof.
  induction ds as [|d ds IH]; intros db Hwf.
  - exists db. simpl. unfold len. simpl. repeat split; try apply Hwf; lia.
  - destruct (put_digit_spec db d Hwf) as (db1 & Hput & Hwf1 & Hn1 & Hv1).
    destruct (IH db1 Hwf1) as (db2 & Hputs & Hwf2 & Hn2 & Hv2).
    exists db2. simpl DataBlock.put_digits. rewrite Hput. simpl bind.
    split; [assumption|]. split; [assumption|].
    assert (Hn : 0 <= DataBlock._nbits db).
    { destruct Hwf as (_ & _ & Hv). destruct (Z.lt_ge_cases (DataBlock._nbits db) 0);
        [rewrite Z.pow_neg_r in Hv by lia|]; lia. }
    split.
    + rewrite Hn2, Hn1. unfold len. simpl length. lia.
    + rewrite Hv2, Hv1, Hn1. simpl digits_value. rewrite Z.pow_add_r by lia. ring.
Qed.

(** The digits [encode_bits] walks through, for a number that is not
    negative: the number itself, on [max size (number of digits)] bits. *)
Lemma pos_digits_value p : digits_value (rev (pos_digits p)) = Zpos p.
Proof.
  induction p as [p IH | p IH |]; simpl pos_digits.
  - rewrite rev_unit. simpl digits_value. rewrite IH. lia.
  - rewrite rev_unit. simpl digits_value. rewrite IH. lia.
  - reflexivity.
Qed.

Lemma pos_digits_length p (n : nat) : Zpos p < 2 ^ Z.of_nat n -> (length (pos_digits p) <= n)%nat.
Proof.
  revert n. induction p as [p IH | p IH |]; intros n Hlt; simpl pos_digits.
  - destruct n as [|n]; [simpl in Hlt; lia|].
    rewrite length_app. simpl. rewrite Nat2Z.inj_succ, Z.pow_succ_r in Hlt by lia.
    specialize (IH n). lia.
  - destruct n as [|n]; [simpl in Hlt; lia|].
    rewrite length_app. simpl. rewrite Nat2Z.inj_succ, Z.pow_succ_r in Hlt by lia.
    specialize (IH n). lia.
  - destruct n as [|n]; [simpl in Hlt; lia|]. simpl. lia.
Qed.

Lemma pos_digits_head p : exists r, pos_digits p = "1"%char :: r.
Proof.
  induction p as [p [r IH] | p [r IH] |]; simpl; try rewrite IH; eauto.
Qed.

Lemma rev_replicate {A} n (x : A) : rev (replicate n x) = replicate n x.
Proof. rewrite rev_alt. apply reverse_replicate. Qed.

Lemma zfill_unsigned size c r :
  (Ascii.eqb c "+" || Ascii.eqb c "-")%bool = false ->
  zfill size (c :: r) = replicate (Z.to_nat (size - len (c :: r))) "0"%char ++ c :: r.
Proof. intros H. unfold zfill. rewrite H. reflexivity. Qed.

Lemma bin_drop2 num :
  0 <= num ->
  exists c r, drop 2 (bin num) = c :: r /\
    (Ascii.eqb c "+" || Ascii.eqb c "-")%bool = false /\
    digits_value (rev (c :: r)) = num /\
    forall n : nat, num < 2 ^ Z.of_nat n -> (0 < n)%nat -> (length (c :: r) <= n)%nat.
Proof.
  intros Hnum. destruct num as [|p|p]; [| |lia].
  - exists "0"%char, []. repeat split. simpl. lia.
  - change (drop 2 (bin (Z.pos p))) with (pos_digits p).
    destruct (pos_digits_head p) as [r Hr]. exists "1"%char, r.
    split; [assumption|]. split; [reflexivity|]. rewrite <- Hr.
    split; [apply pos_digits_value|]. intros n Hn _. apply pos_digits_length, Hn.
Qed.

Lemma digits_of_value num size : 0 <= num -> digits_value (digits_of num size) = num.
Proof.
  intros Hnum. unfold digits_of.
  destruct (bin_drop2 num Hnum) as (c & r & -> & Hc & Hv & _).
  rewrite zfill_unsigned by assumption.
  rewrite rev_app_distr, digits_value_app, Hv, rev_replicate, digits_value_zeros. lia.
Qed.

Lemma digits_of_length num size :
  0 <= num < 2 ^ size -> 0 < size -> len (digits_of num size) = size.
Proof.
  intros Hnum Hsize. unfold digits_of.
  destruct (bin_drop2 num (proj1 Hnum)) as (c & r & -> & Hc & _ & Hlen).
  rewrite zfill_unsigned by assumption. specialize (Hlen (Z.to_nat size)).
  rewrite Z2Nat.id in Hlen by lia. specialize (Hlen (proj2 Hnum)).
  unfold len in *. rewrite length_rev, length_app, length_replicate. lia.
Qed.

(** [encode_bits] on a well-formed block: it never fails; the number is
    added at the bit position, which advances by the number of digits. *)
Lemma encode_bits_spec db num size :
  block_wf db -> 0 <= num ->
  exists db', DataBlock.encode_bits db num size = Ok db' /\ block_wf db' /\
    DataBlock._nbits db' = DataBlock._nbits db + len (digits_of num size) /\
    bytes_value (DataBlock._bitstream db') =
      bytes_value (DataBlock._bitstream db) + 2 ^ DataBlock._nbits db * num.
Proof.
  intros Hwf Hnum. unfold DataBlock.encode_bits. fold (digits_of num size).
  destruct (put_digits_spec (digits_of num size) db Hwf) as (db' & H1 & H2 & H3 & H4).
  exists db'. rewrite digits_of_value in H4 by assumption. auto.
Qed.

Lemma encode_bits_fits db num size :
  block_wf db -> 0 <= num < 2 ^ size -> 0 < size ->
  exists db', DataBlock.encode_bits db num size = Ok db' /\ block_wf db' /\
    DataBlock._nbits db' = DataBlock._nbits db + size /\
    bytes_value (DataBlock._bitstream db') =
      bytes_value (DataBlock._bitstream db) + 2 ^ DataBlock._nbits db * num.
Proof.
  intros Hwf Hnum Hsize.
  destruct (encode_bits_spec db num size Hwf (proj1 Hnum)) as (db' & H1 & H2 & H3 & H4).
  exists db'. rewrite digits_of_length in H3 by assumption. auto.
Qed.

(** ** Bit lists *)

Lemma length_low_bits n z : length (low_bits n z) = n.
Proof. revert z. induction n as [|n IH]; intros z; simpl; [reflexivity | rewrite IH; reflexivity]. Qed.

Lemma low_bits_value n z : bits_value (low_bits n z) = z mod 2 ^ Z.of_nat n.
Proof.
  revert z. induction n as [|n IH]; intros z.
  - simpl. rewrite Z.mod_1_r. reflexivity.
  - simpl low_bits. simpl bits_value. rewrite IH, Nat2Z.inj_succ, Z.pow_succ_r by lia.
    rewrite Z.div2_div.
    rewrite (Z.rem_mul_r z 2 (2 ^ Z.of_nat n)) by (try apply Z.pow_pos_nonneg; lia).
    rewrite Zmod_odd. destruct (Z.odd z); simpl Z.b2z; lia.
Qed.

Lemma bits_value_app l1 l2 :
  bits_value (l1 ++ l2) = bits_value l1 + 2 ^ len l1 * bits_value l2.
Proof.
  unfold len. induction l1 as [|b l1 IH]; simpl bits_value; simpl length.
  - simpl. lia.
  - rewrite IH, Nat2Z.inj_succ, Z.pow_succ_r by lia. ring.
Qed.

Lemma bits_value_bound l : 0 <= bits_value l < 2 ^ len l.
Proof.
  unfold len. induction l as [|b l IH]; simpl bits_value; simpl length.
  - simpl. lia.
  - rewrite Nat2Z.inj_succ, Z.pow_succ_r by lia. destruct b; simpl Z.b2z; lia.
Qed.

Lemma bits_value_inj l1 l2 :
  length l1 = length l2 -> bits_value l1 = bits_value l2 -> l1 = l2.
Proof.
  revert l2. induction l1 as [|a l1 IH]; intros [|b l2] Hlen Hval; simpl in Hlen; try lia.
  - reflexivity.
  - simpl in Hval. assert (a = b /\ bits_value l1 = bits_value l2) as [-> Hv].
    { destruct a, b; simpl Z.b2z in Hval; split; try reflexivity; lia. }
    f_equal. apply IH; [lia | assumption].
Qed.

Lemma bits_value_take_drop n l :
  bits_value l = bits_value (take n l) + 2 ^ len (take n l) * bits_value (drop n l).
Proof. rewrite <- bits_value_app, take_drop. reflexivity. Qed.

Lemma byte_bits_value b : 0 <= b < 256 -> bits_value (byte_bits b) = b.
Proof.
  intros Hb. unfold byte_bits. rewrite low_bits_value. apply Z.mod_small.
  change (2 ^ Z.of_nat 8) with 256. lia.
Qed.

Lemma length_bits_of_bytes bs : len (bits_of_bytes bs) = 8 * len bs.
Proof.
  unfold len, bits_of_bytes. induction bs as [|b bs IH].
  - reflexivity.
  - change (concat (map byte_bits (b :: bs))) with (byte_bits b ++ concat (map byte_bits bs)).
    rewrite length_app. unfold byte_bits at 1. rewrite length_low_bits.
    simpl length. lia.
Qed.

Lemma bits_of_bytes_value bs :
  Forall (fun b => 0 <= b < 256) bs -> bits_value (bits_of_bytes bs) = bytes_value bs.
Proof.
  unfold bits_of_bytes. induction 1 as [|b bs Hb _ IH].
  - reflexivity.
  - change (concat (map byte_bits (b :: bs))) with (byte_bits b ++ concat (map byte_bits bs)).
    rewrite bits_value_app, IH, byte_bits_value by assumption.
    unfold len, byte_bits. rewrite length_low_bits. simpl bytes_value.
    change (2 ^ Z.of_nat 8) with 256. reflexivity.
Qed.

(** Reading a code: if the bits spell [c + 2^w * r] with [c] below [2^w],
    the code read is [c] and the bits left spell [r]. *)
Lemma read_code_spec w bits c r :
  0 <= w <= len bits -> 0 <= c < 2 ^ w -> bits_value bits = c + 2 ^ w * r ->
  exists rest, read_code w bits = Some (c, rest) /\
    bits_value rest = r /\ len rest = len bits - w.
Proof.
  intros Hw Hc Hval. unfold read_code.
  destruct (Z.ltb_spec (len bits) w) as [|_]; [lia|].
  exists (drop (Z.to_nat w) bits).
  pose proof (bits_value_take_drop (Z.to_nat w) bits) as Hsplit.
  pose proof (bits_value_bound (take (Z.to_nat w) bits)) as Hb.
  assert (Hlen : len (take (Z.to_nat w) bits) = w).
  { unfold len in *. rewrite length_take. lia. }
  rewrite Hlen in *.
  assert (Hp : 0 < 2 ^ w) by (apply Z.pow_pos_nonneg; lia).
  assert (bits_value (take (Z.to_nat w) bits) = c /\ bits_value (drop (Z.to_nat w) bits) = r)
    as [-> ->].
  { rewrite Hval in Hsplit.
    generalize dependent (bits_value (take (Z.to_nat w) bits)).
    generalize dependent (bits_value (drop (Z.to_nat w) bits)).
    intros z z0 Heq Hz0. remember (2 ^ w) as P eqn:HP. clear HP Hlen Hval.
    assert (r = z) by nia. split; [nia | congruence]. }
  split; [reflexivity|]. split; [reflexivity|].
  unfold len in *. rewrite length_drop. lia.
Qed.

Lemma read_code_short w bits : len bits < w -> read_code w bits = None.
Proof. intros H. unfold read_code. destruct (Z.ltb_spec (len bits) w); [reflexivity | lia]. Qed.

(** ** Sub-blocks *)

Lemma read_blocks_mono f : forall d p f',
  read_blocks f d = Some p -> (f <= f')%nat -> read_blocks f' d = Some p.
Proof.
  induction f as [|f IH]; intros d p f' Hr Hle; [discriminate|].
  destruct f' as [|f']; [lia|]. destruct d as [|n rest]; [discriminate|].
  simpl in *. destruct (n =? 0); [assumption|].
  destruct ((0 <? n) && (n <=? 255) && (n <=? len rest))%bool; [|discriminate].
  destruct (read_blocks f (drop (Z.to_nat n) rest)) as [q|] eqn:Hq; [|discriminate].
  rewrite (IH _ q f' Hq) by lia. assumption.
Qed.

Lemma read_blocks_enough f : forall d p,
  read_blocks f d = Some p -> read_blocks (length d) d = Some p.
Proof.
  induction f as [|f IH]; intros d p Hr; [discriminate|].
  destruct d as [|n rest]; [discriminate|].
  simpl in *. destruct (n =? 0); [assumption|].
  destruct ((0 <? n) && (n <=? 255) && (n <=? len rest))%bool; [|discriminate].
  destruct (read_blocks f (drop (Z.to_nat n) rest)) as [q|] eqn:Hq; [|discriminate].
  apply IH in Hq. rewrite (read_blocks_mono _ _ q (length rest) Hq); [assumption|].
  rewrite length_drop. lia.
Qed.

Lemma read_blocks_block f n payload tail p :
  0 < n <= 255 -> len payload = n -> read_blocks f tail = Some p ->
  read_blocks (S f) (n :: payload ++ tail) = Some (payload ++ p).
Proof.
  intros Hn Hlen Hr. simpl. unfold len in *.
  destruct (Z.eqb_spec n 0); [lia|].
  replace ((0 <? n) && (n <=? 255) && (n <=? Z.of_nat (length (payload ++ tail))))%bool
    with true.
  2:{ symmetry. rewrite !andb_true_iff, Z.ltb_lt, !Z.leb_le, length_app. lia. }
  replace (Z.to_nat n) with (length payload) by lia.
  rewrite take_app_length, drop_app_length, Hr. reflexivity.
Qed.

Lemma dump_loop_spec fuel : forall bs out,
  (length bs <= fuel)%nat ->
  exists chunks pre r,
    DataBlock.dump_loop fuel bs out = (r, out ++ chunks) /\
    (length r <= 255)%nat /\ bs = pre ++ r /\
    forall tail p f, read_blocks f tail = Some p ->
      exists f', read_blocks f' (chunks ++ tail) = Some (pre ++ p).
Proof.
  induction fuel as [|fuel IH]; intros bs out Hlen.
  - destruct bs; [|simpl in Hlen; lia]. exists [], [], []. simpl.
    rewrite app_nil_r. repeat split; [lia|]. intros tail p f Hr. exists f. assumption.
  - simpl. unfold len. destruct (Z.ltb_spec 255 (Z.of_nat (length bs))) as [Hbig | Hsmall].
    + destruct (IH (drop 255 bs) (out ++ [255] ++ take 255 bs)) as (chunks & pre & r & Hd & Hr & Hsplit & Hread).
      { rewrite length_drop. lia. }
      exists ([255] ++ take 255 bs ++ chunks), (take 255 bs ++ pre), r.
      split; [etransitivity; [exact Hd|]; f_equal; rewrite <- !app_assoc; reflexivity|].
      split; [assumption|]. split.
      { rewrite <- app_assoc, <- Hsplit, take_drop. reflexivity. }
      intros tail p f Hp. destruct (Hread tail p f Hp) as [f' Hf'].
      exists (S f'). rewrite <- !app_assoc. simpl app.
      rewrite (read_blocks_block f' 255 (take 255 bs) (chunks ++ tail) (pre ++ p)); try assumption.
      * reflexivity.
      * lia.
      * unfold len. rewrite length_take. lia.
    + exists [], [], bs. rewrite app_nil_r. repeat split; [lia|].
      intros tail p f Hr. exists f. assumption.
Qed.

(** The blocks [dump_bytes] returns, closed by the zero length the caller
    appends, read back as the bytes of the block. *)
Lemma dump_bytes_read db tail :
  exists f, read_blocks f (fst (DataBlock.dump_bytes db) ++ 0 :: tail)
            = Some (DataBlock._bitstream db).
Proof.
  unfold DataBlock.dump_bytes.
  destruct (dump_loop_spec (length (DataBlock._bitstream db)) (DataBlock._bitstream db) [])
    as (chunks & pre & r & Hd & Hr & Hsplit & Hread); [lia|].
  rewrite Hd. simpl app. unfold len.
  assert (Hend : read_blocks 1 (0 :: tail) = Some []) by reflexivity.
  destruct (Z.ltb_spec 0 (Z.of_nat (length r))) as [Hne | He]; simpl fst.
  - destruct (Hread (Z.of_nat (length r) :: r ++ 0 :: tail) (r ++ []) 2%nat) as [f Hf].
    { apply read_blocks_block; [lia | reflexivity | assumption]. }
    exists f. rewrite <- !app_assoc. simpl app. rewrite Hf, app_nil_r, <- Hsplit. reflexivity.
  - destruct r; [|simpl in He; lia].
    destruct (Hread (0 :: tail) [] 1%nat Hend) as [f Hf].
    exists f. rewrite Hf, Hsplit. reflexivity.
Qed.

Lemma dump_bytes_decoded db tail :
  let data := fst (DataBlock.dump_bytes db) ++ 0 :: tail in
  read_blocks (length data) data = Some (DataBlock._bitstream db).
Proof.
  intros data. destruct (dump_bytes_read db tail) as [f Hf].
  apply (read_blocks_enough f). assumption.
Qed.

(** ** Sequences of codes *)

Lemma nbits_nonneg db : block_wf db -> 0 <= DataBlock._nbits db.
Proof.
  intros (_ & _ & Hv). destruct (Z.lt_ge_cases (DataBlock._nbits db) 0);
    [rewrite Z.pow_neg_r in Hv by lia|]; lia.
Qed.

Lemma codes_bits_cons c w rest :
  codes_bits ((c, w) :: rest) = low_bits (Z.to_nat w) c ++ codes_bits rest.
Proof. reflexivity. Qed.

Lemma codes_bits_app l1 l2 : codes_bits (l1 ++ l2) = codes_bits l1 ++ codes_bits l2.
Proof. unfold codes_bits. rewrite map_app, concat_app. reflexivity. Qed.

Lemma low_bits_fits c w :
  fits (c, w) -> bits_value (low_bits (Z.to_nat w) c) = c /\ len (low_bits (Z.to_nat w) c) = w.
Proof.
  intros [Hc Hw]. simpl in *. unfold len. rewrite low_bits_value, length_low_bits.
  rewrite Z2Nat.id by lia. split; [apply Z.mod_small; assumption | reflexivity].
Qed.

Lemma stream_bits_spec db :
  block_wf db ->
  bits_value (stream_bits db) = bytes_value (DataBlock._bitstream db) /\
  len (stream_bits db) = DataBlock._nbits db.
Proof.
  intros Hwf. pose proof (nbits_nonneg db Hwf) as Hn.
  destruct Hwf as (Hbytes & Hlen & Hval). unfold stream_bits.
  set (n := DataBlock._nbits db) in *. set (bs := DataBlock._bitstream db) in *.
  pose proof (length_bits_of_bytes bs) as Hl.
  assert (Hlt : len (take (Z.to_nat n) (bits_of_bytes bs)) = n).
  { unfold len in *. rewrite length_take. lia. }
  split; [|assumption].
  pose proof (bits_value_take_drop (Z.to_nat n) (bits_of_bytes bs)) as Hsplit.
  rewrite Hlt, bits_of_bytes_value in Hsplit by assumption.
  pose proof (bits_value_bound (take (Z.to_nat n) (bits_of_bytes bs))) as Hb1.
  pose proof (bits_value_bound (drop (Z.to_nat n) (bits_of_bytes bs))) as Hb2.
  rewrite Hlt in Hb1.
  remember (2 ^ n) as P eqn:HP. clear HP.
  remember (bits_value (drop (Z.to_nat n) (bits_of_bytes bs))) as D eqn:HD. clear HD.
  assert (D = 0) by nia. subst D. lia.
Qed.

Lemma encode_all_spec codes : forall db,
  block_wf db -> Forall fits codes ->
  exists db', encode_all db codes = Ok db' /\ block_wf db' /\
    DataBlock._nbits db' = DataBlock._nbits db + len (codes_bits codes) /\
    bytes_value (DataBlock._bitstream db') =
      bytes_value (DataBlock._bitstream db)
      + 2 ^ DataBlock._nbits db * bits_value (codes_bits codes).
Proof.
  induction codes as [|[c w] codes IH]; intros db Hwf Hfits.
  - exists db. unfold len. simpl. repeat split; try apply Hwf; lia.
  - apply Forall_cons in Hfits as [Hcw Hfits].
    destruct (low_bits_fits c w Hcw) as [Hv Hl]. destruct Hcw as [Hc Hw]. simpl in Hc, Hw.
    destruct (encode_bits_fits db c w Hwf Hc Hw) as (db1 & He & Hwf1 & Hn1 & Hv1).
    destruct (IH db1 Hwf1 Hfits) as (db2 & He2 & Hwf2 & Hn2 & Hv2).
    exists db2. simpl encode_all. rewrite He. simpl bind.
    split; [assumption|]. split; [assumption|].
    pose proof (nbits_nonneg db Hwf) as Hn.
    rewrite codes_bits_cons, bits_value_app, Hv, Hl. unfold len in *.
    rewrite length_app. split; [lia|].
    rewrite Hv2, Hv1, Hn1, Z.pow_add_r by lia. ring.
Qed.

Lemma stream_bits_encode_all db codes db' :
  block_wf db -> Forall fits codes -> encode_all db codes = Ok db' ->
  stream_bits db' = stream_bits db ++ codes_bits codes.
Proof.
  intros Hwf Hfits He.
  destruct (encode_all_spec codes db Hwf Hfits) as (db2 & He2 & Hwf2 & Hn2 & Hv2).
  rewrite He in He2. injection He2 as <-.
  destruct (stream_bits_spec db Hwf) as [Hv Hl].
  destruct (stream_bits_spec db' Hwf2) as [Hv' Hl'].
  apply bits_value_inj.
  - unfold len in *. rewrite length_app. lia.
  - rewrite bits_value_app, Hv', Hv, Hl, Hv2. reflexivity.
Qed.

Lemma read_codes_spec codes : forall bits,
  Forall fits codes ->
  bits_value bits = bits_value (codes_bits codes) ->
  len (codes_bits codes) <= len bits ->
  read_codes (map snd codes) bits = Some (map fst codes).
Proof.
  induction codes as [|[c w] codes IH]; intros bits Hfits Hval Hlen; [reflexivity|].
  apply Forall_cons in Hfits as [Hcw Hfits].
  destruct (low_bits_fits c w Hcw) as [Hv Hl]. destruct Hcw as [Hc Hw]. simpl in Hc, Hw.
  rewrite codes_bits_cons in Hval, Hlen. rewrite bits_value_app, Hv, Hl in Hval.
  assert (Hlen' : w + len (codes_bits codes) <= len bits).
  { unfold len in *. rewrite length_app in Hlen. lia. }
  destruct (read_code_spec w bits c _ ltac:(unfold len in *; lia) Hc Hval)
    as (rest & Hr & Hvr & Hlr).
  simpl. rewrite Hr, (IH rest Hfits Hvr) by lia. reflexivity.
Qed.

Lemma encode_all_app l1 : forall l2 db,
  encode_all db (l1 ++ l2) = bind (encode_all db l1) (fun db' => encode_all db' l2).
Proof.
  induction l1 as [|[c w] l1 IH]; intros l2 db; simpl; [reflexivity|].
  destruct (DataBlock.encode_bits db c w); simpl; [apply IH | reflexivity].
Qed.

(** ** The initial tables *)

Lemma single_codes_lookup n x k :
  Compression.single_codes n !! x = Some k <-> 0 <= k < n /\ x = [Some k].
Proof.
  unfold Compression.single_codes, range.
  assert (H : forall l, (foldl (fun d i => <[ [Some i] := i ]> d) (∅ : gmap (list sym) Z) l) !! x
                        = Some k <-> In k l /\ x = [Some k]).
  { induction l as [|a l IH] using rev_ind.
    - simpl. rewrite lookup_empty. split; [discriminate | intros [[] _]].
    - rewrite foldl_app. simpl. rewrite in_app_iff. simpl.
      destruct (decide ([Some a] = x)) as [<- | Hne].
      + rewrite lookup_insert_eq. split.
        * intros [= ->]. auto.
        * intros [_ [= ->]]. reflexivity.
      + rewrite lookup_insert_ne by assumption. rewrite IH. split.
        * intros [? ?]; auto.
        * intros [[? | [-> | []]] ->]; [auto | congruence]. }
  rewrite H. rewrite <- list_elem_of_In, elem_of_seqZ. split; intros [? ?]; split; auto; lia.
Qed.

Lemma literals_lookup n k y :
  Decoder.literals n !! k = Some y <-> 0 <= k < n /\ y = [k].
Proof.
  unfold Decoder.literals, range.
  assert (H : forall l, (foldl (fun d i => <[ i := [i] ]> d) (∅ : gmap Z (list Z)) l) !! k
                        = Some y <-> In k l /\ y = [k]).
  { induction l as [|a l IH] using rev_ind.
    - simpl. rewrite lookup_empty. split; [discriminate | intros [[] _]].
    - rewrite foldl_app. simpl. rewrite in_app_iff. simpl.
      destruct (decide (a = k)) as [<- | Hne].
      + rewrite lookup_insert_eq. split.
        * intros [= <-]. auto.
        * intros [_ ->]. reflexivity.
      + rewrite lookup_insert_ne by assumption. rewrite IH. split.
        * intros [? ?]; auto.
        * intros [[? | [-> | []]] ->]; [auto | congruence]. }
  rewrite H. rewrite <- list_elem_of_In, elem_of_seqZ. split; intros [? ?]; split; auto; lia.
Qed.

(** ** The decoder on bits and on codes *)

Lemma spells_cons bits c w rest pad :
  spells bits ((c, w) :: rest) pad -> fits (c, w) ->
  exists bits', read_code w bits = Some (c, bits') /\ spells bits' rest pad.
Proof.
  intros (Hv & Hl & Hp) Hcw. destruct (low_bits_fits c w Hcw) as [Hcv Hcl].
  destruct Hcw as [Hc Hw]. simpl in Hc, Hw.
  rewrite codes_bits_cons in Hv, Hl. rewrite bits_value_app, Hcv, Hcl in Hv.
  assert (Hlen : len bits = w + len (codes_bits rest) + pad).
  { unfold len in *. rewrite length_app in Hl. lia. }
  destruct (read_code_spec w bits c _ ltac:(unfold len in *; lia) Hc Hv) as (bits' & Hr & Hv' & Hl').
  exists bits'. split; [assumption|]. split; [assumption|]. split; [lia | assumption].
Qed.

Lemma loop_feed mcs codes : forall D D' bits K pad fuel,
  Forall fits codes -> feed mcs D codes = Some D' -> spells bits (codes ++ K) pad ->
  exists bits', spells bits' K pad /\
    Decoder.loop (length codes + fuel) mcs D bits = Decoder.loop fuel mcs D' bits'.
Proof.
  induction codes as [|[c w] codes IH]; intros D D' bits K pad fuel Hfits Hfeed Hsp.
  - injection Hfeed as <-. exists bits. split; [assumption | reflexivity].
  - apply Forall_cons in Hfits as [Hcw Hfits]. simpl in Hfeed.
    destruct (Z.eqb_spec w (Decoder.width D)) as [-> | ]; [|discriminate]. simpl in Hfeed.
    destruct (spells_cons bits c _ (codes ++ K) pad Hsp Hcw) as (bits1 & Hr & Hsp1).
    simpl Nat.add. simpl Decoder.loop. rewrite Hr.
    destruct (c =? 2 ^ mcs); [apply (IH _ _ _ _ _ _ Hfits Hfeed Hsp1)|].
    destruct (c =? 2 ^ mcs + 1); [discriminate|].
    destruct (Decoder.accept D c) as [D1|]; [|discriminate].
    apply (IH _ _ _ _ _ _ Hfits Hfeed Hsp1).
Qed.

Lemma feed_app mcs l1 : forall l2 D,
  feed mcs D (l1 ++ l2) = match feed mcs D l1 with Some D' => feed mcs D' l2 | None => None end.
Proof.
  induction l1 as [|[c w] l1 IH]; intros l2 D; simpl; [reflexivity|].
  destruct (negb (w =? Decoder.width D)); [reflexivity|].
  destruct (c =? 2 ^ mcs); [apply IH|].
  destruct (c =? 2 ^ mcs + 1); [reflexivity|].
  destruct (Decoder.accept D c); [apply IH | reflexivity].
Qed.

(** ** One turn of the compressor against the decoder *)

Lemma map_Some_inj (y1 y2 : list Z) : map Some y1 = map Some y2 -> y1 = y2.
Proof.
  revert y2. induction y1 as [|a y1 IH]; intros [|b y2] H; simpl in H; try discriminate.
  - reflexivity.
  - injection H as -> H. f_equal. apply IH, H.
Qed.

Lemma take1_app {A} (z : list A) c : z <> [] -> take 1 (z ++ [c]) = take 1 z.
Proof. destruct z; [congruence | reflexivity]. Qed.

Lemma app_take1_self {A} (u z : list A) : u <> [] -> z = u ++ take 1 z -> take 1 u = take 1 z.
Proof. intros Hu Hz. destruct u as [|a u]; [congruence|]. rewrite Hz. reflexivity. Qed.

Lemma shl_1 n : 0 <= n -> shl 1 n = Ok (2 ^ n).
Proof.
  intros Hn. unfold shl. destruct (Z.ltb_spec n 0); [lia|]. rewrite Z.shiftl_1_l. reflexivity.
Qed.

Lemma pow2_mono a b : 0 <= a <= b -> 2 ^ a <= 2 ^ b.
Proof. intros. apply Z.pow_le_mono_r; lia. Qed.

Lemma pow2_pos a : 0 <= a -> 0 < 2 ^ a.
Proof. intros. apply Z.pow_pos_nonneg; lia. Qed.

Ltac open_related R :=
  destruct R as [Rpat Rw Rwr Rnext Rlo Rhi Rmax Rempty Rmem Rprev Rcorr Rdom Rsing].

Section Step.

Variable mcl : Z.
Hypothesis Hmcl : 2 <= mcl <= 11.
Variable self : Compression.t.
Hypothesis Hself : compressor_of self mcl.

Lemma pow_mcl_bounds : 4 <= 2 ^ mcl <= 2048.
Proof.
  split.
  - change 4 with (2 ^ 2). apply pow2_mono. lia.
  - change 2048 with (2 ^ 11). apply pow2_mono. lia.
Qed.

Lemma width_pow st D z (R : related mcl st D z) :
  2 * 2 ^ mcl <= 2 ^ Decoder.width D.
Proof.
  open_related R. replace (2 * 2 ^ mcl) with (2 ^ (mcl + 1)) by (rewrite Z.pow_add_r; lia).
  apply pow2_mono. lia.
Qed.

(** The pattern grows: nothing is written. *)
Lemma related_grow st D z c k0 :
  related mcl st D z -> in_alphabet mcl c ->
  Compression.code_table st !! (Compression.pattern st ++ [Some c]) = Some k0 ->
  related mcl
    (Compression.mk_locals (Compression.code_length st) (Compression.next_code st)
       (Compression.code_table st) (Compression.pattern st ++ [Some c])
       (Compression.stream st)) D (z ++ [c]).
Proof.
  intros R Hc Hk. open_related R. constructor; simpl; try assumption.
  - rewrite Rpat, map_app. reflexivity.
  - intros Hz. destruct z; discriminate.
  - intros _. rewrite Hk. eauto.
  - intros x k. rewrite Rcorr. destruct z as [|a z].
    + rewrite (Rempty eq_refl). split; (intros [H | (u & Hu & _)]; [left; exact H | discriminate]).
    + reflexivity.
Qed.

(** The code of the pattern, as the decoder reads it. *)
Lemma related_lookup st D z k :
  related mcl st D z -> z <> [] ->
  Compression.code_table st !! map Some z = Some k ->
  Decoder.lookup_code D k = Some z /\ 0 <= k < Compression.next_code st /\
  k <> 2 ^ mcl /\ k <> 2 ^ mcl + 1.
Proof.
  intros R Hz Hk. open_related R. pose proof pow_mcl_bounds as Hp.
  apply Rcorr in Hk as [(y & Hy & Hty) | (u & Hu & -> & Hx)].
  - apply map_Some_inj in Hy as <-. unfold Decoder.lookup_code. rewrite Hty.
    destruct (Rdom _ _ Hty) as (Hk1 & Hk2 & Hk3 & _).
    split; [reflexivity|]. rewrite Rnext. destruct (Decoder.prev D); lia.
  - apply map_Some_inj in Hx. unfold Decoder.lookup_code.
    destruct (Decoder.table D !! Decoder.next D) as [y|] eqn:Hty.
    { apply Rdom in Hty. lia. }
    rewrite Hu, Z.eqb_refl.
    rewrite (app_take1_self u z (Rprev u Hu) Hx), <- Hx.
    split; [reflexivity|]. rewrite Rnext, Hu. lia.
Qed.

(** The decoder accepts the code of the pattern: it writes the pattern
    out and, one code late, enters the string the compressor entered at
    its previous code. *)
Lemma accept_spec st D z k :
  related mcl st D z -> z <> [] ->
  Compression.code_table st !! map Some z = Some k ->
  Decoder.accept D k =
    Some (Decoder.mk
            (if Compression.next_code st =? 2 ^ Decoder.width D
             then Decoder.width D + 1 else Decoder.width D)
            (Compression.next_code st)
            (match Decoder.prev D with
             | Some u => <[ Decoder.next D := u ++ take 1 z ]> (Decoder.table D)
             | None => Decoder.table D
             end)
            (Some z) (Decoder.out D ++ z)).
Proof.
  intros R Hz Hk. destruct (related_lookup st D z k R Hz Hk) as (Hl & _).
  open_related R. unfold Decoder.accept. rewrite Hl.
  destruct (Decoder.prev D) as [u|] eqn:Hu.
  - destruct (Z.ltb_spec (Decoder.next D) 4096); [|lia].
    rewrite Rnext.
    destruct (Z.eqb_spec (Decoder.next D + 1) (2 ^ Decoder.width D)) as [Heq | Hne].
    + destruct (Z.ltb_spec (Decoder.width D) 12) as [|Hge]; [reflexivity|].
      assert (2 ^ 12 <= 2 ^ Decoder.width D) by (apply pow2_mono; lia).
      change (2 ^ 12) with 4096 in *. lia.
    + reflexivity.
  - rewrite Rnext, Z.add_0_r.
    destruct (Z.eqb_spec (Decoder.next D) (2 ^ Decoder.width D)); [lia | reflexivity].
Qed.

Lemma related_emit st D z c s o :
  related mcl st D z -> z <> [] -> in_alphabet mcl c ->
  Compression.code_table st !! map Some (z ++ [c]) = None ->
  Compression.next_code st + 1 <= 4095 ->
  let w := Decoder.width D in
  let w' := if Compression.next_code st =? 2 ^ w then w + 1 else w in
  related mcl
    (Compression.mk_locals w' (Compression.next_code st + 1)
       (<[ map Some (z ++ [c]) := Compression.next_code st ]> (Compression.code_table st))
       [Some c] s)
    (Decoder.mk w' (Compression.next_code st)
       (match Decoder.prev D with
        | Some u => <[ Decoder.next D := u ++ take 1 z ]> (Decoder.table D)
        | None => Decoder.table D
        end)
       (Some z) o)
    [c].
Proof.
  intros R Hz Hc Hnew Hmax w w'. pose proof pow_mcl_bounds as Hp.
  pose proof (width_pow _ _ _ R) as Hwp. fold w in Hwp.
  open_related R. fold w in Rwr, Rhi.
  set (ne := Compression.next_code st) in *.
  set (nd := Decoder.next D) in *.
  set (E := Compression.code_table st) in *.
  set (T := Decoder.table D) in *.
  assert (Hne : nd <= ne <= 2 ^ w) by (destruct (Decoder.prev D); lia).
  assert (Hw' : w <= w' <= 12 /\ ne < 2 ^ w').
  { unfold w'. destruct (Z.eqb_spec ne (2 ^ w)) as [Heq | Hneq].
    - assert (w < 12).
      { destruct (Z.lt_ge_cases w 12); [assumption|].
        assert (2 ^ 12 <= 2 ^ w) by (apply pow2_mono; lia).
        change (2 ^ 12) with 4096 in *. lia. }
      rewrite Z.pow_add_r by lia. lia.
    - lia. }
  assert (Hkey : forall y, map Some (z ++ [c]) = map Some y -> E !! map Some y = None).
  { intros y <-. assumption. }
  assert (Hsingle : E !! [Some c] = Some c).
  { apply Rcorr. left. exists [c]. split; [reflexivity | apply Rsing, Hc]. }
  constructor; simpl.
  - reflexivity.
  - reflexivity.
  - lia.
  - lia.
  - lia.
  - lia.
  - lia.
  - discriminate.
  - intros _. rewrite lookup_insert_ne; [eauto|].
    intros Heq. apply (f_equal (@length _)) in Heq. rewrite length_map, length_app in Heq.
    destruct z; [congruence | simpl in Heq; lia].
  - intros u [= <-]. assumption.
  - (* the tables correspond *)
    intros x k. split.
    + intros Hx. destruct (decide (map Some (z ++ [c]) = x)) as [<- | Hnx].
      * rewrite lookup_insert_eq in Hx. injection Hx as <-.
        right. exists z. repeat split.
      * rewrite lookup_insert_ne in Hx by assumption.
        apply Rcorr in Hx as [(y & -> & Hy) | (u & Hu & -> & ->)].
        -- left. exists y. split; [reflexivity|].
           destruct (Decoder.prev D); [|assumption].
           rewrite lookup_insert_ne; [assumption|]. apply Rdom in Hy. lia.
        -- left. exists (u ++ take 1 z). split; [reflexivity|].
           rewrite Hu. apply lookup_insert_eq.
    + intros [(y & -> & Hy) | (u & [= <-] & -> & ->)].
      * assert (Hold : E !! map Some y = Some k).
        { destruct (Decoder.prev D) as [u|] eqn:Hu.
          - destruct (decide (nd = k)) as [<- | Hnk].
            + rewrite lookup_insert_eq in Hy. injection Hy as <-.
              apply Rcorr. right. exists u. repeat split.
            + rewrite lookup_insert_ne in Hy by assumption.
              apply Rcorr. left. exists y. split; [reflexivity | assumption].
          - apply Rcorr. left. exists y. split; [reflexivity | assumption]. }
        rewrite lookup_insert_ne; [assumption|].
        intros Heq. apply Hkey in Heq. congruence.
      * simpl. apply lookup_insert_eq.
  - (* the decoder's table: codes below the next one *)
    intros k y Hy. destruct (Decoder.prev D) as [u|] eqn:Hu.
    + destruct (decide (nd = k)) as [<- | Hnk].
      * rewrite lookup_insert_eq in Hy. injection Hy as <-.
        repeat split; try lia. intros Happ. apply app_eq_nil in Happ as [-> _].
        apply (Rprev [] eq_refl). reflexivity.
      * rewrite lookup_insert_ne in Hy by assumption.
        destruct (Rdom _ _ Hy) as (? & ? & ? & ?). repeat split; try assumption; lia.
    + destruct (Rdom _ _ Hy) as (? & ? & ? & ?). repeat split; try assumption; lia.
  - intros s0 Hs. destruct (Decoder.prev D).
    + rewrite lookup_insert_ne by lia. apply Rsing, Hs.
    + apply Rsing, Hs.
Qed.

(** The state after a clear code, on both sides. *)
Lemma related_reset c s o :
  in_alphabet mcl c ->
  related mcl
    (Compression.mk_locals (mcl + 1) (2 ^ mcl + 1 + 1)
       (Compression.single_codes (2 ^ mcl)) [Some c] s)
    (Decoder.cleared mcl o) [c].
Proof.
  intros Hc. pose proof pow_mcl_bounds as Hp. unfold in_alphabet in Hc.
  assert (Hpow : 2 ^ (mcl + 1) = 2 * 2 ^ mcl) by (rewrite Z.pow_add_r; lia).
  constructor; simpl; try rewrite Hpow; try lia.
  - reflexivity.
  - discriminate.
  - intros _. exists c. apply single_codes_lookup. auto.
  - discriminate.
  - intros x k. rewrite single_codes_lookup. split.
    + intros [Hk ->]. left. exists [k]. split; [reflexivity|].
      apply literals_lookup. auto.
    + intros [(y & -> & Hy) | (u & Hu & _)]; [|discriminate].
      apply literals_lookup in Hy as [Hk ->]. auto.
  - intros k y Hy. apply literals_lookup in Hy as [Hk ->].
    repeat split; try lia. discriminate.
  - intros s0 Hs. apply literals_lookup. auto.
Qed.

Lemma bump_test w n : 0 <= w -> Compression.pow2_plus_1_is w (n + 1) = (n =? 2 ^ w).
Proof.
  intros Hw. unfold Compression.pow2_plus_1_is.
  destruct (Z.leb_spec 0 w); [|lia]. simpl.
  destruct (Z.eqb_spec (n + 1) (2 ^ w + 1)), (Z.eqb_spec n (2 ^ w)); try reflexivity; lia.
Qed.

(** One turn of the loop on a symbol of the alphabet: the codes it
    writes fit their width, and the decoder that reads them stays
    related to the compressor. *)
Lemma step_related st D z c :
  related mcl st D z -> block_wf (Compression.stream st) -> in_alphabet mcl c ->
  exists st' codes D' z',
    Compression.loop_body self st (Some c) = Ok st' /\
    encode_all (Compression.stream st) codes = Ok (Compression.stream st') /\
    Forall fits codes /\ block_wf (Compression.stream st') /\
    feed mcl D codes = Some D' /\
    related mcl st' D' z' /\ z' <> [] /\
    Decoder.out D' ++ z' = Decoder.out D ++ z ++ [c].
Proof.
  intros R Hwf Hc. destruct Hself as (Hm & Hclear & Hend & Hmaxc).
  pose proof pow_mcl_bounds as Hp. pose proof (width_pow _ _ _ R) as Hwp.
  unfold Compression.loop_body. cbv zeta.
  destruct (Compression.code_table st !! (Compression.pattern st ++ [Some c])) as [k0|] eqn:Hk0.
  - (* the longer pattern is in the table *)
    eexists _, [], D, (z ++ [c]). split; [reflexivity|]. simpl.
    split; [reflexivity|]. split; [constructor|]. split; [assumption|].
    split; [reflexivity|]. split; [exact (related_grow st D z c k0 R Hc Hk0)|].
    split; [destruct z; discriminate|]. rewrite app_assoc. reflexivity.
  - (* a new pattern: its prefix is written *)
    pose proof R as R'. open_related R'.
    rewrite Rpat in Hk0. change [Some c] with (map Some [c]) in Hk0.
    rewrite <- map_app in Hk0.
    assert (Hz : z <> []).
    { intros ->. simpl in Hk0. 
      assert (Compression.code_table st !! [Some c] = Some c); [|congruence].
      apply Rcorr. left. exists [c]. split; [reflexivity | apply Rsing, Hc]. }
    destruct (Rmem Hz) as [k Hk]. rewrite Rpat in Hk.
    destruct (related_lookup st D z k R Hz Hk) as (Hlook & Hkr & Hkc & Hke).
    pose proof (accept_spec st D z k R Hz Hk) as Hacc.
    rewrite removelast_last. unfold getitem.
    rewrite Rpat. change [Some c] with (map Some [c]). rewrite <- map_app.
    rewrite lookup_insert_ne.
    2:{ intros Heq. apply map_Some_inj in Heq. apply (f_equal (@length _)) in Heq.
        rewrite length_app in Heq. simpl in Heq. lia. }
    rewrite Hk. simpl bind. rewrite Rw.
    set (w := Decoder.width D) in *. set (ne := Compression.next_code st) in *.
    assert (Hne : ne <= 2 ^ w) by (destruct (Decoder.prev D); lia).
    assert (Hfit1 : fits (k, w)) by (split; simpl; lia).
    destruct (encode_bits_fits _ k w Hwf (proj1 Hfit1) (proj2 Hfit1))
      as (s1 & Hs1 & Hwf1 & _).
    rewrite Hs1. simpl bind. rewrite bump_test by lia.
    set (w' := if ne =? 2 ^ w then w + 1 else w) in *.
    assert (Hw' : w <= w' <= 12).
    { unfold w'. destruct (Z.eqb_spec ne (2 ^ w)) as [Heq | Hneq]; [|lia].
      destruct (Z.lt_ge_cases w 12); [lia|].
      assert (2 ^ 12 <= 2 ^ w) by (apply pow2_mono; lia).
      change (2 ^ 12) with 4096 in *. lia. }
    rewrite Hmaxc. destruct (Z.eqb_spec (ne + 1) 4096) as [Hfull | Hroom].
    + (* the table is full: clear code, fresh table *)
      assert (Hfit2 : fits (2 ^ mcl, w')).
      { split; simpl; [|lia]. split; [lia|].
        assert (2 ^ w <= 2 ^ w') by (apply pow2_mono; lia). lia. }
      rewrite Hclear.
      destruct (encode_bits_fits _ (2 ^ mcl) w' Hwf1 (proj1 Hfit2) (proj2 Hfit2))
        as (s2 & Hs2 & Hwf2 & _).
      rewrite Hs2. simpl bind. rewrite Hm, shl_1 by lia. simpl bind. rewrite Hend.
      eexists _, [(k, w); (2 ^ mcl, w')], (Decoder.cleared mcl (Decoder.out D ++ z)), [c].
      split; [reflexivity|]. simpl Compression.stream.
      split; [simpl; rewrite Hs1; simpl; rewrite Hs2; reflexivity|].
      split; [apply Forall_cons; split; [assumption | apply Forall_singleton; assumption]|].
      split; [assumption|].
      split.
      { simpl. rewrite Z.eqb_refl. simpl.
        destruct (Z.eqb_spec k (2 ^ mcl)); [lia|].
        destruct (Z.eqb_spec k (2 ^ mcl + 1)); [lia|].
        rewrite Hacc. simpl. fold w'. rewrite !Z.eqb_refl. reflexivity. }
      split; [apply related_reset, Hc|]. split; [discriminate|].
      simpl. rewrite <- app_assoc. reflexivity.
    + eexists _, [(k, w)], _, [c].
      split; [reflexivity|]. simpl Compression.stream.
      split; [simpl; rewrite Hs1; reflexivity|].
      split; [apply Forall_singleton; assumption|]. split; [assumption|].
      split.
      { simpl. rewrite Z.eqb_refl. simpl.
        destruct (Z.eqb_spec k (2 ^ mcl)); [lia|].
        destruct (Z.eqb_spec k (2 ^ mcl + 1)); [lia|].
        rewrite Hacc. reflexivity. }
      split; [apply (related_emit st D z c s1 _ R Hz Hc Hk0); fold ne; lia|].
      split; [discriminate|].
      simpl. rewrite <- app_assoc. reflexivity.
Qed.

(** The loop on symbols of the alphabet. *)
Lemma run_related rest : forall st D z,
  related mcl st D z -> block_wf (Compression.stream st) ->
  Forall (in_alphabet mcl) rest ->
  exists st' codes D' z',
    for_each (Compression.loop_body self) st (items (map Some rest)) = Ok st' /\
    encode_all (Compression.stream st) codes = Ok (Compression.stream st') /\
    Forall fits codes /\ block_wf (Compression.stream st') /\
    feed mcl D codes = Some D' /\
    related mcl st' D' z' /\ (z <> [] \/ rest <> [] -> z' <> []) /\
    Decoder.out D' ++ z' = Decoder.out D ++ z ++ rest.
Proof.
  induction rest as [|c rest IH]; intros st D z R Hwf Hrest.
  - exists st, [], D, z. simpl. rewrite app_nil_r.
    split; [reflexivity|]. split; [reflexivity|]. split; [constructor|].
    split; [assumption|]. split; [reflexivity|]. split; [assumption|].
    split; [intros [H | H]; [assumption | congruence] | reflexivity].
  - apply Forall_cons in Hrest as [Hc Hrest].
    destruct (step_related st D z c R Hwf Hc)
      as (st1 & codes1 & D1 & z1 & Hstep & Henc1 & Hfit1 & Hwf1 & Hfeed1 & R1 & Hz1 & Hout1).
    destruct (IH st1 D1 z1 R1 Hwf1 Hrest)
      as (st2 & codes2 & D2 & z2 & Hrun & Henc2 & Hfit2 & Hwf2 & Hfeed2 & R2 & Hz2 & Hout2).
    exists st2, (codes1 ++ codes2), D2, z2.
    split; [simpl; rewrite Hstep; exact Hrun|].
    split; [rewrite encode_all_app, Henc1; exact Henc2|].
    split; [apply Forall_app; split; assumption|]. split; [assumption|].
    split; [rewrite feed_app, Hfeed1; exact Hfeed2|]. split; [assumption|].
    split; [intros _; apply Hz2; left; assumption|].
    rewrite Hout2, app_assoc, Hout1, <- !app_assoc. reflexivity.
Qed.

(** The state [__call__] enters its loop with. *)
Lemma related_enter s :
  related mcl
    (Compression.mk_locals (mcl + 1) (2 ^ mcl + 1 + 1)
       (Compression.single_codes (2 ^ mcl)) [] s)
    (Decoder.cleared mcl []) [].
Proof.
  pose proof pow_mcl_bounds as Hp.
  assert (Hpow : 2 ^ (mcl + 1) = 2 * 2 ^ mcl) by (rewrite Z.pow_add_r; lia).
  constructor; simpl; try rewrite Hpow; try lia.
  - reflexivity.
  - reflexivity.
  - congruence.
  - discriminate.
  - intros x k. rewrite single_codes_lookup. split.
    + intros [Hk ->]. left. exists [k]. split; [reflexivity|].
      apply literals_lookup. auto.
    + intros [(y & -> & Hy) | (u & Hu & _)]; [|discriminate].
      apply literals_lookup in Hy as [Hk ->]. auto.
  - intros k y Hy. apply literals_lookup in Hy as [Hk ->].
    repeat split; try lia. discriminate.
  - intros s0 Hs. apply literals_lookup. auto.
Qed.

Lemma enter_spec :
  block_wf (Compression._stream self) ->
  exists s0,
    DataBlock.encode_bits (Compression._stream self) (2 ^ mcl) (mcl + 1) = Ok s0 /\
    block_wf s0 /\
    Compression.enter self =
      Ok (Compression.mk_locals (mcl + 1) (2 ^ mcl + 1 + 1)
            (Compression.single_codes (2 ^ mcl)) [] s0).
Proof.
  intros Hwf. destruct Hself as (Hm & Hclear & Hend & Hmaxc).
  pose proof pow_mcl_bounds as Hp.
  assert (Hfit : fits (2 ^ mcl, mcl + 1)).
  { split; simpl; [|lia]. rewrite Z.pow_add_r by lia. lia. }
  destruct (encode_bits_fits _ (2 ^ mcl) (mcl + 1) Hwf (proj1 Hfit) (proj2 Hfit))
    as (s0 & Hs0 & Hwf0 & _).
  exists s0. split; [assumption|]. split; [assumption|].
  unfold Compression.enter. rewrite Hm, Hclear, Hend, shl_1 by lia. simpl bind.
  rewrite Hs0. reflexivity.
Qed.

End Step.

(** ** The end of the stream *)

Lemma length_codes_bits codes :
  Forall fits codes -> Z.of_nat (length codes) <= len (codes_bits codes).
Proof.
  induction 1 as [|[c w] codes Hcw _ IH]; [unfold len; simpl; lia|].
  destruct (low_bits_fits c w Hcw) as [_ Hl]. destruct Hcw as [_ Hw]. simpl in Hw.
  rewrite codes_bits_cons. unfold len in *. rewrite length_app. simpl length. lia.
Qed.

Lemma spells_single bits c w pad :
  spells bits [(c, w)] pad -> fits (c, w) -> bits_value bits = c /\ len bits = w + pad.
Proof.
  intros (Hv & Hl & _) Hcw. destruct (low_bits_fits c w Hcw) as [Hcv Hcl].
  unfold codes_bits in *. simpl in Hv, Hl. rewrite app_nil_r in Hv, Hl.
  rewrite Hv, Hl, Hcv, Hcl. auto.
Qed.

(** The decoder on the last two codes: the code of the last pattern and
    the end code, both written at the compressor's width.  The decoder
    reads the end code one bit wider when the compressor's next code has
    reached [2 ^ width]; it then needs a padding bit after the end code. *)
Lemma decode_tail mcl st D z k bits pad fuel :
  2 <= mcl <= 11 -> related mcl st D z -> z <> [] ->
  Compression.code_table st !! map Some z = Some k ->
  spells bits [(k, Decoder.width D); (2 ^ mcl + 1, Decoder.width D)] pad ->
  (2 <= fuel)%nat ->
  Decoder.loop fuel mcl D bits =
    (Decoder.out D ++ z,
     if (Compression.next_code st =? 2 ^ Decoder.width D) && (pad =? 0)
     then OutOfData else EndOfInformation).
Proof.
  intros Hmcl R Hz Hk Hsp Hfuel.
  destruct (related_lookup mcl Hmcl st D z k R Hz Hk) as (_ & Hkr & Hkc & Hke).
  pose proof (accept_spec mcl Hmcl st D z k R Hz Hk) as Hacc.
  pose proof (pow_mcl_bounds mcl Hmcl) as Hp.
  pose proof (width_pow mcl Hmcl st D z R) as Hwp.
  pose proof R as R'. open_related R'.
  set (w := Decoder.width D) in *. set (ne := Compression.next_code st) in *.
  assert (Hne : ne <= 2 ^ w) by (destruct (Decoder.prev D); lia).
  assert (Hfit1 : fits (k, w)) by (split; simpl; lia).
  assert (Hfit2 : fits (2 ^ mcl + 1, w)) by (split; simpl; lia).
  destruct fuel as [|[|fuel]]; [lia | lia |].
  destruct (spells_cons bits k w _ pad Hsp Hfit1) as (bits1 & Hr1 & Hsp1).
  simpl Decoder.loop. fold w. rewrite Hr1.
  destruct (Z.eqb_spec k (2 ^ mcl)); [lia|].
  destruct (Z.eqb_spec k (2 ^ mcl + 1)); [lia|].
  rewrite Hacc. simpl Decoder.width. simpl Decoder.out.
  destruct (Z.eqb_spec ne (2 ^ w)) as [Heq | Hneq]; simpl andb.
  - destruct (spells_single bits1 _ _ pad Hsp1 Hfit2) as [Hv Hl].
    destruct Hsp1 as (_ & _ & Hpad).
    destruct (Z.eqb_spec pad 0) as [-> | Hpos].
    + rewrite read_code_short by lia. reflexivity.
    + assert (Hpw : 2 ^ (w + 1) = 2 * 2 ^ w) by (rewrite Z.pow_add_r; lia).
      destruct (read_code_spec (w + 1) bits1 (2 ^ mcl + 1) 0) as (rest & Hr2 & _); try lia.
      rewrite Hr2.
      destruct (Z.eqb_spec (2 ^ mcl + 1) (2 ^ mcl)); [lia|].
      rewrite Z.eqb_refl. reflexivity.
  - destruct (spells_cons bits1 _ w [] pad Hsp1 Hfit2) as (bits2 & Hr2 & _).
    rewrite Hr2.
    destruct (Z.eqb_spec (2 ^ mcl + 1) (2 ^ mcl)); [lia|].
    rewrite Z.eqb_refl. reflexivity.
Qed.

(** ** The round trip *)

Lemma compressor_eq self mcl :
  compressor_of self mcl -> Compression._stream self = DataBlock.__init__ ->
  self = Compression.mk DataBlock.__init__ mcl (2 ^ mcl) (2 ^ mcl + 1) 4096.
Proof.
  destruct self as [s m c e x]. unfold compressor_of. simpl.
  intros (-> & -> & -> & ->) ->. reflexivity.
Qed.

Lemma leave_spec self mcl st k s1 s2 :
  compressor_of self mcl -> 0 <= mcl < 256 ->
  Compression.code_table st !! Compression.pattern st = Some k ->
  DataBlock.encode_bits (Compression.stream st) k (Compression.code_length st) = Ok s1 ->
  DataBlock.encode_bits s1 (2 ^ mcl + 1) (Compression.code_length st) = Ok s2 ->
  Compression.leave self st =
    Ok ([mcl] ++ fst (DataBlock.dump_bytes s2) ++ [0],
        Compression.mk DataBlock.__init__ mcl (2 ^ mcl) (2 ^ mcl + 1) 4096).
Proof.
  destruct self as [s m c e x]. unfold compressor_of. simpl.
  intros (-> & -> & -> & ->) Hmcl Hk Hs1 Hs2.
  unfold Compression.leave, getitem. simpl. rewrite Hk. simpl bind.
  rewrite Hs1. simpl bind. rewrite Hs2. simpl bind.
  unfold bytearray. simpl forallb. unfold is_byte.
  destruct (Z.leb_spec 0 mcl); [|lia]. destruct (Z.ltb_spec mcl 256); [|lia].
  simpl bind. unfold DataBlock.dump_bytes.
  destruct (DataBlock.dump_loop _ _ _) as [r o]. reflexivity.
Qed.

Lemma call_decodes mcl self input :
  2 <= mcl <= 11 -> compressor_of self mcl ->
  Compression._stream self = DataBlock.__init__ ->
  input <> [] -> Forall (in_alphabet mcl) input ->
  exists st bytes,
    final_locals self (items (map Some input)) = Ok st /\
    Compression.__call__ self (items (map Some input)) = Ok (bytes, self) /\
    Decoder.decode bytes = (input, end_of_run st).
Proof.
  intros Hmcl Hself Hstream Hne Hin.
  pose proof (pow_mcl_bounds mcl Hmcl) as Hp.
  assert (Hwfi : block_wf (Compression._stream self))
    by (rewrite Hstream; apply block_wf_init).
  destruct (enter_spec mcl Hmcl self Hself Hwfi) as (s0 & Hs0 & Hwf0 & Henter).
  destruct (run_related mcl Hmcl self Hself input _ _ [] (related_enter mcl Hmcl s0) Hwf0 Hin)
    as (st & codes & D & z & Hrun & Henc & Hfit & Hwf & Hfeed & R & Hz & Hout).
  simpl Compression.stream in Henc. simpl in Hout.
  specialize (Hz (or_intror Hne)).
  pose proof R as R'. open_related R'.
  destruct (Rmem Hz) as [k Hk].
  pose proof Hk as Hk'. rewrite Rpat in Hk'.
  destruct (related_lookup mcl Hmcl st D z k R Hz Hk') as (_ & Hkr & Hkc & Hke).
  pose proof (width_pow mcl Hmcl st D z R) as Hwp.
  set (w := Decoder.width D) in *.
  assert (Hnew : Compression.next_code st <= 2 ^ w) by (destruct (Decoder.prev D); lia).
  assert (Hfit1 : fits (k, w)) by (split; simpl; lia).
  assert (Hfit2 : fits (2 ^ mcl + 1, w)) by (split; simpl; lia).
  assert (Hfit0 : fits (2 ^ mcl, mcl + 1)).
  { split; simpl; [|lia]. rewrite Z.pow_add_r by lia. lia. }
  destruct (encode_bits_fits _ k w Hwf (proj1 Hfit1) (proj2 Hfit1))
    as (s1 & Hs1 & Hwf1 & Hn1 & _).
  destruct (encode_bits_fits _ (2 ^ mcl + 1) w Hwf1 (proj1 Hfit2) (proj2 Hfit2))
    as (s2 & Hs2 & Hwf2 & Hn2 & _).
  exists st, ([mcl] ++ fst (DataBlock.dump_bytes s2) ++ [0]).
  split; [unfold final_locals; rewrite Henter; exact Hrun|].
  split.
  { unfold Compression.__call__. rewrite Henter. simpl bind. rewrite Hrun. simpl bind.
    rewrite (leave_spec self mcl st k s1 s2 Hself ltac:(lia) Hk); try (rewrite Rw; assumption).
    rewrite <- (compressor_eq self mcl Hself Hstream). reflexivity. }
  (* the decoder on these bytes *)
  set (L := (2 ^ mcl, mcl + 1) :: codes ++ [(k, w); (2 ^ mcl + 1, w)]).
  assert (HL : encode_all DataBlock.__init__ L = Ok s2).
  { unfold L. simpl encode_all. rewrite <- Hstream, Hs0. simpl bind.
    rewrite encode_all_app, Henc. simpl. rewrite Hs1. simpl. rewrite Hs2. reflexivity. }
  assert (HfitL : Forall fits L).
  { unfold L. apply Forall_cons; split; [assumption|].
    apply Forall_app; split; [assumption|].
    apply Forall_cons; split; [assumption | apply Forall_singleton; assumption]. }
  destruct (encode_all_spec L _ block_wf_init HfitL) as (s2' & HL' & _ & HnL & HvL).
  rewrite HL in HL'. injection HL' as <-.
  simpl DataBlock._nbits in HnL, HvL. simpl DataBlock._bitstream in HvL.
  change (bytes_value []) with 0 in HvL. change (2 ^ 0) with 1 in HvL.
  set (bs := DataBlock._bitstream s2) in *.
  set (pad := 8 * len bs - DataBlock._nbits s2).
  assert (Hsp : spells (bits_of_bytes bs) L pad).
  { destruct Hwf2 as (Hbytes & Hlen & _). fold bs in Hbytes, Hlen.
    split; [rewrite (bits_of_bytes_value bs Hbytes); lia|].
    split; [rewrite length_bits_of_bytes; unfold pad; lia | unfold pad; lia]. }
  unfold Decoder.decode. simpl app. cbv beta iota.
  destruct (Z.leb_spec 2 mcl); [|lia]. destruct (Z.leb_spec mcl 11); [|lia]. simpl andb.
  cbv iota.
  pose proof (dump_bytes_decoded s2 []) as Hread. cbv zeta in Hread.
  change (0 :: []) with [0] in Hread. rewrite Hread. fold bs.
  unfold Decoder.lzw.
  pose proof (length_codes_bits L HfitL) as HlenL.
  set (codes0 := (2 ^ mcl, mcl + 1) :: codes).
  assert (Hfuel : exists fuel : nat,
            S (length (bits_of_bytes bs)) = (length codes0 + fuel)%nat /\ (2 <= fuel)%nat).
  { exists (S (length (bits_of_bytes bs)) - length codes0)%nat.
    destruct Hsp as (_ & Hl & Hpad).
    assert (HLl : length L = S (length codes + 2))
      by (unfold L; simpl length; rewrite length_app; reflexivity).
    assert (Hc0 : length codes0 = S (length codes)) by reflexivity.
    unfold len in *. lia. }
  destruct Hfuel as (fuel & -> & Hfuel).
  assert (Hfeed0 : feed mcl (Decoder.cleared mcl []) codes0 = Some D).
  { unfold codes0. simpl. rewrite !Z.eqb_refl. simpl. exact Hfeed. }
  assert (Hfits0 : Forall fits codes0)
    by (apply Forall_cons; split; assumption).
  destruct (loop_feed mcl codes0 _ D (bits_of_bytes bs) [(k, w); (2 ^ mcl + 1, w)] pad fuel
              Hfits0 Hfeed0 Hsp) as (bits' & Hsp' & ->).
  rewrite (decode_tail mcl st D z k bits' pad fuel Hmcl R Hz Hk' Hsp' Hfuel).
  rewrite Hout. f_equal. unfold end_of_run. rewrite Rw. fold w.
  replace (DataBlock._nbits (Compression.stream st) + 2 * w) with (DataBlock._nbits s2) by lia.
  destruct Hwf2 as (_ & Hlen & _). fold bs in Hlen.
  destruct (Z.eqb_spec pad 0), (Z.eqb_spec (DataBlock._nbits s2 mod 8) 0);
    try reflexivity; unfold pad in *; Z.div_mod_to_equations; lia.
Qed.

(** ** The size of the code table *)

Lemma single_codes_size n : Z.of_nat (size (Compression.single_codes n)) = Z.max 0 n.
Proof.
  unfold Compression.single_codes, range.
  assert (H : forall l, NoDup l ->
    (forall x k, (foldl (fun d i => <[ [Some i] := i ]> d) (∅ : gmap (list (option Z)) Z) l) !! x
                 = Some k -> In k l) /\
    size (foldl (fun d i => <[ [Some i] := i ]> d) (∅ : gmap (list (option Z)) Z) l) = length l).
  { induction l as [|a l IH] using rev_ind; intros Hnd.
    - simpl. split; [intros x k; rewrite lookup_empty; discriminate | apply map_size_empty].
    - apply NoDup_app in Hnd as (Hnd & Hnot & _). destruct (IH Hnd) as [Hin Hsize].
      rewrite foldl_app. simpl. split.
      + intros x k. rewrite in_app_iff. simpl.
        destruct (decide ([Some a] = x)) as [<- | Hne].
        * rewrite lookup_insert_eq. intros [= ->]. auto.
        * rewrite lookup_insert_ne by assumption. intros Hx. left. exact (Hin x k Hx).
      + rewrite map_size_insert_None, Hsize, length_app; [simpl; lia|].
        destruct (_ !! [Some a]) as [k|] eqn:Hk; [|reflexivity].
        exfalso.
        assert (k = a).
        { clear -Hk. revert Hk. induction l as [|b l IHl] using rev_ind; simpl.
          - rewrite lookup_empty. discriminate.
          - rewrite foldl_app. simpl. destruct (decide ([Some b] = [Some a])) as [Heq | Hne].
            + rewrite Heq, lookup_insert_eq. injection Heq as ->. congruence.
            + rewrite lookup_insert_ne by assumption. exact IHl. }
        subst k. apply (Hnot a); [apply list_elem_of_In, (Hin _ _ Hk) | apply list_elem_of_here]. }
  destruct (H (seqZ 0 n) (NoDup_seqZ 0 n)) as [_ ->]. rewrite length_seqZ. lia.
Qed.

(** ** Every turn of the loop, case by case *)

Lemma loop_body_turn mcl self st D z c :
  2 <= mcl <= 11 -> compressor_of self mcl ->
  related mcl st D z -> block_wf (Compression.stream st) -> in_alphabet mcl c ->
  exists st', Compression.loop_body self st (Some c) = Ok st' /\ turn mcl self st c st'.
Proof.
  intros Hmcl Hself R Hwf Hc. destruct Hself as (Hm & Hclear & Hend & Hmaxc).
  pose proof (pow_mcl_bounds mcl Hmcl) as Hp.
  pose proof (width_pow mcl Hmcl _ _ _ R) as Hwp.
  unfold Compression.loop_body. cbv zeta.
  destruct (Compression.code_table st !! (Compression.pattern st ++ [Some c])) as [k0|] eqn:Hk0.
  - eexists. split; [reflexivity|]. exact (turn_grow mcl self st c k0 Hk0).
  - pose proof R as R'. open_related R'.
    assert (Hz : z <> []).
    { intros ->. rewrite Rpat in Hk0. simpl in Hk0.
      assert (Compression.code_table st !! [Some c] = Some c); [|congruence].
      apply Rcorr. left. exists [c]. split; [reflexivity | apply Rsing, Hc]. }
    destruct (Rmem Hz) as [k Hk].
    pose proof Hk as Hk'. rewrite Rpat in Hk'.
    destruct (related_lookup mcl Hmcl st D z k R Hz Hk') as (_ & Hkr & Hkc & Hke).
    rewrite removelast_last. unfold getitem.
    rewrite lookup_insert_ne.
    2:{ intros Heq. apply (f_equal (@length _)) in Heq.
        rewrite length_app in Heq. simpl in Heq. lia. }
    rewrite Hk. simpl bind.
    set (w := Compression.code_length st) in *. set (ne := Compression.next_code st) in *.
    assert (Hne : ne <= 2 ^ w) by (rewrite Rw; destruct (Decoder.prev D); lia).
    assert (Hfit1 : fits (k, w)) by (split; simpl; lia).
    destruct (encode_bits_fits _ k w Hwf (proj1 Hfit1) (proj2 Hfit1))
      as (s1 & Hs1 & Hwf1 & _).
    rewrite Hs1. simpl bind. rewrite bump_test by lia.
    rewrite Hmaxc. destruct (Z.eqb_spec (ne + 1) 4096) as [Hfull | Hroom].
    + assert (Hnb : (ne =? 2 ^ w) = false).
      { apply Z.eqb_neq. intros Heq.
        assert (w < 12).
        { destruct (Z.lt_ge_cases w 12); [assumption|].
          assert (2 ^ 12 <= 2 ^ w) by (apply pow2_mono; lia).
          change (2 ^ 12) with 4096 in *. lia. }
        assert (Hodd : Z.odd ne = true) by (replace ne with 4095 by lia; reflexivity).
        rewrite Heq in Hodd. replace w with (Z.succ (w - 1)) in Hodd by lia.
        rewrite Z.pow_succ_r, Z.odd_mul in Hodd by lia. discriminate. }
      rewrite Hnb.
      assert (Hfit2 : fits (2 ^ mcl, w)) by (split; simpl; lia).
      destruct (encode_bits_fits _ (2 ^ mcl) w Hwf1 (proj1 Hfit2) (proj2 Hfit2))
        as (s2 & Hs2 & Hwf2 & _).
      rewrite Hclear, Hs2. simpl bind. rewrite Hm, shl_1 by lia. simpl bind.
      eexists. split; [reflexivity|].
      apply (turn_clear mcl self st c k s1 s2 Hk0 Hk Hs1 Hfull). rewrite Hclear. exact Hs2.
    + eexists. split; [reflexivity|].
      exact (turn_emit mcl self st c k s1 Hk0 Hk Hs1 Hroom).
Qed.

Lemma turn_size mcl self st c st' :
  2 <= mcl <= 11 -> compressor_of self mcl ->
  Z.of_nat (size (Compression.code_table st)) + 2 = Compression.next_code st ->
  turn mcl self st c st' ->
  Z.of_nat (size (Compression.code_table st')) + 2 = Compression.next_code st'.
Proof.
  intros Hmcl (Hm & Hclear & Hend & Hmaxc) Hsize Hturn.
  pose proof (pow_mcl_bounds mcl Hmcl) as Hp.
  destruct Hturn as [k0 Hk0 | k s1 Hk0 Hk Hs1 Hroom | k s1 s2 Hk0 Hk Hs1 Hfull Hs2]; simpl.
  - assumption.
  - rewrite map_size_insert_None by assumption. lia.
  - rewrite single_codes_size, Hend. lia.
Qed.

Lemma step_inv mcl self st c :
  2 <= mcl <= 11 -> compressor_of self mcl -> run_inv mcl st -> in_alphabet mcl c ->
  exists st', Compression.loop_body self st (Some c) = Ok st' /\
    turn mcl self st c st' /\ run_inv mcl st'.
Proof.
  intros Hmcl Hself ((D & z & R) & Hwf & Hsize) Hc.
  destruct (loop_body_turn mcl self st D z c Hmcl Hself R Hwf Hc) as (st' & Hbody & Hturn).
  destruct (step_related mcl Hmcl self Hself st D z c R Hwf Hc)
    as (st1 & codes & D' & z' & Hbody1 & _ & _ & Hwf' & _ & R' & _).
  rewrite Hbody in Hbody1. injection Hbody1 as <-.
  exists st'. split; [assumption|]. split; [assumption|].
  split; [eauto|]. split; [assumption|].
  exact (turn_size mcl self st c st' Hmcl Hself Hsize Hturn).
Qed.

Lemma for_each_inv mcl self rest : forall st,
  2 <= mcl <= 11 -> compressor_of self mcl -> run_inv mcl st ->
  Forall (in_alphabet mcl) rest ->
  exists st', for_each (Compression.loop_body self) st (items (map Some rest)) = Ok st' /\
    run_inv mcl st'.
Proof.
  induction rest as [|c rest IH]; intros st Hmcl Hself Hinv Hrest.
  - exists st. split; [reflexivity | assumption].
  - apply Forall_cons in Hrest as [Hc Hrest].
    destruct (step_inv mcl self st c Hmcl Hself Hinv Hc) as (st1 & Hbody & _ & Hinv1).
    destruct (IH st1 Hmcl Hself Hinv1 Hrest) as (st2 & Hrun & Hinv2).
    exists st2. simpl. rewrite Hbody. simpl bind. split; assumption.
Qed.

(** Every state a run reaches, after any number of symbols. *)
Lemma final_locals_inv mcl self input :
  2 <= mcl <= 11 -> compressor_of self mcl -> block_wf (Compression._stream self) ->
  Forall (in_alphabet mcl) input ->
  exists st, final_locals self (items (map Some input)) = Ok st /\ run_inv mcl st.
Proof.
  intros Hmcl Hself Hwf Hin.
  destruct (enter_spec mcl Hmcl self Hself Hwf) as (s0 & _ & Hwf0 & Henter).
  pose proof (pow_mcl_bounds mcl Hmcl) as Hp.
  assert (Hinv0 : run_inv mcl
            (Compression.mk_locals (mcl + 1) (2 ^ mcl + 1 + 1)
               (Compression.single_codes (2 ^ mcl)) [] s0)).
  { split; [exists (Decoder.cleared mcl []), []; apply related_enter, Hmcl|].
    split; [assumption|]. simpl. rewrite single_codes_size. lia. }
  destruct (for_each_inv mcl self input _ Hmcl Hself Hinv0 Hin) as (st & Hrun & Hinv).
  exists st. unfold final_locals. rewrite Henter. split; assumption.
Qed.

(** C4, amended to minimum code lengths 2..11.  At every turn of the loop
    of a run on symbols of the alphabet, the code length lies in
    [min_code_length + 1, 12] before and after the turn; a turn either
    clears the table (the code length goes back to [min_code_length + 1])
    or stays in the same dictionary lifetime, where the code length does
    not decrease, and grows (by one) exactly when [next_code] after the
    turn exceeds [2 ** code_length]. *)
Theorem code_length_invariant mcl self input c :
  2 <= mcl <= 11 -> compressor_of self mcl -> block_wf (Compression._stream self) ->
  Forall (in_alphabet mcl) input -> in_alphabet mcl c ->
  exists st st',
    final_locals self (items (map Some input)) = Ok st /\
    Compression.loop_body self st (Some c) = Ok st' /\
    mcl + 1 <= Compression.code_length st <= 12 /\
    mcl + 1 <= Compression.code_length st' <= 12 /\
    ((Compression.code_table st !! (Compression.pattern st ++ [Some c]) = None /\
      Compression.next_code st + 1 = 4096 /\
      Compression.code_length st' = mcl + 1 /\
      Compression.next_code st' = 2 ^ mcl + 2) \/
     (Compression.next_code st <= Compression.next_code st' /\
      Compression.code_length st <= Compression.code_length st'
        <= Compression.code_length st + 1 /\
      (Compression.code_length st' = Compression.code_length st + 1 <->
       2 ^ Compression.code_length st < Compression.next_code st'))).
Proof.
  intros Hmcl Hself Hwf Hin Hc.
  destruct (final_locals_inv mcl self input Hmcl Hself Hwf Hin) as (st & Hfin & Hinv).
  destruct (step_inv mcl self st c Hmcl Hself Hinv Hc) as (st' & Hbody & Hturn & Hinv').
  exists st, st'. split; [assumption|]. split; [assumption|].
  destruct Hinv as ((D & z & R) & _ & _). destruct Hinv' as ((D' & z' & R') & _ & _).
  assert (Hw : mcl + 1 <= Compression.code_length st <= 12)
    by (destruct R as [_ Rw Rwr]; lia).
  assert (Hw' : mcl + 1 <= Compression.code_length st' <= 12)
    by (destruct R' as [_ Rw Rwr]; lia).
  split; [assumption|]. split; [assumption|].
  assert (Hn : Compression.next_code st <= 2 ^ Compression.code_length st).
  { open_related R. rewrite Rw. destruct (Decoder.prev D); lia. }
  destruct Hself as (Hm & Hclear & Hend & Hmaxc).
  destruct Hturn as [k0 Hk0 | k s1 Hk0 Hk Hs1 Hroom | k s1 s2 Hk0 Hk Hs1 Hfull Hs2];
    simpl in *.
  - right. split; [lia|]. split; [lia|]. split; lia.
  - right. split; [lia|].
    destruct (Z.eqb_spec (Compression.next_code st) (2 ^ Compression.code_length st));
      (split; [lia|]); split; lia.
  - left. rewrite Hend. repeat split; try assumption; lia.
Qed.

(** C5, amended to minimum code lengths 2..11.  At every turn of the loop
    of a run on symbols of the alphabet, the entries of the code table
    and the two implicit codes are [next_code] in number, at most 4095;
    the entry a turn adds makes them at most 4096; and the turn that adds
    code 4095 writes the prefix and then the clear code at the current
    code length, and leaves the loop with the initial code length, table
    and [next_code]. *)
Theorem code_table_bound mcl self input c :
  2 <= mcl <= 11 -> compressor_of self mcl -> block_wf (Compression._stream self) ->
  Forall (in_alphabet mcl) input -> in_alphabet mcl c ->
  exists st st',
    final_locals self (items (map Some input)) = Ok st /\
    Compression.loop_body self st (Some c) = Ok st' /\
    Z.of_nat (size (Compression.code_table st)) + 2 = Compression.next_code st /\
    Compression.next_code st <= 4095 /\
    (Compression.code_table st !! (Compression.pattern st ++ [Some c]) = None ->
     Z.of_nat (size (<[ Compression.pattern st ++ [Some c] := Compression.next_code st ]>
                       (Compression.code_table st))) + 2 <= 4096) /\
    (Compression.code_table st !! (Compression.pattern st ++ [Some c]) = None ->
     Compression.next_code st + 1 = 4096 ->
     exists k s1 s2,
       Compression.code_table st !! Compression.pattern st = Some k /\
       DataBlock.encode_bits (Compression.stream st) k (Compression.code_length st) = Ok s1 /\
       DataBlock.encode_bits s1 (Compression._clear_code self) (Compression.code_length st)
         = Ok s2 /\
       st' = Compression.mk_locals (mcl + 1) (Compression._end_code self + 1)
               (Compression.single_codes (2 ^ mcl)) [Some c] s2).
Proof.
  intros Hmcl Hself Hwf Hin Hc.
  destruct (final_locals_inv mcl self input Hmcl Hself Hwf Hin) as (st & Hfin & Hinv).
  destruct (step_inv mcl self st c Hmcl Hself Hinv Hc) as (st' & Hbody & Hturn & Hinv').
  exists st, st'. split; [assumption|]. split; [assumption|].
  destruct Hinv as ((D & z & R) & _ & Hsize).
  assert (Hmax : Compression.next_code st <= 4095) by (destruct R; assumption).
  split; [assumption|]. split; [assumption|]. split.
  - intros Hnone. rewrite map_size_insert_None by assumption. lia.
  - intros Hnone Hfull.
    destruct Hturn as [k0 Hk0 | k s1 Hk0 Hk Hs1 Hroom | k s1 s2 Hk0 Hk Hs1 _ Hs2].
    + congruence.
    + lia.
    + exists k, s1, s2. auto.
Qed.

(** ** The claims about the compressor *)

(** The compressor [Compression(n)] builds, when it builds one. *)
Lemma init_compressor n self :
  Compression.__init__ n = Ok self ->
  0 <= n /\ compressor_of self n /\ Compression._stream self = DataBlock.__init__.
Proof.
  unfold Compression.__init__, shl. simpl andb. cbv iota.
  destruct (Z.ltb_spec n 0); simpl; [discriminate|]. intros [= <-].
  rewrite Z.shiftl_1_l. unfold compressor_of. simpl. repeat split; assumption.
Qed.

(** C1 (amended): for a minimum code length in 2..11 and a sequence of
    symbols of the alphabet that is not empty, [Compression.__call__]
    returns bytes (leaving the compressor as it was) from which the GIF
    decoder writes out exactly the sequence; the decoder stops at the end
    code, or, when the compressor stopped with [next_code] equal to
    [2 ** code_length] on a byte boundary, at the end of the data, where
    the end code is one bit short of the decoder's width. *)
Theorem compress_round_trip mcl self input :
  2 <= mcl <= 11 -> compressor_of self mcl ->
  Compression._stream self = DataBlock.__init__ ->
  input <> [] -> Forall (in_alphabet mcl) input ->
  exists st bytes,
    final_locals self (items (map Some input)) = Ok st /\
    Compression.__call__ self (items (map Some input)) = Ok (bytes, self) /\
    Decoder.decode bytes = (input, end_of_run st).
Proof.
  intros Hmcl Hself Hstream Hne Hin.
  destruct (call_decodes mcl self input Hmcl Hself Hstream Hne Hin)
    as (st & bytes & Hfinal & Hcall & Hdecode).
  exists st, bytes. split; [exact Hfinal|]. split; [exact Hcall | exact Hdecode].
Qed.

Lemma compress_round_trip_witness :
  exists st bytes,
    final_locals (Compression.mk DataBlock.__init__ 2 4 5 4096)
      (items (map Some [0; 1; 1; 0])) = Ok st /\
    Compression.__call__ (Compression.mk DataBlock.__init__ 2 4 5 4096)
      (items (map Some [0; 1; 1; 0]))
      = Ok (bytes, Compression.mk DataBlock.__init__ 2 4 5 4096) /\
    Decoder.decode bytes = ([0; 1; 1; 0], end_of_run st).
Proof.
  apply (compress_round_trip 2 (Compression.mk DataBlock.__init__ 2 4 5 4096) [0; 1; 1; 0]).
  - lia.
  - repeat split.
  - reflexivity.
  - discriminate.
  - repeat constructor; unfold in_alphabet; simpl; lia.
Defined.

(** C1 as stated fails on the empty sequence, where [__call__] raises
    [KeyError], and for the minimum code length 12, where the codes are 13
    bits wide from the first one and the decoder, whose codes have at
    most 12 bits, rejects the data. *)
Lemma compress_round_trip_counterexample :
  Compression.__init__ 2 = Ok (Compression.mk DataBlock.__init__ 2 4 5 4096) /\
  Compression.__call__ (Compression.mk DataBlock.__init__ 2 4 5 4096) (items [])
    = Raise KeyError /\
  Compression.__init__ 12 = Ok (Compression.mk DataBlock.__init__ 12 4096 4097 4096) /\
  code_length_after (Compression.mk DataBlock.__init__ 12 4096 4097 4096)
    (items (map Some [0])) = Ok 13 /\
  decoded (Compression.mk DataBlock.__init__ 12 4096 4097 4096) (items (map Some [0]))
    = Ok ([], Corrupt).
Proof.
  split; [reflexivity|]. split; [reflexivity|]. split; [reflexivity|].
  split; vm_compute; reflexivity.
Qed.

(** C2 (amended): after any sequence of [encode_bits] calls with codes
    that fit their positive widths, one more call with such a code appends
    exactly the [width] low-order bits of the code, least significant
    first, the bit position advances by [width], and the bytes that
    [dump_bytes] returns, their length bytes stripped, read back at the
    widths of the calls as the codes of the calls. *)
Theorem encode_bits_read_back (codes : list (Z * Z)) (code width : Z) :
  Forall fits codes -> fits (code, width) ->
  exists db db',
    encode_all DataBlock.__init__ codes = Ok db /\
    DataBlock.encode_bits db code width = Ok db' /\
    DataBlock._nbits db' = DataBlock._nbits db + width /\
    stream_bits db' = stream_bits db ++ low_bits (Z.to_nat width) code /\
    exists payload,
      read_blocks (length (fst (DataBlock.dump_bytes db') ++ [0]))
        (fst (DataBlock.dump_bytes db') ++ [0]) = Some payload /\
      read_codes (map snd (codes ++ [(code, width)])) (bits_of_bytes payload)
        = Some (map fst (codes ++ [(code, width)])).
Proof.
  intros Hfits Hfit.
  destruct (encode_all_spec codes _ block_wf_init Hfits) as (db & Hdb & Hwf & Hn & Hv).
  destruct (encode_bits_fits db code width Hwf (proj1 Hfit) (proj2 Hfit))
    as (db' & Hdb' & Hwf' & Hn' & Hv').
  exists db, db'. split; [assumption|]. split; [assumption|]. split; [assumption|].
  assert (Hone : encode_all db [(code, width)] = Ok db') by (simpl; rewrite Hdb'; reflexivity).
  split.
  { rewrite (stream_bits_encode_all db [(code, width)] db' Hwf
               ltac:(apply Forall_singleton; assumption) Hone).
    unfold codes_bits. simpl. rewrite app_nil_r. reflexivity. }
  exists (DataBlock._bitstream db'). split; [apply (dump_bytes_decoded db' [])|].
  assert (Hall : Forall fits (codes ++ [(code, width)]))
    by (apply Forall_app; split; [assumption | apply Forall_singleton; assumption]).
  destruct (encode_all_spec (codes ++ [(code, width)]) _ block_wf_init Hall)
    as (db2 & Hdb2 & _ & Hn2 & Hv2).
  rewrite encode_all_app, Hdb in Hdb2.
  change (encode_all db [(code, width)] = Ok db2) in Hdb2. rewrite Hone in Hdb2.
  injection Hdb2 as <-.
  simpl in Hn2, Hv2. destruct Hwf' as (Hbytes & Hlen & _).
  apply read_codes_spec; [assumption | |].
  - rewrite bits_of_bytes_value by assumption. lia.
  - rewrite length_bits_of_bytes. lia.
Qed.

Lemma encode_bits_read_back_witness :
  exists db db',
    encode_all DataBlock.__init__ [(4, 3); (1, 3)] = Ok db /\
    DataBlock.encode_bits db 9 4 = Ok db' /\
    DataBlock._nbits db' = DataBlock._nbits db + 4 /\
    stream_bits db' = stream_bits db ++ low_bits (Z.to_nat 4) 9 /\
    exists payload,
      read_blocks (length (fst (DataBlock.dump_bytes db') ++ [0]))
        (fst (DataBlock.dump_bytes db') ++ [0]) = Some payload /\
      read_codes (map snd ([(4, 3); (1, 3)] ++ [(9, 4)])) (bits_of_bytes payload)
        = Some (map fst ([(4, 3); (1, 3)] ++ [(9, 4)])).
Proof.
  apply (encode_bits_read_back [(4, 3); (1, 3)] 9 4).
  - repeat constructor; simpl; lia.
  - split; simpl; lia.
Defined.

(** C2 as stated fails for a code that needs more bits than the width:
    [encode_bits(4, 2)] on an empty block writes the three bits of 4 and
    advances the bit position by three. *)
Lemma encode_bits_read_back_counterexample :
  DataBlock.encode_bits DataBlock.__init__ 4 2 = Ok (DataBlock.mk [4] 3) /\
  stream_bits (DataBlock.mk [4] 3) = [false; false; true] /\
  low_bits 2 4 = [false; false].
Proof. repeat split. Qed.

(** C3: on the empty sequence [__call__] does not return: the clear code
    is written, then the code of the empty pattern is looked up, and the
    table has no such key. *)
Lemma compress_empty_raises :
  Compression.__init__ 2 = Ok (Compression.mk DataBlock.__init__ 2 4 5 4096) /\
  Compression.enter (Compression.mk DataBlock.__init__ 2 4 5 4096)
    = Ok (Compression.mk_locals 3 6 (Compression.single_codes 4) [] (DataBlock.mk [4] 3)) /\
  Compression.single_codes 4 !! ([] : list (option Z)) = None /\
  Compression.__call__ (Compression.mk DataBlock.__init__ 2 4 5 4096) (items [])
    = Raise KeyError.
Proof. repeat split. Qed.

Lemma code_length_invariant_witness :
  exists st st',
    final_locals (Compression.mk DataBlock.__init__ 2 4 5 4096)
      (items (map Some [0; 1; 2])) = Ok st /\
    Compression.loop_body (Compression.mk DataBlock.__init__ 2 4 5 4096) st (Some 3) = Ok st' /\
    2 + 1 <= Compression.code_length st <= 12 /\
    2 + 1 <= Compression.code_length st' <= 12 /\
    ((Compression.code_table st !! (Compression.pattern st ++ [Some 3]) = None /\
      Compression.next_code st + 1 = 4096 /\
      Compression.code_length st' = 2 + 1 /\
      Compression.next_code st' = 2 ^ 2 + 2) \/
     (Compression.next_code st <= Compression.next_code st' /\
      Compression.code_length st <= Compression.code_length st'
        <= Compression.code_length st + 1 /\
      (Compression.code_length st' = Compression.code_length st + 1 <->
       2 ^ Compression.code_length st < Compression.next_code st'))).
Proof.
  apply (code_length_invariant 2 (Compression.mk DataBlock.__init__ 2 4 5 4096) [0; 1; 2] 3).
  - lia.
  - repeat split.
  - apply block_wf_init.
  - repeat constructor; unfold in_alphabet; simpl; lia.
  - unfold in_alphabet; simpl; lia.
Defined.

(** C4 as stated fails for the minimum code length 12: the code length is
    13 from the start. *)
Lemma code_length_invariant_counterexample :
  Compression.__init__ 12 = Ok (Compression.mk DataBlock.__init__ 12 4096 4097 4096) /\
  code_length_after (Compression.mk DataBlock.__init__ 12 4096 4097 4096) (items [])
    = Ok 13 /\
  code_length_after (Compression.mk DataBlock.__init__ 12 4096 4097 4096)
    (items (map Some [0; 0])) = Ok 13.
Proof. split; [reflexivity|]. split; vm_compute; reflexivity. Qed.

Lemma code_table_bound_witness :
  exists st st',
    final_locals (Compression.mk DataBlock.__init__ 2 4 5 4096)
      (items (map Some [0; 1; 2])) = Ok st /\
    Compression.loop_body (Compression.mk DataBlock.__init__ 2 4 5 4096) st (Some 3) = Ok st' /\
    Z.of_nat (size (Compression.code_table st)) + 2 = Compression.next_code st /\
    Compression.next_code st <= 4095 /\
    (Compression.code_table st !! (Compression.pattern st ++ [Some 3]) = None ->
     Z.of_nat (size (<[ Compression.pattern st ++ [Some 3] := Compression.next_code st ]>
                       (Compression.code_table st))) + 2 <= 4096) /\
    (Compression.code_table st !! (Compression.pattern st ++ [Some 3]) = None ->
     Compression.next_code st + 1 = 4096 ->
     exists k s1 s2,
       Compression.code_table st !! Compression.pattern st = Some k /\
       DataBlock.encode_bits (Compression.stream st) k (Compression.code_length st) = Ok s1 /\
       DataBlock.encode_bits s1
         (Compression._clear_code (Compression.mk DataBlock.__init__ 2 4 5 4096))
         (Compression.code_length st) = Ok s2 /\
       st' = Compression.mk_locals (2 + 1)
               (Compression._end_code (Compression.mk DataBlock.__init__ 2 4 5 4096) + 1)
               (Compression.single_codes (2 ^ 2)) [Some 3] s2).
Proof.
  apply (code_table_bound 2 (Compression.mk DataBlock.__init__ 2 4 5 4096) [0; 1; 2] 3).
  - lia.
  - repeat split.
  - apply block_wf_init.
  - repeat constructor; unfold in_alphabet; simpl; lia.
  - unfold in_alphabet; simpl; lia.
Defined.

(** C5 as stated fails for the minimum code length 12: the table holds
    4096 entries from the start, 4098 codes with the clear and the end
    code, and is never cleared, [next_code] starting above 4096. *)
Lemma code_table_bound_counterexample :
  Compression.__init__ 12 = Ok (Compression.mk DataBlock.__init__ 12 4096 4097 4096) /\
  table_size_after (Compression.mk DataBlock.__init__ 12 4096 4097 4096) (items [])
    = Ok 4096%nat /\
  table_size_after (Compression.mk DataBlock.__init__ 12 4096 4097 4096)
    (items (map Some [0; 0; 0])) = Ok 4097%nat.
Proof. split; [reflexivity|]. split; vm_compute; reflexivity. Qed.

(** ** A single symbol, any compressor *)

Lemma bind_inv {A B} (m : result A) (k : A -> result B) b :
  bind m k = Ok b -> exists a, m = Ok a /\ k a = Ok b.
Proof. destruct m as [a|e]; simpl; [eauto | discriminate]. Qed.

Lemma single_codes_no_empty n : Compression.single_codes n !! ([] : list (option Z)) = None.
Proof.
  destruct (Compression.single_codes n !! []) as [k|] eqn:Hk; [|reflexivity].
  apply single_codes_lookup in Hk as [_ Hk]. discriminate.
Qed.

(** The first turn of the loop: a symbol outside the initial table has
    the empty pattern as its prefix, which is no key of the table. *)
Lemma first_turn self n s0 s :
  Compression.single_codes n !! [s] = None ->
  Compression.loop_body self
    (Compression.mk_locals (Compression._min_code_length self + 1)
       (Compression._end_code self + 1) (Compression.single_codes n) [] s0) s
  = Raise KeyError.
Proof.
  intros Hs. unfold Compression.loop_body. cbv zeta. simpl Compression.pattern.
  simpl Compression.code_table. simpl app. rewrite Hs.
  unfold getitem. simpl removelast.
  rewrite lookup_insert_ne by discriminate. rewrite single_codes_no_empty. reflexivity.
Qed.

Lemma call_single self s bytes self' :
  Compression.__call__ self (items [s]) = Ok (bytes, self') ->
  exists t, s = Some t /\ 0 <= t < 2 ^ Compression._min_code_length self.
Proof.
  unfold Compression.__call__. intros H.
  apply bind_inv in H as (st0 & Henter & H).
  apply bind_inv in H as (st1 & Hloop & _).
  unfold Compression.enter in Henter.
  apply bind_inv in Henter as (n & Hn & Henter).
  apply bind_inv in Henter as (s0 & _ & [= <-]).
  unfold shl in Hn. destruct (Z.ltb_spec (Compression._min_code_length self) 0);
    [discriminate|]. injection Hn as <-. rewrite Z.shiftl_1_l in Hloop.
  simpl in Hloop. apply bind_inv in Hloop as (st2 & Hbody & _).
  destruct (Compression.single_codes (2 ^ Compression._min_code_length self) !! [s])
    as [k|] eqn:Hk.
  - apply single_codes_lookup in Hk as [Hk [= ->]]. eauto.
  - rewrite (first_turn self _ s0 s Hk) in Hbody. discriminate.
Qed.

Lemma call_none self st0 :
  Compression.enter self = Ok st0 ->
  Compression.__call__ self (items [None]) = Raise KeyError.
Proof.
  intros Henter. unfold Compression.__call__. rewrite Henter. simpl bind.
  unfold Compression.enter in Henter.
  apply bind_inv in Henter as (n & Hn & Henter).
  apply bind_inv in Henter as (s0 & _ & [= <-]).
  simpl. rewrite first_turn; [reflexivity|].
  destruct (Compression.single_codes n !! [None]) as [k|] eqn:Hk; [|reflexivity].
  apply single_codes_lookup in Hk as [_ Hk]. discriminate.
Qed.

(** C10: [pad_delay_frame] with [trans_index] still [None] raises; it is
    the lookup of the empty pattern in the code table that fails
    ([KeyError]) once the control block is packed and the compressor has
    written its clear code; and [pad_delay_frame] returns only for a
    [trans_index] that is a symbol of the compressor's alphabet. *)
Theorem pad_delay_frame_needs_trans_index (anim : Animation.t) (delay : Z) :
  (Animation.trans_index anim = None ->
   exists e, Animation.pad_delay_frame anim delay = Raise e) /\
  (Animation.trans_index anim = None ->
   (exists control, graphics_control_block delay None = Ok control) ->
   (exists st, Compression.enter (GIFSurface._lzw_compress (Animation._surface anim)) = Ok st) ->
   Animation.pad_delay_frame anim delay = Raise KeyError) /\
  (forall anim', Animation.pad_delay_frame anim delay = Ok anim' ->
   exists t, Animation.trans_index anim = Some t /\
     0 <= t < 2 ^ Compression._min_code_length
                    (GIFSurface._lzw_compress (Animation._surface anim))).
Proof.
  assert (Hok : forall anim', Animation.pad_delay_frame anim delay = Ok anim' ->
            exists t, Animation.trans_index anim = Some t /\
              0 <= t < 2 ^ Compression._min_code_length
                             (GIFSurface._lzw_compress (Animation._surface anim))).
  { intros anim' H. unfold Animation.pad_delay_frame in H.
    apply bind_inv in H as (control & _ & H).
    apply bind_inv in H as (descriptor & _ & H).
    apply bind_inv in H as ([data surface] & Hc & _).
    unfold GIFSurface.compress in Hc.
    apply bind_inv in Hc as ([bytes lzw] & Hcall & _).
    exact (call_single _ _ _ _ Hcall). }
  split; [|split; [|exact Hok]].
  - intros Hnone. destruct (Animation.pad_delay_frame anim delay) as [anim'|e] eqn:H.
    + destruct (Hok anim' eq_refl) as (t & Ht & _). congruence.
    + eauto.
  - intros Hnone [control Hcontrol] [st Henter].
    unfold Animation.pad_delay_frame. rewrite Hnone, Hcontrol. simpl bind.
    pose proof (call_none _ st Henter) as Hcall. unfold items in Hcall. simpl map in Hcall.
    unfold GIFSurface.compress. rewrite Hcall. reflexivity.
Qed.

Lemma example_objects :
  GIFSurface.__init__ 10 10 2 None 0 None None = Ok example_surface /\
  Animation.__init__ example_surface = Ok example_animation.
Proof. split; reflexivity. Qed.

Lemma pad_delay_frame_needs_trans_index_witness :
  Animation.pad_delay_frame example_animation 5 = Raise KeyError /\
  exists t, Animation.trans_index (Animation.set_control example_animation None None
                                     (Some (Some 3))) = Some t /\
    0 <= t < 2 ^ 2.
Proof.
  split.
  - apply (proj1 (proj2 (pad_delay_frame_needs_trans_index example_animation 5))).
    + reflexivity.
    + eexists. reflexivity.
    + eexists. reflexivity.
  - apply (proj2 (proj2 (pad_delay_frame_needs_trans_index
             (Animation.set_control example_animation None None (Some (Some 3))) 5))
             (Animation.with_surface
                (Animation.set_control example_animation None None (Some (Some 3)))
                (GIFSurface.write example_surface
                   [33; 249; 4; 5; 5; 0; 3; 0; 44; 0; 0; 0; 0; 1; 0; 1; 0; 0; 2; 2; 92; 1; 0]))).
    vm_compute. reflexivity.
Defined.

(** C6: the range checks raise for no integer.  [GIFSurface(1, 1, 9)]
    and [Compression(13)], [Compression(1)] and [Compression(0)] are
    built; an integer argument fails only when it is negative, at the
    shift [1 << n]. *)
Lemma range_checks_accept_any_integer :
  (exists s, GIFSurface.__init__ 1 1 9 None 0 None None = Ok s /\
     GIFSurface.color_depth s = 9 /\ len (GIFSurface.palette s) = 1536 /\
     GIFSurface._lzw_compress s = Compression.mk DataBlock.__init__ 9 512 513 4096) /\
  Compression.__init__ 13 = Ok (Compression.mk DataBlock.__init__ 13 8192 8193 4096) /\
  Compression.__init__ 1 = Ok (Compression.mk DataBlock.__init__ 1 2 3 4096) /\
  Compression.__init__ 0 = Ok (Compression.mk DataBlock.__init__ 0 1 2 4096) /\
  Compression.__init__ (-1) = Raise (ValueError "negative shift count").
Proof.
  split; [eexists; split; [reflexivity|]; repeat split|]. repeat split.
Qed.

(** ** The palette *)

Lemma bytearray_bytes l : Forall (fun b => 0 <= b < 256) l -> bytearray l = Ok l.
Proof.
  intros H. unfold bytearray.
  replace (forallb is_byte l) with true; [reflexivity|].
  symmetry. apply forallb_forall. intros b Hb.
  rewrite Forall_forall in H. specialize (H b (proj2 (list_elem_of_In _ _) Hb)).
  unfold is_byte. apply andb_true_intro. split; [apply Z.leb_le | apply Z.ltb_lt]; lia.
Qed.

(** C7: for a colour depth that is not negative and a palette of bytes,
    [global_color_table], and with it [set_palette], raises the length
    error when the palette has fewer than [3 * 2 ** color_depth] bytes and
    otherwise returns exactly its first [3 * 2 ** color_depth] bytes. *)
Theorem palette_length (self : GIFSurface.t) (palette : list Z) :
  0 <= GIFSurface.color_depth self -> Forall (fun b => 0 <= b < 256) palette ->
  let n := 3 * 2 ^ GIFSurface.color_depth self in
  (len palette < n ->
   global_color_table (GIFSurface.color_depth self) palette
     = Raise (ValueError "Invalid palette length.") /\
   GIFSurface.set_palette self palette = Raise (ValueError "Invalid palette length.")) /\
  (n <= len palette ->
   global_color_table (GIFSurface.color_depth self) palette
     = Ok (take (Z.to_nat n) palette) /\
   GIFSurface.set_palette self palette
     = Ok (GIFSurface.mk (GIFSurface.size self) (GIFSurface.loop self) (GIFSurface._io self)
             (GIFSurface.color_depth self) (take (Z.to_nat n) palette)
             (GIFSurface._lzw_compress self))).
Proof.
  intros Hcd Hbytes n. unfold GIFSurface.set_palette, global_color_table.
  rewrite (bytearray_bytes palette Hbytes). simpl bind.
  unfold shl. destruct (Z.ltb_spec (GIFSurface.color_depth self) 0); [lia|].
  rewrite Z.shiftl_1_l. simpl bind. fold n.
  split; intros Hlen.
  - destruct (Z.ltb_spec (len palette) n); [|lia]. split; reflexivity.
  - destruct (Z.ltb_spec (len palette) n); [lia|].
    destruct (Z.ltb_spec n (len palette)); [split; reflexivity|].
    rewrite take_ge by (unfold len in *; lia). split; reflexivity.
Qed.

Lemma palette_length_witness :
  (len [0; 0; 0] < 3 * 2 ^ 2 ->
   global_color_table 2 [0; 0; 0] = Raise (ValueError "Invalid palette length.") /\
   GIFSurface.set_palette example_surface [0; 0; 0]
     = Raise (ValueError "Invalid palette length.")) /\
  (3 * 2 ^ 2 <= len (replicate 12 255 ++ [1; 2; 3]) ->
   global_color_table 2 (replicate 12 255 ++ [1; 2; 3]) = Ok (replicate 12 255)).
Proof.
  split.
  - apply (proj1 (palette_length example_surface [0; 0; 0] ltac:(simpl; lia)
                    ltac:(repeat constructor; lia))).
  - intros H.
    apply (proj1 (proj2 (palette_length example_surface (replicate 12 255 ++ [1; 2; 3])
                           ltac:(simpl; lia) ltac:(repeat constructor; lia)) H)).
Defined.

(** ** The dirty rectangle *)

Lemma mark_cell_box m x y v m' :
  Maze.mark_cell m (x, y) v = Ok m' ->
  Maze._num_changes m' = Maze._num_changes m + 1 /\
  Maze._frame_box m' =
    match Maze._frame_box m with
    | Some (l, t, r, b) => Some (Z.min x l, Z.min y t, Z.max x r, Z.max y b)
    | None => Some (x, y, x, y)
    end.
Proof.
  unfold Maze.mark_cell. intros H.
  apply bind_inv in H as (col & _ & H). apply bind_inv in H as (col' & _ & H).
  apply bind_inv in H as (grid & _ & [= <-]). split; reflexivity.
Qed.

Lemma tight_box_step box cells x y :
  tight_box box cells ->
  tight_box
    match box with
    | Some (l, t, r, b) => Some (Z.min x l, Z.min y t, Z.max x r, Z.max y b)
    | None => Some (x, y, x, y)
    end (cells ++ [(x, y)]).
Proof.
  destruct box as [[[[l t] r] b]|]; simpl.
  - intros (Hin & [yl Hl] & [xt Ht] & [yr Hr] & [xb Hb]).
    split; [|split; [|split; [|split]]].
    + intros x0 y0 H0. apply in_app_iff in H0 as [H0 | [[= <- <-] | []]].
      * specialize (Hin _ _ H0). lia.
      * lia.
    + destruct (Z.min_spec x l) as [[_ ->] | [_ ->]].
      * exists y. apply in_app_iff. right. left. reflexivity.
      * exists yl. apply in_app_iff. left. assumption.
    + destruct (Z.min_spec y t) as [[_ ->] | [_ ->]].
      * exists x. apply in_app_iff. right. left. reflexivity.
      * exists xt. apply in_app_iff. left. assumption.
    + destruct (Z.max_spec x r) as [[_ ->] | [_ ->]].
      * exists yr. apply in_app_iff. left. assumption.
      * exists y. apply in_app_iff. right. left. reflexivity.
    + destruct (Z.max_spec y b) as [[_ ->] | [_ ->]].
      * exists xb. apply in_app_iff. left. assumption.
      * exists x. apply in_app_iff. right. left. reflexivity.
  - intros ->. simpl. split; [|split; [|split; [|split]]]; eauto.
    intros x0 y0 [[= <- <-] | []]. lia.
Qed.

Lemma mark_cells_box marks : forall m m' seen,
  tight_box (Maze._frame_box m) seen ->
  mark_cells m marks = Ok m' ->
  tight_box (Maze._frame_box m') (seen ++ map fst marks) /\
  Maze._num_changes m' = Maze._num_changes m + len marks.
Proof.
  induction marks as [|[[x y] v] marks IH]; intros m m' seen Hbox Hmarks.
  - injection Hmarks as <-. simpl. rewrite app_nil_r. unfold len. simpl. split; [assumption | lia].
  - simpl in Hmarks. apply bind_inv in Hmarks as (m1 & Hm1 & Hmarks).
    destruct (mark_cell_box m x y v m1 Hm1) as [Hn1 Hb1].
    destruct (IH m1 m' (seen ++ [(x, y)])) as [Hbox' Hn'].
    + rewrite Hb1. apply tight_box_step, Hbox.
    + assumption.
    + split.
      * simpl map. rewrite <- app_assoc in Hbox'. exact Hbox'.
      * rewrite Hn', Hn1. unfold len. simpl length. lia.
Qed.

(** C8: after a reset, whatever cells are marked, [frame_box] is the
    tight bounding box of exactly those cells ([None] when there is none),
    and [num_changes] counts them. *)
Theorem frame_box_is_bounding_box (m m' : Maze.t) (marks : list (Z * Z * Z)) :
  mark_cells (Maze.reset m) marks = Ok m' ->
  tight_box (Maze.frame_box m') (map fst marks) /\
  Maze.num_changes m' = len marks.
Proof.
  intros H. destruct (mark_cells_box marks (Maze.reset m) m' [] eq_refl H) as [Hbox Hn].
  split; [exact Hbox | exact Hn].
Qed.

Lemma frame_box_is_bounding_box_witness :
  Maze.__init__ 5 5 = Ok example_maze /\
  mark_cells (Maze.reset example_maze) [((2, 2), 1); ((2, 4), 1)]
    = Ok (Maze.mk (5, 5)
            [[0; 0; 0; 0; 0]; [0; 0; 0; 0; 0]; [0; 0; 1; 0; 1]; [0; 0; 0; 0; 0];
             [0; 0; 0; 0; 0]] 2 (Some (2, 2, 2, 4))) /\
  tight_box (Some (2, 2, 2, 4)) [(2, 2); (2, 4)] /\
  Maze.frame_box (Maze.reset example_maze) = None.
Proof.
  split; [reflexivity|]. split; [reflexivity|]. split; [|reflexivity].
  apply (frame_box_is_bounding_box example_maze
           (Maze.mk (5, 5)
              [[0; 0; 0; 0; 0]; [0; 0; 0; 0; 0]; [0; 0; 1; 0; 1]; [0; 0; 0; 0; 0];
               [0; 0; 0; 0; 0]] 2 (Some (2, 2, 2, 4)))
           [((2, 2), 1); ((2, 4), 1)]).
  reflexivity.
Defined.

(** ** Flushing a frame *)

Lemma surface_eta (s : GIFSurface.t) :
  GIFSurface.mk (GIFSurface.size s) (GIFSurface.loop s) (GIFSurface._io s)
    (GIFSurface.color_depth s) (GIFSurface.palette s) (GIFSurface._lzw_compress s) = s.
Proof. destruct s; reflexivity. Qed.

Lemma animation_eta (a : Animation.t) : Animation.with_surface a (Animation._surface a) = a.
Proof. destruct a; reflexivity. Qed.

(** [_encode_frame] on pixels that are all produced and all colours of
    the compressor's alphabet. *)
Lemma encode_frame_returns self m mcl l t r b pixels control descriptor :
  Animation.maze self = Some m ->
  2 <= mcl <= 11 ->
  Compression.__init__ mcl = Ok (GIFSurface._lzw_compress (Animation._surface self)) ->
  graphics_control_block (Animation.delay self) (Animation.trans_index self) = Ok control ->
  frame_region m = (l, t, r, b) ->
  image_descriptor (Animation.cell_size self * l + fst (Animation.translation self))
                   (Animation.cell_size self * t + snd (Animation.translation self))
                   (Animation.cell_size self * (r - l + 1))
                   (Animation.cell_size self * (b - t + 1)) 0 = Ok descriptor ->
  Animation.get_frame_pixels self m l t (r - l + 1) (b - t + 1) = items (map Some pixels) ->
  pixels <> [] -> Forall (in_alphabet mcl) pixels ->
  exists data outcome,
    GIFSurface.compress (Animation._surface self) (items (map Some pixels))
      = Ok (data, Animation._surface self) /\
    Decoder.decode data = (pixels, outcome) /\
    Animation._encode_frame self
      = Ok (control ++ descriptor ++ data, Animation.with_maze self (Maze.reset m)).
Proof.
  intros Hm Hmcl Hinit Hcontrol Hregion Hdesc Hpixels Hne Hin.
  destruct (init_compressor mcl _ Hinit) as (_ & Hself & Hstream).
  destruct (call_decodes mcl _ pixels Hmcl Hself Hstream Hne Hin)
    as (st & data & _ & Hcall & Hdec).
  assert (Hcompress : GIFSurface.compress (Animation._surface self) (items (map Some pixels))
                      = Ok (data, Animation._surface self)).
  { unfold GIFSurface.compress. rewrite Hcall. simpl bind. rewrite surface_eta. reflexivity. }
  exists data, (end_of_run st). split; [exact Hcompress|]. split; [exact Hdec|].
  unfold Animation._encode_frame. rewrite Hcontrol. simpl bind.
  unfold Animation.get_maze. rewrite Hm. simpl bind.
  unfold frame_region in Hregion. rewrite Hregion. rewrite Hdesc. simpl bind.
  rewrite Hpixels, Hcompress. simpl bind. rewrite animation_eta. reflexivity.
Qed.

(** C9, amended with what a flush needs to return.  For an animation bound
    to a maze, on a surface whose compressor has a minimum code length in
    2..11, when the control block and the descriptor of the region can be
    packed and every pixel of the region is produced, is a colour of the
    compressor's alphabet, and there is at least one: [refresh_frame]
    with at least [speed] changes and [clear_remaining_changes] with at
    least one change return, and leave the surface with exactly one more
    chunk, the control block, the descriptor and the data that the
    compressor returns for the pixels and that decode to them; nothing
    else of the surface or the animation changes but the maze, which is
    reset: no change counted, no dirty rectangle.  With fewer changes
    they return the animation as it is.  After a single mark at [(x, y)]
    on a reset maze the region is that one cell. *)
Theorem flush_emits_one_frame (self : Animation.t) (m : Maze.t) (mcl l t r b : Z)
    (pixels control descriptor : list Z) :
  Animation.maze self = Some m ->
  2 <= mcl <= 11 ->
  Compression.__init__ mcl = Ok (GIFSurface._lzw_compress (Animation._surface self)) ->
  graphics_control_block (Animation.delay self) (Animation.trans_index self) = Ok control ->
  frame_region m = (l, t, r, b) ->
  image_descriptor (Animation.cell_size self * l + fst (Animation.translation self))
                   (Animation.cell_size self * t + snd (Animation.translation self))
                   (Animation.cell_size self * (r - l + 1))
                   (Animation.cell_size self * (b - t + 1)) 0 = Ok descriptor ->
  Animation.get_frame_pixels self m l t (r - l + 1) (b - t + 1) = items (map Some pixels) ->
  pixels <> [] -> Forall (in_alphabet mcl) pixels ->
  exists data outcome,
    GIFSurface.compress (Animation._surface self) (items (map Some pixels))
      = Ok (data, Animation._surface self) /\
    Decoder.decode data = (pixels, outcome) /\
    let self' := flushed self m (control ++ descriptor ++ data) in
    (Animation.speed self <= Maze.num_changes m -> Animation.refresh_frame self = Ok self') /\
    (Maze.num_changes m < Animation.speed self -> Animation.refresh_frame self = Ok self) /\
    (0 < Maze.num_changes m -> Animation.clear_remaining_changes self = Ok self') /\
    (Maze.num_changes m <= 0 -> Animation.clear_remaining_changes self = Ok self) /\
    GIFSurface._io (Animation._surface self')
      = GIFSurface._io (Animation._surface self) ++ [control ++ descriptor ++ data] /\
    (exists m', Animation.maze self' = Some m' /\
                Maze.num_changes m' = 0 /\ Maze.frame_box m' = None) /\
    (forall m0 x y v, Maze.mark_cell (Maze.reset m0) (x, y) v = Ok m ->
                      (l, t, r, b) = (x, y, x, y)).
Proof.
  intros Hm Hmcl Hinit Hcontrol Hregion Hdesc Hpixels Hne Hin.
  destruct (encode_frame_returns self m mcl l t r b pixels control descriptor
              Hm Hmcl Hinit Hcontrol Hregion Hdesc Hpixels Hne Hin)
    as (data & outcome & Hcompress & Hdec & Hframe).
  exists data, outcome. split; [exact Hcompress|]. split; [exact Hdec|]. cbv zeta.
  unfold Animation.refresh_frame, Animation.clear_remaining_changes, Animation.get_maze.
  rewrite Hm. simpl bind. rewrite Hframe. simpl bind.
  split; [intros Hn; destruct (Z.leb_spec (Animation.speed self) (Maze.num_changes m));
            [reflexivity | lia]|].
  split; [intros Hn; destruct (Z.leb_spec (Animation.speed self) (Maze.num_changes m));
            [lia | reflexivity]|].
  split; [intros Hn; destruct (Z.ltb_spec 0 (Maze.num_changes m)); [reflexivity | lia]|].
  split; [intros Hn; destruct (Z.ltb_spec 0 (Maze.num_changes m)); [lia | reflexivity]|].
  split; [reflexivity|]. split.
  - exists (Maze.reset m). repeat split.
  - intros m0 x y v Hmark. destruct (mark_cell_box _ _ _ _ _ Hmark) as [_ Hbox].
    rewrite <- Hregion. unfold frame_region, Maze.frame_box. rewrite Hbox. reflexivity.
Qed.

Lemma flush_emits_one_frame_witness :
  Maze.mark_cell (Maze.reset example_maze) (2, 3) 1 = Ok example_marked_maze /\
  Animation.refresh_frame example_bound = Ok example_flushed /\
  Animation.clear_remaining_changes example_bound = Ok example_flushed /\
  example_flushed
    = flushed example_bound example_marked_maze
        ([33; 249; 4; 4; 5; 0; 0; 0] ++ [44; 2; 0; 3; 0; 1; 0; 1; 0; 0] ++ [2; 2; 76; 1; 0]) /\
  Decoder.decode [2; 2; 76; 1; 0] = ([1], EndOfInformation) /\
  GIFSurface._io (Animation._surface example_flushed)
    = GIFSurface._io (Animation._surface example_bound)
      ++ [[33; 249; 4; 4; 5; 0; 0; 0] ++ [44; 2; 0; 3; 0; 1; 0; 1; 0; 0] ++ [2; 2; 76; 1; 0]].
Proof.
  assert (Hmark : Maze.mark_cell (Maze.reset example_maze) (2, 3) 1 = Ok example_marked_maze)
    by reflexivity.
  destruct (flush_emits_one_frame example_bound example_marked_maze 2 2 3 2 3 [1]
              [33; 249; 4; 4; 5; 0; 0; 0] [44; 2; 0; 3; 0; 1; 0; 1; 0; 0])
    as (data & outcome & Hcompress & Hdec & Hrefresh & _ & Hclear & _ & Hio & _ & _).
  - reflexivity.
  - lia.
  - reflexivity.
  - reflexivity.
  - reflexivity.
  - reflexivity.
  - vm_compute. reflexivity.
  - discriminate.
  - apply Forall_singleton. unfold in_alphabet. simpl. lia.
  - assert (Hdata : data = [2; 2; 76; 1; 0]).
    { assert (Hc : GIFSurface.compress (Animation._surface example_bound)
                     (items (map Some [1]))
                   = Ok ([2; 2; 76; 1; 0], Animation._surface example_bound))
        by (vm_compute; reflexivity).
      rewrite Hc in Hcompress. injection Hcompress as <-. reflexivity. }
    subst data.
    assert (Hsame : example_flushed
              = flushed example_bound example_marked_maze
                  ([33; 249; 4; 4; 5; 0; 0; 0] ++ [44; 2; 0; 3; 0; 1; 0; 1; 0; 0]
                   ++ [2; 2; 76; 1; 0])) by reflexivity.
    split; [exact Hmark|].
    split; [rewrite Hsame; apply Hrefresh; vm_compute; discriminate|].
    split; [rewrite Hsame; apply Hclear; reflexivity|].
    split; [exact Hsame|].
    split; [vm_compute; reflexivity|]. rewrite Hsame. exact Hio.
Defined.

(** C9 as stated fails when a pixel cannot be encoded.  With speed 1 and
    a single mark, both flushes raise [KeyError] and write nothing when
    the value marked is no key of the colour map (7, with four colours),
    and also when it is a colour of the surface that the compressor's
    alphabet does not hold (5, with eight colours and a minimum code
    length of 2). *)
Lemma flush_emits_one_frame_counterexample :
  Maze.mark_cell (Maze.reset example_maze) (2, 3) 7 = Ok example_unmapped_maze /\
  Animation.maze example_unmapped = Some example_unmapped_maze /\
  Animation.speed example_unmapped = 1 /\
  Maze.num_changes example_unmapped_maze = 1 /\
  Animation.refresh_frame example_unmapped = Raise KeyError /\
  Animation.clear_remaining_changes example_unmapped = Raise KeyError /\
  GIFSurface.__init__ 10 10 3 None 0 None (Some 2) = Ok example_deep_surface /\
  Animation.set_control
    (Animation.add_maze
       (Animation.mk example_deep_surface 8 (foldl (fun d i => <[ i := i ]> d) ∅ (range 8))
          10 None 5 5 (0, 0) None)
       example_deep_maze 1 (0, 0)) (Some 1) None None = example_deep /\
  Animation.__init__ example_deep_surface
    = Ok (Animation.mk example_deep_surface 8 (foldl (fun d i => <[ i := i ]> d) ∅ (range 8))
            10 None 5 5 (0, 0) None) /\
  Maze.mark_cell (Maze.reset example_maze) (2, 3) 5 = Ok example_deep_maze /\
  Animation.refresh_frame example_deep = Raise KeyError /\
  Animation.clear_remaining_changes example_deep = Raise KeyError.
Proof. repeat (split; [vm_compute; reflexivity|]). vm_compute. reflexivity. Qed.

(** * More of the encoder *)

(** ** Building a compressor *)

(** X1: [Compression(n)] is built for every integer that is not negative,
    whatever the range the constructor means to check, with the clear
    code [2 ** n], the end code after it and an empty stream; a negative
    integer fails at the shift. *)
Theorem init_for_every_integer (n : Z) :
  Compression.__init__ n =
    if n <? 0 then Raise (ValueError "negative shift count")
    else Ok (Compression.mk DataBlock.__init__ n (2 ^ n) (2 ^ n + 1) 4096).
Proof.
  unfold Compression.__init__, isinstance_int. simpl negb. simpl andb. cbv iota.
  unfold shl. destruct (Z.ltb_spec n 0) as [Hneg | Hpos]; [reflexivity|].
  simpl bind. rewrite Z.shiftl_1_l. reflexivity.
Qed.

(** ** The empty input *)

Lemma enter_init n :
  0 <= n ->
  exists s0, block_wf s0 /\
    Compression.enter (Compression.mk DataBlock.__init__ n (2 ^ n) (2 ^ n + 1) 4096)
      = Ok (Compression.mk_locals (n + 1) (2 ^ n + 1 + 1) (Compression.single_codes (2 ^ n))
              [] s0).
Proof.
  intros Hn. unfold Compression.enter. simpl.
  rewrite shl_1 by assumption. simpl bind.
  destruct (encode_bits_fits DataBlock.__init__ (2 ^ n) (n + 1) block_wf_init)
    as (s0 & Hs0 & Hwf0 & _).
  { rewrite Z.pow_add_r by lia. pose proof (pow2_pos n Hn). lia. }
  { lia. }
  exists s0. rewrite Hs0. split; [assumption | reflexivity].
Qed.

(** X2: on the empty sequence every compressor that [Compression(n)]
    builds raises [KeyError]: the loop runs no turn and the empty pattern
    is looked up in the code table. *)
Theorem call_empty_raises (n : Z) (self : Compression.t) :
  Compression.__init__ n = Ok self ->
  Compression.__call__ self (items []) = Raise KeyError.
Proof.
  intros Hinit. destruct (init_compressor n self Hinit) as (Hpos & Hself & Hstream).
  rewrite (compressor_eq self n Hself Hstream).
  destruct (enter_init n Hpos) as (s0 & _ & Henter).
  unfold Compression.__call__. rewrite Henter. simpl for_each. simpl bind.
  unfold Compression.leave, getitem. simpl Compression.code_table. simpl Compression.pattern.
  rewrite single_codes_no_empty. reflexivity.
Qed.

Lemma call_empty_raises_witness :
  Compression.__call__ (Compression.mk DataBlock.__init__ 8 256 257 4096) (items [])
    = Raise KeyError.
Proof. apply (call_empty_raises 8). reflexivity. Defined.

(** ** A symbol outside the alphabet *)

Lemma single_codes_clean mcl x k :
  Compression.single_codes (2 ^ mcl) !! x = Some k ->
  x <> [] /\ Forall (valid_symbol mcl) x.
Proof.
  intros H. apply single_codes_lookup in H as [Hk ->]. split; [discriminate|].
  apply Forall_singleton. exists k. split; [reflexivity | exact Hk].
Qed.

Lemma turn_clean mcl self st c st' :
  turn mcl self st c st' -> in_alphabet mcl c -> clean mcl st -> clean mcl st'.
Proof.
  intros Hturn Hc [Htable Hpat].
  assert (Hvc : valid_symbol mcl (Some c)) by (exists c; split; [reflexivity | assumption]).
  assert (Hnew : Forall (valid_symbol mcl) (Compression.pattern st ++ [Some c]))
    by (apply Forall_app; split; [assumption | apply Forall_singleton; assumption]).
  destruct Hturn as [k0 Hk0 | k s1 Hk0 Hk Hs1 Hroom | k s1 s2 Hk0 Hk Hs1 Hfull Hs2];
    split; simpl.
  - exact Htable.
  - exact Hnew.
  - intros x k1 Hx. destruct (decide (x = Compression.pattern st ++ [Some c])) as [-> | Hne].
    + split; [|assumption]. intros Heq. apply (f_equal (@length _)) in Heq.
      rewrite length_app in Heq. simpl in Heq. lia.
    + rewrite lookup_insert_ne in Hx by congruence. exact (Htable x k1 Hx).
  - apply Forall_singleton. assumption.
  - intros x k1 Hx. exact (single_codes_clean mcl x k1 Hx).
  - apply Forall_singleton. assumption.
Qed.

Lemma for_each_clean mcl self rest : forall st,
  2 <= mcl <= 11 -> compressor_of self mcl -> run_inv mcl st -> clean mcl st ->
  Forall (in_alphabet mcl) rest ->
  exists st', for_each (Compression.loop_body self) st (items (map Some rest)) = Ok st' /\
    run_inv mcl st' /\ clean mcl st'.
Proof.
  induction rest as [|c rest IH]; intros st Hmcl Hself Hinv Hclean Hrest.
  - exists st. split; [reflexivity|]. split; assumption.
  - apply Forall_cons in Hrest as [Hc Hrest].
    destruct (step_inv mcl self st c Hmcl Hself Hinv Hc) as (st1 & Hbody & Hturn & Hinv1).
    pose proof (turn_clean mcl self st c st1 Hturn Hc Hclean) as Hclean1.
    destruct (IH st1 Hmcl Hself Hinv1 Hclean1 Hrest) as (st2 & Hrun & Hinv2 & Hclean2).
    exists st2. simpl. rewrite Hbody. simpl bind. auto.
Qed.

Lemma hd_valid mcl bad x :
  ~ valid_symbol mcl bad -> x <> [] -> Forall (valid_symbol mcl) x -> hd_error x <> Some bad.
Proof.
  intros Hbad Hne Hx. destruct x as [|s x]; [congruence|].
  rewrite Forall_cons in Hx. destruct Hx as [Hs _]. simpl. intros [= ->]. exact (Hbad Hs).
Qed.

(** The turn of the loop for a symbol that is not valid: the lookup of
    the prefix fails at once when the pattern is empty; otherwise the
    prefix is written and the pattern becomes the symbol alone. *)
Lemma bad_turn mcl self st bad :
  2 <= mcl <= 11 -> compressor_of self mcl -> run_inv mcl st -> clean mcl st ->
  ~ valid_symbol mcl bad ->
  Compression.loop_body self st bad = Raise KeyError \/
  exists st', Compression.loop_body self st bad = Ok st' /\ stuck bad st'.
Proof.
  intros Hmcl Hself ((D & z & R) & Hwf & _) [Htable Hpat] Hbad.
  destruct Hself as (Hm & Hclear & Hend & Hmaxc).
  pose proof (pow_mcl_bounds mcl Hmcl) as Hp.
  unfold Compression.loop_body. cbv zeta.
  destruct (Compression.code_table st !! (Compression.pattern st ++ [bad])) as [k0|] eqn:Hk0.
  { destruct (Htable _ _ Hk0) as [_ Hall]. rewrite Forall_app in Hall.
    destruct Hall as [_ Hall]. rewrite Forall_singleton in Hall. destruct (Hbad Hall). }
  rewrite removelast_last. unfold getitem.
  rewrite lookup_insert_ne.
  2:{ intros Heq. apply (f_equal (@length _)) in Heq.
      rewrite length_app in Heq. simpl in Heq. lia. }
  destruct (Compression.code_table st !! Compression.pattern st) as [k|] eqn:Hk;
    [|left; reflexivity].
  right. simpl bind.
  destruct (Htable _ _ Hk) as [Hpne _].
  pose proof R as R'. open_related R'.
  assert (Hz : z <> []) by (intros ->; rewrite Rpat in Hpne; apply Hpne; reflexivity).
  pose proof Hk as Hk'. rewrite Rpat in Hk'.
  destruct (related_lookup mcl Hmcl st D z k R Hz Hk') as (_ & Hkr & _).
  destruct (encode_bits_spec (Compression.stream st) k (Compression.code_length st) Hwf
              (proj1 Hkr)) as (s1 & Hs1 & Hwf1 & _).
  rewrite Hs1. simpl bind.
  assert (Hold : forall x k1, Compression.code_table st !! x = Some k1 ->
                              hd_error x <> Some bad).
  { intros x k1 Hx. destruct (Htable x k1 Hx) as [Hne Hall].
    exact (hd_valid mcl bad x Hbad Hne Hall). }
  destruct (Compression.next_code st + 1 =? Compression._max_codes self).
  - set (w := if Compression.pow2_plus_1_is _ _ then _ else _).
    destruct (encode_bits_spec s1 (Compression._clear_code self) w Hwf1 ltac:(lia))
      as (s2 & Hs2 & _).
    rewrite Hs2. simpl bind. rewrite Hm, shl_1 by lia. simpl bind.
    eexists. split; [reflexivity|]. split; [reflexivity|]. simpl.
    intros x k1 Hx. destruct (single_codes_clean mcl x k1 Hx) as [Hne Hall].
    exact (hd_valid mcl bad x Hbad Hne Hall).
  - eexists. split; [reflexivity|]. split; [reflexivity|]. simpl.
    intros x k1 Hx.
    destruct (decide (x = Compression.pattern st ++ [bad])) as [-> | Hne].
    + destruct (Compression.pattern st) as [|s p]; [congruence|].
      rewrite Forall_cons in Hpat. destruct Hpat as [Hs _]. simpl. intros [= ->]. exact (Hbad Hs).
    + rewrite lookup_insert_ne in Hx by congruence. exact (Hold x k1 Hx).
Qed.

Lemma stuck_turn self st bad d :
  stuck bad st -> Compression.loop_body self st d = Raise KeyError.
Proof.
  intros [Hpat Hkeys]. unfold Compression.loop_body. cbv zeta. rewrite Hpat. simpl app.
  destruct (Compression.code_table st !! [bad; d]) as [k0|] eqn:Hk0.
  { exfalso. apply (Hkeys _ _ Hk0). reflexivity. }
  unfold getitem. simpl removelast. rewrite lookup_insert_ne by discriminate.
  destruct (Compression.code_table st !! [bad]) as [k|] eqn:Hk; [|reflexivity].
  exfalso. apply (Hkeys _ _ Hk). reflexivity.
Qed.

Lemma stuck_raises self st bad post :
  stuck bad st ->
  bind (for_each (Compression.loop_body self) st (items post)) (Compression.leave self)
    = Raise KeyError.
Proof.
  intros Hstuck. destruct post as [|d post]; simpl.
  - destruct Hstuck as [Hpat Hkeys]. unfold Compression.leave, getitem. rewrite Hpat.
    destruct (Compression.code_table st !! [bad]) as [k|] eqn:Hk; [|reflexivity].
    exfalso. apply (Hkeys _ _ Hk). reflexivity.
  - rewrite (stuck_turn self st bad d Hstuck). reflexivity.
Qed.

Lemma for_each_app {S A} (body : S -> A -> result S) l1 : forall s l2,
  for_each body s (l1 ++ l2) = bind (for_each body s l1) (fun s' => for_each body s' l2).
Proof.
  induction l1 as [|[a|e] l1 IH]; intros s l2; simpl; try reflexivity.
  destruct (body s a) as [s'|e]; simpl; [apply IH | reflexivity].
Qed.

(** X3: a symbol that is not an integer of the alphabet, anywhere in the
    input, makes [__call__] raise [KeyError], whatever follows it: the
    symbols before it are consumed, the symbol itself becomes the
    pattern, and the next lookup of that pattern fails. *)
Theorem call_bad_symbol_raises mcl self (pre : list Z) (bad : option Z)
    (post : list (option Z)) :
  2 <= mcl <= 11 -> Compression.__init__ mcl = Ok self ->
  Forall (in_alphabet mcl) pre ->
  (forall t, bad = Some t -> ~ in_alphabet mcl t) ->
  Compression.__call__ self (items (map Some pre ++ bad :: post)) = Raise KeyError.
Proof.
  intros Hmcl Hinit Hpre Hbad.
  destruct (init_compressor mcl self Hinit) as (_ & Hself & Hstream).
  assert (Hwfi : block_wf (Compression._stream self))
    by (rewrite Hstream; apply block_wf_init).
  assert (Hinvalid : ~ valid_symbol mcl bad).
  { intros (t & -> & Ht). exact (Hbad t eq_refl Ht). }
  destruct (enter_spec mcl Hmcl self Hself Hwfi) as (s0 & _ & Hwf0 & Henter).
  pose proof (pow_mcl_bounds mcl Hmcl) as Hp.
  set (st0 := Compression.mk_locals (mcl + 1) (2 ^ mcl + 1 + 1)
                (Compression.single_codes (2 ^ mcl)) [] s0) in *.
  assert (Hinv0 : run_inv mcl st0).
  { split; [exists (Decoder.cleared mcl []), []; apply related_enter, Hmcl|].
    split; [assumption|]. simpl. rewrite single_codes_size. lia. }
  assert (Hclean0 : clean mcl st0).
  { split; [intros x k Hx; exact (single_codes_clean mcl x k Hx) | constructor]. }
  destruct (for_each_clean mcl self pre st0 Hmcl Hself Hinv0 Hclean0 Hpre)
    as (st & Hrun & Hinv & Hclean).
  unfold Compression.__call__. rewrite Henter. simpl bind.
  unfold items. rewrite map_app. fold (items (map Some pre)).
  rewrite for_each_app, Hrun. simpl bind. simpl map.
  change (map Ok post) with (items post).
  simpl for_each.
  destruct (bad_turn mcl self st bad Hmcl Hself Hinv Hclean Hinvalid)
    as [Hraise | (st' & Hbody & Hstuck)].
  - rewrite Hraise. reflexivity.
  - rewrite Hbody. simpl bind. exact (stuck_raises self st' bad post Hstuck).
Qed.

Lemma call_bad_symbol_raises_witness :
  Compression.__call__ (Compression.mk DataBlock.__init__ 2 4 5 4096)
    (items (map Some [0; 1; 1] ++ Some 4 :: [Some 0; None])) = Raise KeyError.
Proof.
  apply (call_bad_symbol_raises 2).
  - lia.
  - reflexivity.
  - repeat constructor; unfold in_alphabet; simpl; lia.
  - intros t [= <-]. unfold in_alphabet. simpl. lia.
Defined.

(** ** The digits of a number *)

Lemma pos_digits_size p : len (pos_digits p) = Z.log2 (Zpos p) + 1.
Proof.
  unfold len. induction p as [p IH | p IH |].
  - simpl pos_digits. rewrite length_app. simpl length.
    change (Z.log2 (Z.pos p~1)) with (Z.pos (Pos.size p)).
    rewrite Nat2Z.inj_add, IH. destruct p; simpl; lia.
  - simpl pos_digits. rewrite length_app. simpl length.
    change (Z.log2 (Z.pos p~0)) with (Z.pos (Pos.size p)).
    rewrite Nat2Z.inj_add, IH. destruct p; simpl; lia.
  - reflexivity.
Qed.

Lemma digits_of_size num size :
  0 <= num -> len (digits_of num size) = Z.max size (Z.log2 num + 1).
Proof.
  intros Hnum. unfold digits_of.
  assert (H : exists c r, drop 2 (bin num) = c :: r /\
            (Ascii.eqb c "+" || Ascii.eqb c "-")%bool = false /\
            len (c :: r) = Z.log2 num + 1).
  { destruct num as [|p|p]; [| |lia].
    - exists "0"%char, []. repeat split.
    - change (drop 2 (bin (Z.pos p))) with (pos_digits p).
      destruct (pos_digits_head p) as [r Hr]. exists "1"%char, r.
      split; [assumption|]. split; [reflexivity|]. rewrite <- Hr. apply pos_digits_size. }
  destruct H as (c & r & -> & Hc & Hlen).
  rewrite zfill_unsigned by assumption.
  unfold len in *. rewrite length_rev, length_app, length_replicate. lia.
Qed.

(** X4: [encode_bits(num, size)] never truncates.  On a block that earlier
    calls have left, for a number that is not negative, the call returns,
    the whole number is added at the bit position, and the position
    advances by [size] or by the number of binary digits of [num] if that
    is more (one digit for 0). *)
Theorem encode_bits_writes_whole_number (db : DataBlock.t) (num size : Z) :
  block_wf db -> 0 <= num ->
  exists db', DataBlock.encode_bits db num size = Ok db' /\ block_wf db' /\
    DataBlock._nbits db' = DataBlock._nbits db + Z.max size (Z.log2 num + 1) /\
    bytes_value (DataBlock._bitstream db') =
      bytes_value (DataBlock._bitstream db) + 2 ^ DataBlock._nbits db * num.
Proof.
  intros Hwf Hnum.
  destruct (encode_bits_spec db num size Hwf Hnum) as (db' & H1 & H2 & H3 & H4).
  exists db'. rewrite digits_of_size in H3 by assumption. auto.
Qed.

Lemma encode_bits_writes_whole_number_witness :
  exists db', DataBlock.encode_bits (DataBlock.mk [5] 3) 9 2 = Ok db' /\ block_wf db' /\
    DataBlock._nbits db' = 3 + Z.max 2 (Z.log2 9 + 1) /\
    bytes_value (DataBlock._bitstream db') = bytes_value [5] + 2 ^ 3 * 9.
Proof.
  apply (encode_bits_writes_whole_number (DataBlock.mk [5] 3) 9 2).
  - split; [apply Forall_singleton; lia|]. split; unfold len; simpl; lia.
  - lia.
Defined.

(** ** The sub-blocks *)

Lemma dump_loop_length fuel : forall bs out,
  (length bs <= fuel)%nat ->
  let r := DataBlock.dump_loop fuel bs out in
  len (fst r) <= 255 /\
  (len bs = 0 -> fst r = [] /\ snd r = out) /\
  (0 < len bs -> 0 < len (fst r) /\
     len (snd r) + len (fst r) + 1 = len out + len bs + (len bs + 254) / 255).
Proof.
  induction fuel as [|fuel IH]; intros bs out Hlen.
  - destruct bs; [|simpl in Hlen; lia]. simpl. unfold len. simpl.
    split; [lia|]. split; [auto | lia].
  - simpl. destruct (Z.ltb_spec 255 (len bs)) as [Hbig | Hsmall].
    + destruct (IH (drop 255 bs) (out ++ [255] ++ take 255 bs)) as (H1 & H2 & H3).
      { rewrite length_drop. unfold len in Hbig. lia. }
      split; [exact H1|]. split; [unfold len in *; lia|]. intros _.
      assert (Hd : len (drop 255 bs) = len bs - 255)
        by (unfold len in *; rewrite length_drop; lia).
      assert (Ht : len (out ++ [255] ++ take 255 bs) = len out + 256).
      { unfold len in *. rewrite !length_app, length_take. simpl length. lia. }
      destruct H3 as [H3 H4]; [lia|]. split; [exact H3|].
      etransitivity; [exact H4|]. rewrite Hd, Ht.
      replace (len bs + 254) with (len bs - 255 + 254 + 1 * 255) by lia.
      rewrite Z.div_add by lia. lia.
    + simpl. split; [lia|]. split; [intros H0; destruct bs; [auto | unfold len in H0; simpl in H0; lia]|].
      intros Hpos. split; [lia|].
      assert ((len bs + 254) / 255 = 1); [|lia].
      symmetry. apply (Z.div_unique _ _ 1 (len bs - 1)); lia.
Qed.

(** X5: [dump_bytes] on any block returns sub-blocks that, closed by the
    zero byte the caller appends, read back as the bytes of the block; it
    adds one length byte for every 255 bytes or part of them; and it
    leaves the block empty, ready for the next frame. *)
Theorem dump_bytes_layout (db : DataBlock.t) :
  let n := len (DataBlock._bitstream db) in
  read_blocks (length (fst (DataBlock.dump_bytes db) ++ [0]))
    (fst (DataBlock.dump_bytes db) ++ [0]) = Some (DataBlock._bitstream db) /\
  len (fst (DataBlock.dump_bytes db)) = n + (n + 254) / 255 /\
  snd (DataBlock.dump_bytes db) = DataBlock.__init__.
Proof.
  intros n. split; [exact (dump_bytes_decoded db [])|].
  unfold DataBlock.dump_bytes.
  pose proof (dump_loop_length (length (DataBlock._bitstream db)) (DataBlock._bitstream db) []
                ltac:(lia)) as H.
  cbv zeta in H. fold n in H.
  destruct (DataBlock.dump_loop _ _ _) as [r o]. simpl fst in *. simpl snd in *.
  destruct H as (H1 & H2 & H3). split; [|reflexivity].
  assert (Hn : 0 <= n) by (unfold n, len; lia).
  destruct (Z.eq_dec n 0) as [H0 | Hpos].
  - destruct (H2 H0) as [-> ->]. simpl. rewrite H0. reflexivity.
  - destruct H3 as [Hr Hsum]; [lia|].
    destruct (Z.ltb_spec 0 (len r)); [|lia]. simpl fst.
    unfold len in *. rewrite !length_app. simpl length in *. lia.
Qed.

(** ** What a call returns *)





(** ** The end code *)

(** X7: the end code can fall short of the decoder's code length.  The
    compressor writes it at the code length of the last pattern; when
    that pattern's code makes the decoder's table reach [2 ** code_length]
    entries the decoder reads one bit more, and for some inputs the
    stream has no bit left: all the symbols are decoded and the data end
    before an end code is read. *)
Theorem end_code_can_fall_short :
  exists input : list Z,
    input <> [] /\ Forall (in_alphabet 2) input /\
    Compression.__init__ 2 = Ok (Compression.mk DataBlock.__init__ 2 4 5 4096) /\
    decoded (Compression.mk DataBlock.__init__ 2 4 5 4096) (items (map Some input))
      = Ok (input, OutOfData).
Proof.
  exists [0; 1; 2; 3; 0; 1; 2; 3; 0; 1; 2; 3; 0; 1; 2; 3; 0; 1; 2].
  split; [discriminate|]. split.
  - repeat (apply Forall_cons; split; [unfold in_alphabet; simpl; lia|]). constructor.
  - split; [reflexivity|]. vm_compute. reflexivity.
Qed.

(** * The blocks of the file *)

(** ** Packing *)

Lemma pack_B_ok v : 0 <= v <= 255 -> pack_B v = Ok [v].
Proof.
  intros H. unfold pack_B. destruct (Z.leb_spec 0 v); [|lia].
  destruct (Z.leb_spec v 255); [reflexivity | lia].
Qed.

Lemma pack_B_raises v : ~ 0 <= v <= 255 -> pack_B v = Raise StructError.
Proof.
  intros H. unfold pack_B. destruct (Z.leb_spec 0 v); [|reflexivity].
  destruct (Z.leb_spec v 255); [lia | reflexivity].
Qed.

Lemma pack_H_ok v : 0 <= v <= 65535 -> pack_H v = Ok [v mod 256; v / 256].
Proof.
  intros H. unfold pack_H. destruct (Z.leb_spec 0 v); [|lia].
  destruct (Z.leb_spec v 65535); [reflexivity | lia].
Qed.

Lemma pack_H_raises v : ~ 0 <= v <= 65535 -> pack_H v = Raise StructError.
Proof.
  intros H. unfold pack_H. destruct (Z.leb_spec 0 v); [|reflexivity].
  destruct (Z.leb_spec v 65535); [lia | reflexivity].
Qed.

Lemma field_B v : field (pack_B v).
Proof.
  unfold field, pack_B. destruct ((0 <=? v) && (v <=? 255)); eauto.
Qed.

Lemma field_H v : field (pack_H v).
Proof.
  unfold field, pack_H. destruct ((0 <=? v) && (v <=? 65535)); eauto.
Qed.

Lemma field_Ok x : field (Ok x).
Proof. right. eauto. Qed.

Lemma concat_packed_raises parts :
  Forall field parts -> Exists (fun p => p = Raise StructError) parts ->
  concat_packed parts = Raise StructError.
Proof.
  intros Hall Hex. induction Hall as [|p parts Hp Hall IH]; [inversion Hex|].
  simpl. destruct Hp as [-> | [x ->]]; [reflexivity|].
  inversion Hex as [? ? Hbad | ? ? Hrest]; subst; [discriminate|].
  simpl. rewrite (IH Hrest). reflexivity.
Qed.

Create HintDb fields.
#[export] Hint Resolve field_B field_H field_Ok : fields.

Ltac all_fields := repeat (apply Forall_cons; split; [auto with fields|]); constructor.

(** X8: [image_descriptor] and [graphics_control_block] return exactly
    when every number fits its field (16 bits for the coordinates, the
    sizes and the delay, a byte for the flags and the transparent index),
    and raise the error of [struct.pack] otherwise; the bytes are the
    block label, the numbers least significant byte first, and for the
    control block the flag that tells whether a transparent index is
    given. *)
Theorem frame_blocks_layout (left top width height byte delay : Z)
    (trans_index : option Z) :
  let u16 v := 0 <= v <= 65535 in
  let u8 v := 0 <= v <= 255 in
  (u16 left /\ u16 top /\ u16 width /\ u16 height /\ u8 byte ->
   image_descriptor left top width height byte =
     Ok [44; left mod 256; left / 256; top mod 256; top / 256;
         width mod 256; width / 256; height mod 256; height / 256; byte]) /\
  (~ (u16 left /\ u16 top /\ u16 width /\ u16 height /\ u8 byte) ->
   image_descriptor left top width height byte = Raise StructError) /\
  (u16 delay /\ u8 (default 0 trans_index) ->
   graphics_control_block delay trans_index =
     Ok [33; 249; 4; 4 + match trans_index with Some _ => 1 | None => 0 end; delay mod 256; delay / 256;
         default 0 trans_index; 0]) /\
  (~ (u16 delay /\ u8 (default 0 trans_index)) ->
   graphics_control_block delay trans_index = Raise StructError).
Proof.
  intros u16 u8. unfold u16, u8.
  split; [|split; [|split]].
  - intros (Hl & Ht & Hw & Hh & Hb). unfold image_descriptor.
    rewrite !pack_H_ok, !pack_B_ok by lia. reflexivity.
  - intros Hbad. unfold image_descriptor. apply concat_packed_raises.
    + all_fields.
    + destruct (decide (0 <= left <= 65535)) as [Hl|Hl];
        [|apply Exists_cons_tl, Exists_cons_hd, pack_H_raises, Hl].
      destruct (decide (0 <= top <= 65535)) as [Ht|Ht];
        [|do 2 apply Exists_cons_tl; apply Exists_cons_hd, pack_H_raises, Ht].
      destruct (decide (0 <= width <= 65535)) as [Hw|Hw];
        [|do 3 apply Exists_cons_tl; apply Exists_cons_hd, pack_H_raises, Hw].
      destruct (decide (0 <= height <= 65535)) as [Hh|Hh];
        [|do 4 apply Exists_cons_tl; apply Exists_cons_hd, pack_H_raises, Hh].
      do 5 apply Exists_cons_tl. apply Exists_cons_hd, pack_B_raises. tauto.
  - intros (Hd & Ht). unfold graphics_control_block.
    destruct trans_index as [i|]; simpl in Ht |- *;
      rewrite pack_H_ok by lia; [rewrite (pack_B_ok i) by lia|]; reflexivity.
  - intros Hbad. unfold graphics_control_block.
    destruct trans_index as [i|]; simpl in Hbad;
      (apply concat_packed_raises; [all_fields|]).
    + destruct (decide (0 <= delay <= 65535)) as [Hd|Hd];
        [|do 4 apply Exists_cons_tl; apply Exists_cons_hd, pack_H_raises, Hd].
      do 5 apply Exists_cons_tl. apply Exists_cons_hd, pack_B_raises. tauto.
    + do 4 apply Exists_cons_tl. apply Exists_cons_hd, pack_H_raises. lia.
Qed.

(** * The surface *)

Lemma global_color_table_length cd palette table :
  global_color_table cd palette = Ok table ->
  0 <= cd /\ len table = 3 * 2 ^ cd.
Proof.
  unfold global_color_table. intros H.
  apply bind_inv in H as (p & Hp & H).
  apply bind_inv in H as (n & Hn & H).
  unfold shl in Hn. destruct (Z.ltb_spec cd 0); [discriminate|].
  injection Hn as <-. rewrite Z.shiftl_1_l in H. split; [assumption|].
  destruct (Z.ltb_spec (len p) (3 * 2 ^ cd)); [discriminate|].
  destruct (Z.ltb_spec (3 * 2 ^ cd) (len p)); injection H as <-.
  - unfold len in *. rewrite length_take. lia.
  - lia.
Qed.

Lemma rectangle_fields self l t w h color s :
  GIFSurface.rectangle self l t w h color = Ok s ->
  GIFSurface.size s = GIFSurface.size self /\ GIFSurface.loop s = GIFSurface.loop self /\
  GIFSurface.color_depth s = GIFSurface.color_depth self /\
  GIFSurface.palette s = GIFSurface.palette self /\
  GIFSurface._lzw_compress s = GIFSurface._lzw_compress self.
Proof.
  unfold GIFSurface.rectangle. intros H.
  apply bind_inv in H as (d & _ & H). apply bind_inv in H as (lzw & _ & H).
  apply bind_inv in H as ([data lzw'] & _ & [= <-]). repeat split.
Qed.

(** What [GIFSurface(...)] builds, when it builds a surface. *)
Lemma surface_init_fields w h cd pal loop bg mcl s :
  GIFSurface.__init__ w h cd pal loop bg mcl = Ok s ->
  GIFSurface.size s = (w, h) /\ GIFSurface.loop s = loop /\
  GIFSurface.color_depth s = cd /\ 0 <= cd /\ len (GIFSurface.palette s) = 3 * 2 ^ cd /\
  exists m, 2 <= m <= 12 /\
    GIFSurface._lzw_compress s = Compression.mk DataBlock.__init__ m (2 ^ m) (2 ^ m + 1) 4096.
Proof.
  unfold GIFSurface.__init__, isinstance_int. simpl negb. simpl andb. cbv iota.
  intros H. apply bind_inv in H as (p0 & _ & H).
  apply bind_inv in H as (p & Hp & H).
  apply bind_inv in H as (lzw & Hlzw & H).
  destruct (global_color_table_length _ _ _ Hp) as [Hcd Hlen].
  set (m := Z.max 2 (Z.min 12 _)) in Hlzw.
  destruct (init_compressor m lzw Hlzw) as (_ & Hc & Hstream).
  assert (Hfields : forall s0, s0 = GIFSurface.mk (w, h) loop [] cd p lzw \/
            (exists l t w' h' color, GIFSurface.rectangle
               (GIFSurface.mk (w, h) loop [] cd p lzw) l t w' h' color = Ok s0) ->
            GIFSurface.size s0 = (w, h) /\ GIFSurface.loop s0 = loop /\
            GIFSurface.color_depth s0 = cd /\ GIFSurface.palette s0 = p /\
            GIFSurface._lzw_compress s0 = lzw).
  { intros s0 [-> | (l & t & w' & h' & color & Hr)]; [repeat split|].
    apply rectangle_fields in Hr. exact Hr. }
  destruct (Hfields s) as (H1 & H2 & H3 & H4 & H5).
  { destruct bg as [color|]; [right; eauto 10 | left; congruence]. }
  rewrite H1, H2, H3, H4, H5. repeat split; try assumption.
  exists m. split; [unfold m; lia|]. exact (compressor_eq lzw m Hc Hstream).
Qed.

Lemma packed_byte cd :
  1 <= cd <= 8 ->
  let byte := Z.lor (Z.lor 128 (cd - 1)) (Z.shiftl (cd - 1) 4) in
  0 <= byte <= 255 /\ Z.testbit byte 7 = true /\ Z.land byte 7 = cd - 1 /\
  Z.land (Z.shiftr byte 4) 7 = cd - 1.
Proof.
  intros H.
  assert (Hc : cd = 1 \/ cd = 2 \/ cd = 3 \/ cd = 4 \/ cd = 5 \/ cd = 6 \/ cd = 7 \/ cd = 8)
    by lia.
  destruct Hc as [-> | [-> | [-> | [-> | [-> | [-> | [-> | ->]]]]]]]; cbv; repeat split;
    discriminate.
Qed.

(** X9: for a surface that [GIFSurface(...)] has built with a colour
    depth in 1..8 and a size and a loop count that fit 16 bits, the header
    is the signature [GIF89a], the size, a packed byte, two zero bytes,
    the palette and the loop block; the packed byte has the flag of a
    global colour table and declares, in its three low bits (and again in
    bits 4..6), exactly the number of colours the palette holds. *)
Theorem header_declares_palette (w h cd loop : Z) (pal : option (list Z))
    (bg mcl : option Z) (s : GIFSurface.t) :
  GIFSurface.__init__ w h cd pal loop bg mcl = Ok s ->
  1 <= cd <= 8 -> 0 <= w <= 65535 -> 0 <= h <= 65535 -> 0 <= loop <= 65535 ->
  exists byte,
    GIFSurface._gif_header s =
      Ok ([71; 73; 70; 56; 57; 97; w mod 256; w / 256; h mod 256; h / 256; byte; 0; 0]
          ++ GIFSurface.palette s
          ++ [33; 255; 11; 78; 69; 84; 83; 67; 65; 80; 69; 50; 46; 48; 3; 1;
              loop mod 256; loop / 256; 0]) /\
    Z.testbit byte 7 = true /\
    len (GIFSurface.palette s) = 3 * 2 ^ (Z.land byte 7 + 1) /\
    Z.land (Z.shiftr byte 4) 7 = Z.land byte 7.
Proof.
  intros Hinit Hcd Hw Hh Hloop.
  destruct (surface_init_fields _ _ _ _ _ _ _ _ Hinit) as (Hsize & Hl & Hdepth & _ & Hlen & _).
  destruct (packed_byte cd Hcd) as (Hbyte & Hflag & Hlow & Hhigh).
  set (byte := Z.lor (Z.lor 128 (cd - 1)) (Z.shiftl (cd - 1) 4)) in *.
  exists byte. split.
  - unfold GIFSurface._gif_header, screen_descriptor, loop_control_block.
    rewrite Hsize, Hl, Hdepth. simpl fst. simpl snd. fold byte.
    rewrite !pack_H_ok, !pack_B_ok by lia. reflexivity.
  - split; [assumption|]. rewrite Hlow, Hhigh, Hlen. split; [|reflexivity].
    replace (cd - 1 + 1) with cd by lia. reflexivity.
Qed.

Lemma header_declares_palette_witness :
  exists byte,
    GIFSurface._gif_header example_surface =
      Ok ([71; 73; 70; 56; 57; 97; 10 mod 256; 10 / 256; 10 mod 256; 10 / 256; byte; 0; 0]
          ++ GIFSurface.palette example_surface
          ++ [33; 255; 11; 78; 69; 84; 83; 67; 65; 80; 69; 50; 46; 48; 3; 1;
              0 mod 256; 0 / 256; 0]) /\
    Z.testbit byte 7 = true /\
    len (GIFSurface.palette example_surface) = 3 * 2 ^ (Z.land byte 7 + 1) /\
    Z.land (Z.shiftr byte 4) 7 = Z.land byte 7.
Proof.
  apply (header_declares_palette 10 10 2 0 None None None example_surface).
  - reflexivity.
  - lia.
  - lia.
  - lia.
  - lia.
Defined.

Lemma write_all_io s chunks :
  foldl GIFSurface.write s chunks =
    GIFSurface.mk (GIFSurface.size s) (GIFSurface.loop s) (GIFSurface._io s ++ chunks)
      (GIFSurface.color_depth s) (GIFSurface.palette s) (GIFSurface._lzw_compress s).
Proof.
  revert s. induction chunks as [|c chunks IH]; intros s; simpl.
  - rewrite app_nil_r. destruct s; reflexivity.
  - rewrite IH. simpl. rewrite <- app_assoc. reflexivity.
Qed.

(** X10: the file [save] writes is the header, then every chunk written
    to the surface, in the order of the writes, then the trailer byte
    [0x3B]; it exists exactly when the header can be packed. *)
Theorem save_layout (s : GIFSurface.t) (chunks : list (list Z)) :
  GIFSurface.save (foldl GIFSurface.write s chunks) =
    match GIFSurface._gif_header s with
    | Ok header => Ok (header ++ GIFSurface.getvalue s ++ concat chunks ++ [59])
    | Raise e => Raise e
    end.
Proof.
  rewrite write_all_io. unfold GIFSurface.save, GIFSurface._gif_header, GIFSurface.getvalue.
  simpl. destruct (screen_descriptor _ _ _) as [screen|e]; [|reflexivity]. simpl bind.
  destruct (loop_control_block _) as [loop|e]; [|reflexivity]. simpl bind.
  rewrite concat_app, <- !app_assoc. reflexivity.
Qed.

(** X11: [set_lzw_compress(n)] never fails: it clamps [n] to 2..12 and
    builds the compressor of the clamped length, the one of 12 included. *)
Theorem set_lzw_compress_clamps (self : GIFSurface.t) (n : Z) :
  exists m,
    2 <= m <= 12 /\ (2 <= n <= 12 -> m = n) /\ (n < 2 -> m = 2) /\ (12 < n -> m = 12) /\
    GIFSurface.set_lzw_compress self n =
      Ok (GIFSurface.mk (GIFSurface.size self) (GIFSurface.loop self) (GIFSurface._io self)
            (GIFSurface.color_depth self) (GIFSurface.palette self)
            (Compression.mk DataBlock.__init__ m (2 ^ m) (2 ^ m + 1) 4096)).
Proof.
  exists (Z.max 2 (Z.min 12 n)). split; [lia|]. split; [lia|]. split; [lia|]. split; [lia|].
  unfold GIFSurface.set_lzw_compress, Compression.__init__, isinstance_int, shl.
  simpl negb. simpl andb. cbv iota.
  destruct (Z.ltb_spec (Z.max 2 (Z.min 12 n)) 0); [lia|].
  simpl bind. rewrite Z.shiftl_1_l. reflexivity.
Qed.

(** ** Painting a rectangle *)

Lemma call_first_bad self st0 s rest :
  Compression.enter self = Ok st0 ->
  Compression.code_table st0 !! [s] = None ->
  Compression.__call__ self (items (s :: rest)) = Raise KeyError.
Proof.
  intros Henter Hs. unfold Compression.__call__. rewrite Henter. simpl bind.
  unfold Compression.enter in Henter.
  apply bind_inv in Henter as (n & Hn & Henter).
  apply bind_inv in Henter as (s0 & _ & [= <-]).
  simpl. simpl in Hs. rewrite (first_turn self n s0 s Hs). reflexivity.
Qed.

Lemma image_descriptor_sizes l t w h b d :
  image_descriptor l t w h b = Ok d -> 0 <= w /\ 0 <= h.
Proof.
  intros H. unfold image_descriptor in H.
  assert (Hex : ~ Exists (fun p => p = Raise StructError)
                    [pack_B 44; pack_H l; pack_H t; pack_H w; pack_H h; pack_B b]).
  { intros Hex. rewrite concat_packed_raises in H; [discriminate | all_fields | exact Hex]. }
  destruct (decide (0 <= w <= 65535)) as [Hw|Hw].
  - destruct (decide (0 <= h <= 65535)) as [Hh|Hh]; [lia|].
    exfalso. apply Hex.
    do 4 apply Exists_cons_tl. apply Exists_cons_hd, pack_H_raises, Hh.
  - exfalso. apply Hex.
    do 3 apply Exists_cons_tl. apply Exists_cons_hd, pack_H_raises, Hw.
Qed.

(** X12: [rectangle] always compresses with [Compression(2)], whatever
    the colour depth of the surface.  When the descriptor can be packed,
    a rectangle of at least one pixel in a colour 0..3 is written as one
    chunk, the descriptor and data that decode to [width * height] times
    the colour; a colour index outside 0..3, or a rectangle with no pixel,
    raises [KeyError] and nothing is written. *)
Theorem rectangle_paints (self : GIFSurface.t) (left top width height color : Z)
    (descriptor : list Z) :
  image_descriptor left top width height 0 = Ok descriptor ->
  (1 <= width * height /\ 0 <= color < 4 ->
   exists data outcome,
     GIFSurface.rectangle self left top width height color
       = Ok (GIFSurface.write self (descriptor ++ data)) /\
     Decoder.decode data = (replicate (Z.to_nat (width * height)) color, outcome)) /\
  (~ (1 <= width * height /\ 0 <= color < 4) ->
   GIFSurface.rectangle self left top width height color = Raise KeyError).
Proof.
  intros Hd. destruct (image_descriptor_sizes _ _ _ _ _ _ Hd) as [Hw Hh].
  set (c2 := Compression.mk DataBlock.__init__ 2 4 5 4096).
  assert (Hinit : Compression.__init__ 2 = Ok c2) by reflexivity.
  assert (Hn : (Z.to_nat width * Z.to_nat height)%nat = Z.to_nat (width * height))
    by (rewrite Z2Nat.inj_mul by assumption; reflexivity).
  unfold GIFSurface.rectangle. rewrite Hd, Hinit. simpl bind. rewrite Hn.
  split.
  - intros [Hpix Hcolor].
    assert (Hitems : items (replicate (Z.to_nat (width * height)) (Some color))
                     = items (map Some (replicate (Z.to_nat (width * height)) color))).
    { f_equal. symmetry. apply (fmap_replicate Some). }
    destruct (call_decodes 2 c2 (replicate (Z.to_nat (width * height)) color))
      as (st & bytes & _ & Hcall & Hdec).
    + lia.
    + repeat split.
    + reflexivity.
    + destruct (Z.to_nat (width * height)) eqn:E; [lia | discriminate].
    + apply Forall_replicate. unfold in_alphabet. simpl. lia.
    + exists bytes, (end_of_run st). rewrite Hitems, Hcall. simpl bind.
      split; [reflexivity | exact Hdec].
  - intros Hbad.
    destruct (Z.to_nat (width * height)) as [|n] eqn:E.
    + reflexivity.
    + simpl replicate.
      rewrite (call_first_bad c2 _ (Some color) (replicate n (Some color)) eq_refl);
        [reflexivity|].
      simpl Compression.code_table.
      destruct (Compression.single_codes _ !! [Some color]) as [k|] eqn:Hk; [|reflexivity].
      apply single_codes_lookup in Hk as [Hk [= ->]]. simpl in Hk.
      rewrite Z.shiftl_1_l in Hk. exfalso. apply Hbad. change (2 ^ 2) with 4 in Hk. lia.
Qed.

Lemma rectangle_paints_witness :
  (1 <= 2 * 2 /\ 0 <= 1 < 4 ->
   exists data outcome,
     GIFSurface.rectangle example_surface 0 0 2 2 1
       = Ok (GIFSurface.write example_surface ([44; 0; 0; 0; 0; 2; 0; 2; 0; 0] ++ data)) /\
     Decoder.decode data = (replicate (Z.to_nat (2 * 2)) 1, outcome)) /\
  (~ (1 <= 2 * 2 /\ 0 <= 1 < 4) ->
   GIFSurface.rectangle example_surface 0 0 2 2 1 = Raise KeyError).
Proof. apply (rectangle_paints example_surface 0 0 2 2 1). reflexivity. Defined.

(** * The maze *)

(** ** Indexing *)

Lemma norm_index_inv n i k :
  norm_index n i = Ok k ->
  (k < n)%nat /\ (Z.of_nat k = i \/ Z.of_nat k = i + Z.of_nat n) /\
  - Z.of_nat n <= i < Z.of_nat n.
Proof.
  unfold norm_index.
  destruct (Z.leb_spec 0 i), (Z.ltb_spec i (Z.of_nat n)); simpl;
    try (intros [= <-]; lia);
    destruct (Z.leb_spec (- Z.of_nat n) i), (Z.ltb_spec i 0); simpl;
    try discriminate; intros [= <-]; lia.
Qed.

Lemma norm_index_range n i :
  - Z.of_nat n <= i < Z.of_nat n -> exists k, norm_index n i = Ok k.
Proof.
  intros H. unfold norm_index.
  destruct (Z.leb_spec 0 i), (Z.ltb_spec i (Z.of_nat n)); simpl; eauto; try lia.
  destruct (Z.leb_spec (- Z.of_nat n) i), (Z.ltb_spec i 0); simpl; eauto; lia.
Qed.

Lemma norm_index_raises n i :
  ~ - Z.of_nat n <= i < Z.of_nat n -> norm_index n i = Raise IndexError.
Proof.
  intros H. unfold norm_index.
  destruct (Z.leb_spec 0 i), (Z.ltb_spec i (Z.of_nat n)); simpl; try lia;
    destruct (Z.leb_spec (- Z.of_nat n) i), (Z.ltb_spec i 0); simpl; try lia; reflexivity.
Qed.

Lemma list_get_norm {A} (l : list A) i k :
  norm_index (length l) i = Ok k -> exists a, l !! k = Some a /\ list_get l i = Ok a.
Proof.
  intros Hk. destruct (norm_index_inv _ _ _ Hk) as (Hlt & _).
  destruct (lookup_lt_is_Some_2 l k Hlt) as [a Ha].
  exists a. split; [assumption|]. unfold list_get. rewrite Hk. simpl. rewrite Ha. reflexivity.
Qed.

Lemma get_cell_position m cell :
  Maze.get_cell m cell =
    bind (position m cell) (fun p =>
      match at_position m p with Some v => Ok v | None => Raise IndexError end).
Proof.
  destruct cell as [x y]. unfold Maze.get_cell, position, at_position, list_get. simpl fst.
  simpl snd. destruct (norm_index (length (Maze._grid m)) x) as [i|e]; [|reflexivity].
  simpl bind. destruct (Maze._grid m !! i) as [column|] eqn:Hc; [|reflexivity].
  simpl bind. destruct (norm_index (length column) y) as [j|e]; [|reflexivity].
  simpl. rewrite Hc. reflexivity.
Qed.

Lemma mark_cell_position m cell v :
  Maze.mark_cell m cell v =
    bind (position m cell) (fun p =>
      Ok (Maze.mk (Maze.size m)
            (alter (fun column => <[snd p := v]> column) (fst p) (Maze._grid m))
            (Maze._num_changes m + 1)
            match Maze._frame_box m with
            | Some (l, t, r, b) =>
                Some (Z.min (fst cell) l, Z.min (snd cell) t,
                      Z.max (fst cell) r, Z.max (snd cell) b)
            | None => Some (fst cell, snd cell, fst cell, snd cell)
            end)).
Proof.
  destruct cell as [x y]. unfold Maze.mark_cell, position, list_get, list_set. simpl fst.
  simpl snd. destruct (norm_index (length (Maze._grid m)) x) as [i|e] eqn:Hi; [|reflexivity].
  simpl bind. destruct (Maze._grid m !! i) as [column|] eqn:Hc; [|reflexivity].
  simpl bind. destruct (norm_index (length column) y) as [j|e]; [|reflexivity].
  simpl bind. f_equal. f_equal.
  apply list_eq. intros k. destruct (decide (k = i)) as [-> | Hne].
  - rewrite list_lookup_insert_eq by (apply lookup_lt_is_Some; eauto).
    rewrite list_lookup_alter_eq, Hc. reflexivity.
  - rewrite list_lookup_insert_ne, list_lookup_alter_ne by congruence. reflexivity.
Qed.

Lemma position_inv m cell p :
  position m cell = Ok p ->
  exists column, Maze._grid m !! fst p = Some column /\ (snd p < length column)%nat /\
    norm_index (length (Maze._grid m)) (fst cell) = Ok (fst p) /\
    norm_index (length column) (snd cell) = Ok (snd p).
Proof.
  unfold position. intros H. apply bind_inv in H as (i & Hi & H).
  destruct (Maze._grid m !! i) as [column|] eqn:Hc; [|discriminate].
  apply bind_inv in H as (j & Hj & [= <-]). exists column. simpl.
  destruct (norm_index_inv _ _ _ Hj) as (Hlt & _). auto.
Qed.

(** A mark changes no length, so every cell denotes the position it
    denoted before. *)
Lemma position_marked m p0 v cell :
  position (Maze.mk (Maze.size m)
              (alter (fun column => <[snd p0 := v]> column) (fst p0) (Maze._grid m))
              (Maze._num_changes m + 1) None) cell = position m cell.
Proof.
  unfold position. simpl Maze._grid. rewrite length_alter.
  destruct (norm_index (length (Maze._grid m)) (fst cell)) as [i|e]; [|reflexivity].
  simpl bind. destruct (decide (i = fst p0)) as [-> | Hne].
  - rewrite list_lookup_alter_eq. destruct (Maze._grid m !! fst p0) as [column|]; [|reflexivity].
    simpl. rewrite length_insert. reflexivity.
  - rewrite list_lookup_alter_ne by congruence. reflexivity.
Qed.

Lemma position_frame_box m g n b b' cell :
  position (Maze.mk (Maze.size m) g n b) cell = position (Maze.mk (Maze.size m) g n b') cell.
Proof. reflexivity. Qed.

Lemma at_position_marked m p0 v b p :
  is_Some (at_position m p0) ->
  at_position (Maze.mk (Maze.size m)
                 (alter (fun column => <[snd p0 := v]> column) (fst p0) (Maze._grid m))
                 (Maze._num_changes m + 1) b) p
  = if decide (p = p0) then Some v else at_position m p.
Proof.
  intros [v0 Hv0]. unfold at_position in *. simpl Maze._grid.
  destruct p as [i j], p0 as [i0 j0]. simpl fst in *. simpl snd in *.
  destruct (Maze._grid m !! i0) as [column0|] eqn:Hc0; [|discriminate]. simpl in Hv0.
  destruct (decide (i = i0)) as [-> | Hi].
  - rewrite list_lookup_alter_eq, Hc0. simpl.
    destruct (decide (j = j0)) as [-> | Hj].
    + rewrite decide_True by reflexivity.
      apply list_lookup_insert_eq. apply lookup_lt_is_Some. eauto.
    + rewrite decide_False by congruence. apply list_lookup_insert_ne. congruence.
  - rewrite decide_False by congruence. rewrite list_lookup_alter_ne by congruence. reflexivity.
Qed.

Lemma position_is_Some m cell p : position m cell = Ok p -> is_Some (at_position m p).
Proof.
  intros H. destruct (position_inv m cell p H) as (column & Hc & Hlt & _).
  unfold at_position. rewrite Hc. simpl. apply lookup_lt_is_Some. assumption.
Qed.

(** What a mark leaves: the lemma behind the statements on [mark_cell]. *)
Lemma mark_cell_spec m cell v m' :
  Maze.mark_cell m cell v = Ok m' ->
  exists p, position m cell = Ok p /\
    (forall c, position m' c = position m c) /\
    (forall q, at_position m' q = if decide (q = p) then Some v else at_position m q) /\
    Maze.size m' = Maze.size m /\ Maze._num_changes m' = Maze._num_changes m + 1.
Proof.
  rewrite mark_cell_position. intros H. apply bind_inv in H as (p & Hp & [= <-]).
  exists p. split; [assumption|]. split.
  - intros c. etransitivity; [apply position_frame_box with (b' := None)|].
    apply position_marked.
  - split; [|split; reflexivity]. intros q.
    apply at_position_marked. exact (position_is_Some m cell p Hp).
Qed.

(** X13: a mark can be read back.  After [mark_cell(cell, value)],
    [get_cell] returns the value at that cell and at every cell that
    denotes the same position (an index may count from the far edge), and
    returns what it returned before, a value or [IndexError], at every
    other cell; the size is unchanged and one more change is counted. *)
Theorem mark_cell_get_cell (m m' : Maze.t) (cell : Z * Z) (v : Z) :
  Maze.mark_cell m cell v = Ok m' ->
  Maze.get_cell m' cell = Ok v /\
  (forall c, position m c = position m cell -> Maze.get_cell m' c = Ok v) /\
  (forall c, position m c <> position m cell -> Maze.get_cell m' c = Maze.get_cell m c) /\
  Maze.size m' = Maze.size m /\ Maze.num_changes m' = Maze.num_changes m + 1.
Proof.
  intros H. destruct (mark_cell_spec m cell v m' H) as (p & Hp & Hpos & Hat & Hsize & Hn).
  assert (Hsame : forall c, position m c = position m cell -> Maze.get_cell m' c = Ok v).
  { intros c Hc. rewrite get_cell_position, Hpos, Hc, Hp. simpl bind.
    rewrite Hat, decide_True by reflexivity. reflexivity. }
  split; [apply Hsame; reflexivity|]. split; [exact Hsame|]. split; [|split; assumption].
  intros c Hc. rewrite !get_cell_position, Hpos.
  destruct (position m c) as [q|e]; [|reflexivity]. simpl bind.
  rewrite Hat, decide_False by congruence. reflexivity.
Qed.

Lemma mark_cell_get_cell_witness :
  Maze.get_cell example_marked_maze (2, 3) = Ok 1 /\
  (forall c, position (Maze.reset example_maze) c = position (Maze.reset example_maze) (2, 3) ->
             Maze.get_cell example_marked_maze c = Ok 1) /\
  (forall c, position (Maze.reset example_maze) c <> position (Maze.reset example_maze) (2, 3) ->
             Maze.get_cell example_marked_maze c = Maze.get_cell (Maze.reset example_maze) c) /\
  Maze.size example_marked_maze = Maze.size (Maze.reset example_maze) /\
  Maze.num_changes example_marked_maze = Maze.num_changes (Maze.reset example_maze) + 1.
Proof.
  apply (mark_cell_get_cell (Maze.reset example_maze) example_marked_maze (2, 3) 1).
  reflexivity.
Defined.

(** ** The shape of the grid *)

Lemma init_shaped w h m : Maze.__init__ w h = Ok m -> shaped m /\ Maze.size m = (w, h).
Proof.
  unfold Maze.__init__. destruct ((w * h) mod 2 =? 0); [discriminate|]. intros [= <-].
  split; [|reflexivity]. split; simpl.
  - apply length_replicate.
  - intros i column Hc. apply lookup_replicate in Hc as [-> _]. apply length_replicate.
Qed.

Lemma mark_cell_shaped m cell v m' :
  Maze.mark_cell m cell v = Ok m' -> shaped m -> shaped m'.
Proof.
  rewrite mark_cell_position. intros H [Hcols Hrows].
  apply bind_inv in H as (p & _ & [= <-]). split; simpl.
  - rewrite length_alter. assumption.
  - intros i column Hc. destruct (decide (i = fst p)) as [-> | Hne].
    + rewrite list_lookup_alter_eq in Hc.
      destruct (Maze._grid m !! fst p) as [c0|] eqn:Hc0; [|discriminate].
      injection Hc as <-. rewrite length_insert. exact (Hrows _ _ Hc0).
    + rewrite list_lookup_alter_ne in Hc by congruence. exact (Hrows _ _ Hc).
Qed.

Lemma mark_cells_shaped marks : forall m m',
  mark_cells m marks = Ok m' -> shaped m -> shaped m' /\ Maze.size m' = Maze.size m.
Proof.
  induction marks as [|[cell v] marks IH]; intros m m' H Hs.
  - injection H as <-. auto.
  - simpl in H. apply bind_inv in H as (m1 & H1 & H).
    destruct (IH m1 m' H (mark_cell_shaped _ _ _ _ H1 Hs)) as [Hs' Hsize].
    split; [assumption|]. rewrite Hsize.
    destruct (mark_cell_spec _ _ _ _ H1) as (_ & _ & _ & _ & Hsz & _). exact Hsz.
Qed.

Lemma position_in_range m w h x y :
  shaped m -> Maze.size m = (w, h) -> - w <= x < w -> - h <= y < h ->
  exists p, position m (x, y) = Ok p.
Proof.
  intros [Hcols Hrows] Hsize Hx Hy. rewrite Hsize in *. simpl fst in *. simpl snd in *.
  unfold position. simpl fst. simpl snd.
  destruct (norm_index_range (length (Maze._grid m)) x) as [i Hi]; [lia|].
  rewrite Hi. simpl bind.
  destruct (norm_index_inv _ _ _ Hi) as (Hlt & _).
  destruct (lookup_lt_is_Some_2 _ _ Hlt) as [column Hc]. rewrite Hc.
  destruct (norm_index_range (length column) y) as [j Hj]; [rewrite (Hrows _ _ Hc); lia|].
  rewrite Hj. simpl. eauto.
Qed.

Lemma position_out_of_range m w h x y :
  shaped m -> Maze.size m = (w, h) -> ~ (- w <= x < w /\ - h <= y < h) ->
  position m (x, y) = Raise IndexError.
Proof.
  intros [Hcols Hrows] Hsize Hout. rewrite Hsize in *. simpl fst in *. simpl snd in *.
  unfold position. simpl fst. simpl snd.
  destruct (decide (- w <= x < w)) as [Hx | Hx].
  - destruct (norm_index_range (length (Maze._grid m)) x) as [i Hi]; [lia|].
    rewrite Hi. simpl bind.
    destruct (Maze._grid m !! i) as [column|] eqn:Hc; [|reflexivity].
    rewrite norm_index_raises; [reflexivity|]. rewrite (Hrows _ _ Hc). lia.
  - rewrite norm_index_raises; [reflexivity|]. lia.
Qed.

(** X14: on the grid of a maze that [Maze(width, height, None)] has built
    and any marks have changed, [mark_cell] and [get_cell] return exactly
    for the cells with [-width <= x < width] and [-height <= y < height]
    (a negative index counts from the far edge) and raise [IndexError]
    for every other cell. *)
Theorem cell_index_error (w h x y v : Z) (m0 m : Maze.t) (marks : list (Z * Z * Z)) :
  Maze.__init__ w h = Ok m0 -> mark_cells m0 marks = Ok m ->
  (- w <= x < w /\ - h <= y < h ->
   (exists m', Maze.mark_cell m (x, y) v = Ok m') /\
   (exists u, Maze.get_cell m (x, y) = Ok u)) /\
  (~ (- w <= x < w /\ - h <= y < h) ->
   Maze.mark_cell m (x, y) v = Raise IndexError /\
   Maze.get_cell m (x, y) = Raise IndexError).
Proof.
  intros Hinit Hmarks. destruct (init_shaped w h m0 Hinit) as [Hs0 Hsize0].
  destruct (mark_cells_shaped marks m0 m Hmarks Hs0) as [Hs Hsize].
  rewrite Hsize0 in Hsize. rewrite mark_cell_position, get_cell_position. split.
  - intros [Hx Hy]. destruct (position_in_range m w h x y Hs Hsize Hx Hy) as [p Hp].
    rewrite Hp. simpl bind. split; [eauto|].
    destruct (position_is_Some m (x, y) p Hp) as [u Hu]. rewrite Hu. eauto.
  - intros Hout. rewrite (position_out_of_range m w h x y Hs Hsize Hout). split; reflexivity.
Qed.

Lemma cell_index_error_witness :
  (- 5 <= -1 < 5 /\ - 5 <= 4 < 5 ->
   (exists m', Maze.mark_cell example_marked_maze (-1, 4) 2 = Ok m') /\
   (exists u, Maze.get_cell example_marked_maze (-1, 4) = Ok u)) /\
  (~ (- 5 <= -1 < 5 /\ - 5 <= 4 < 5) ->
   Maze.mark_cell example_marked_maze (-1, 4) 2 = Raise IndexError /\
   Maze.get_cell example_marked_maze (-1, 4) = Raise IndexError).
Proof.
  apply (cell_index_error 5 5 (-1) 4 2 example_maze example_marked_maze [((2, 3), 1)]);
    reflexivity.
Defined.

(** ** A new maze *)

Lemma odd_product w h : (w * h) mod 2 = 0 <-> ~ (Z.odd w = true /\ Z.odd h = true).
Proof.
  rewrite Z.mul_mod by lia. rewrite !Zmod_odd.
  destruct (Z.odd w), (Z.odd h); cbv; intuition congruence.
Qed.

(** X15: [Maze(width, height, None)] is built exactly when the width and
    the height are both odd, and raises [ValueError] otherwise.  The maze
    built has that size, no change counted, no dirty rectangle, and a
    wall at every cell of the grid. *)
Theorem maze_init_odd (w h : Z) :
  (Z.odd w = true /\ Z.odd h = true ->
   exists m, Maze.__init__ w h = Ok m /\ Maze.size m = (w, h) /\
     Maze.num_changes m = 0 /\ Maze.frame_box m = None /\
     forall x y, 0 <= x < w -> 0 <= y < h -> Maze.is_wall m (x, y) = Ok true) /\
  (~ (Z.odd w = true /\ Z.odd h = true) ->
   Maze.__init__ w h
     = Raise (ValueError "The width and height must both be odd integers.")).
Proof.
  pose proof (odd_product w h) as Hodd. unfold Maze.__init__. split.
  - intros Hwh. destruct (Z.eqb_spec ((w * h) mod 2) 0) as [He | Hne]; [tauto|].
    eexists. split; [reflexivity|]. repeat split.
    intros x y Hx Hy. unfold Maze.is_wall, Maze.get_cell, list_get. simpl Maze._grid.
    rewrite !length_replicate. unfold norm_index.
    destruct (Z.leb_spec 0 x); [|lia]. destruct (Z.ltb_spec x (Z.of_nat (Z.to_nat w))); [|lia].
    simpl. rewrite lookup_replicate_2 by lia. simpl.
    rewrite length_replicate.
    destruct (Z.leb_spec 0 y); [|lia]. destruct (Z.ltb_spec y (Z.of_nat (Z.to_nat h))); [|lia].
    simpl. rewrite lookup_replicate_2 by lia. reflexivity.
  - intros Hwh. destruct (Z.eqb_spec ((w * h) mod 2) 0) as [He | Hne]; [reflexivity|tauto].
Qed.

(** ** The graph of the cells *)

Lemma in_range_by_2 n x : In x (range_by_2 n) <-> 0 <= x < n /\ x mod 2 = 0.
Proof.
  unfold range_by_2. rewrite in_map_iff. split.
  - intros (k & <- & Hk). apply list_elem_of_In, elem_of_seqZ in Hk.
    split; [|rewrite Z.mul_comm; apply Z.mod_mul; lia].
    Z.div_mod_to_equations. lia.
  - intros [Hx Hm]. exists (x / 2). split; [Z.div_mod_to_equations; lia|].
    apply list_elem_of_In, elem_of_seqZ. Z.div_mod_to_equations. lia.
Qed.

Lemma in_cells m x y :
  In (x, y) (Maze.cells m) <->
  0 <= x < fst (Maze.size m) /\ 0 <= y < snd (Maze.size m) /\ x mod 2 = 0 /\ y mod 2 = 0.
Proof.
  unfold Maze.cells. rewrite in_flat_map. split.
  - intros (y0 & Hy & Hx). apply in_map_iff in Hx as (x0 & [= <- <-] & Hx).
    apply in_range_by_2 in Hx, Hy. tauto.
  - intros (Hx & Hy & Hxm & Hym). exists y. split; [apply in_range_by_2; tauto|].
    apply in_map_iff. exists x. split; [reflexivity | apply in_range_by_2; tauto].
Qed.

Lemma in_neighborhood m x y n :
  In n (Maze.neighborhood m (x, y)) <->
  (n = (x - 2, y) /\ 2 <= x) \/ (n = (x, y - 2) /\ 2 <= y) \/
  (n = (x + 2, y) /\ x <= fst (Maze.size m) - 3) \/
  (n = (x, y + 2) /\ y <= snd (Maze.size m) - 3).
Proof.
  unfold Maze.neighborhood. destruct (Maze.size m) as [w h]. simpl fst. simpl snd.
  rewrite !in_app_iff.
  destruct (Z.leb_spec 2 x), (Z.leb_spec 2 y), (Z.leb_spec x (w - 3)), (Z.leb_spec y (h - 3));
    simpl; intuition (try congruence; try lia).
Qed.

Lemma get_neighbors_inv m c ns :
  Maze.get_neighbors m c = Ok ns -> In c (Maze.cells m) /\ ns = Maze.neighborhood m c.
Proof.
  unfold Maze.get_neighbors. destruct (bool_decide_reflect (c ∈ Maze.cells m)) as [Hc | Hc];
    [|discriminate].
  intros [= <-]. split; [apply list_elem_of_In, Hc | reflexivity].
Qed.

Lemma get_neighbors_cell m c :
  In c (Maze.cells m) -> Maze.get_neighbors m c = Ok (Maze.neighborhood m c).
Proof.
  intros Hc. unfold Maze.get_neighbors. rewrite bool_decide_eq_true_2; [reflexivity|].
  apply list_elem_of_In, Hc.
Qed.

(** X16: the graph [__init__] builds with no mask is the grid graph of
    the cells with even coordinates.  Every neighbour of a cell is a cell
    two steps away, and has the cell among its own neighbours; the
    position between them, the one [mark_space] marks, lies inside the
    grid, one step from each, and is not a cell. *)
Theorem neighbors_symmetric (m : Maze.t) (c n : Z * Z) (ns : list (Z * Z)) :
  Maze.get_neighbors m c = Ok ns -> In n ns ->
  (exists ns', Maze.get_neighbors m n = Ok ns' /\ In c ns') /\
  manhattan c n = 2 /\
  let space := ((fst c + fst n) / 2, (snd c + snd n) / 2) in
  0 <= fst space < fst (Maze.size m) /\ 0 <= snd space < snd (Maze.size m) /\
  ~ In space (Maze.cells m) /\ manhattan c space = 1 /\ manhattan space n = 1.
Proof.
  intros Hns Hn. apply get_neighbors_inv in Hns as [Hc ->].
  destruct c as [x y]. apply in_cells in Hc as (Hx & Hy & Hxm & Hym).
  apply in_neighborhood in Hn.
  assert (Hmid : forall a, a mod 2 = 0 -> (a + (a - 2)) / 2 = a - 1 /\
                 (a + (a + 2)) / 2 = a + 1 /\ (a + a) / 2 = a /\
                 (a - 1) mod 2 <> 0 /\ (a + 1) mod 2 <> 0 /\
                 (a - 2) mod 2 = 0 /\ (a + 2) mod 2 = 0).
  { intros a Ha. repeat split; Z.div_mod_to_equations; lia. }
  destruct (Hmid x Hxm) as (Hx1 & Hx2 & Hx3 & Hx4 & Hx5 & Hx6 & Hx7).
  destruct (Hmid y Hym) as (Hy1 & Hy2 & Hy3 & Hy4 & Hy5 & Hy6 & Hy7).
  destruct Hn as [[-> H] | [[-> H] | [[-> H] | [-> H]]]]; unfold manhattan; simpl fst;
    simpl snd; rewrite ?Hx1, ?Hx2, ?Hx3, ?Hy1, ?Hy2, ?Hy3.
  - split.
    { exists (Maze.neighborhood m (x - 2, y)). split.
      - apply get_neighbors_cell, in_cells. repeat split; try assumption; lia.
      - apply in_neighborhood. right. right. left. split; [f_equal; lia | lia]. }
    split; [lia|]. repeat split; try lia. rewrite in_cells. simpl. tauto.
  - split.
    { exists (Maze.neighborhood m (x, y - 2)). split.
      - apply get_neighbors_cell, in_cells. repeat split; try assumption; lia.
      - apply in_neighborhood. right. right. right. split; [f_equal; lia | lia]. }
    split; [lia|]. repeat split; try lia. rewrite in_cells. simpl. tauto.
  - split.
    { exists (Maze.neighborhood m (x + 2, y)). split.
      - apply get_neighbors_cell, in_cells. repeat split; try assumption; lia.
      - apply in_neighborhood. left. split; [f_equal; lia | lia]. }
    split; [lia|]. repeat split; try lia. rewrite in_cells. simpl. tauto.
  - split.
    { exists (Maze.neighborhood m (x, y + 2)). split.
      - apply get_neighbors_cell, in_cells. repeat split; try assumption; lia.
      - apply in_neighborhood. right. left. split; [f_equal; lia | lia]. }
    split; [lia|]. repeat split; try lia. rewrite in_cells. simpl. tauto.
Qed.

Lemma neighbors_symmetric_witness :
  (exists ns', Maze.get_neighbors example_maze (2, 4) = Ok ns' /\ In (2, 2) ns') /\
  manhattan (2, 2) (2, 4) = 2 /\
  let space := ((fst (2, 2) + fst (2, 4)) / 2, (snd (2, 2) + snd (2, 4)) / 2) in
  0 <= fst space < fst (Maze.size example_maze) /\
  0 <= snd space < snd (Maze.size example_maze) /\
  ~ In space (Maze.cells example_maze) /\ manhattan (2, 2) space = 1 /\
  manhattan space (2, 4) = 1.
Proof.
  apply (neighbors_symmetric example_maze (2, 2) (2, 4) [(0, 2); (2, 0); (4, 2); (2, 4)]).
  - reflexivity.
  - simpl. tauto.
Defined.

(** ** Marking a path *)

Lemma space_between_comm c1 c2 : space_between c1 c2 = space_between c2 c1.
Proof. unfold space_between. f_equal; f_equal; lia. Qed.

Lemma mark_cells_app l1 : forall m l2,
  mark_cells m (l1 ++ l2) = bind (mark_cells m l1) (fun m' => mark_cells m' l2).
Proof.
  induction l1 as [|[c v] l1 IH]; intros m l2; [reflexivity|].
  simpl. destruct (Maze.mark_cell m c v) as [m1|e]; simpl; [apply IH | reflexivity].
Qed.

Lemma for_each_mark {A} (f : A -> Z * Z) v l : forall m,
  for_each (fun m a => Maze.mark_cell m (f a) v) m (items l)
    = mark_cells m (map (fun a => (f a, v)) l).
Proof.
  induction l as [|a l IH]; intros m; [reflexivity|].
  simpl. destruct (Maze.mark_cell m (f a) v) as [m1|e]; simpl; [apply IH | reflexivity].
Qed.

(** [mark_path] is a sequence of marks: the cells of the path, then the
    spaces between consecutive cells. *)
Lemma mark_path_marks m path v :
  Maze.mark_path m path v =
    mark_cells m (map (fun c => (c, v))
                    (path ++ map (fun c => space_between (fst c) (snd c))
                               (zip (tail path) (removelast path)))).
Proof.
  unfold Maze.mark_path. rewrite map_app, mark_cells_app.
  rewrite (for_each_mark (fun c => c) v path m).
  destruct (mark_cells m (map (fun c => (c, v)) path)) as [m1|e]; [|reflexivity].
  simpl bind. unfold Maze.mark_space. rewrite map_map.
  apply (for_each_mark (fun c => space_between (fst c) (snd c)) v).
Qed.

Lemma mark_cell_keeps m c0 v m1 c :
  Maze.mark_cell m c0 v = Ok m1 -> Maze.get_cell m c = Ok v -> Maze.get_cell m1 c = Ok v.
Proof.
  intros H Hc. destruct (mark_cell_spec m c0 v m1 H) as (p & Hp & Hpos & Hat & _).
  rewrite get_cell_position in *. rewrite Hpos.
  destruct (position m c) as [q|e]; [|discriminate]. simpl bind in *.
  rewrite Hat. destruct (decide (q = p)); [reflexivity | assumption].
Qed.

Lemma mark_cell_reads m c v m1 : Maze.mark_cell m c v = Ok m1 -> Maze.get_cell m1 c = Ok v.
Proof.
  intros H. destruct (mark_cell_spec m c v m1 H) as (p & Hp & Hpos & Hat & _).
  rewrite get_cell_position, Hpos, Hp. simpl bind.
  rewrite Hat, decide_True by reflexivity. reflexivity.
Qed.

Lemma mark_cells_same_value v cs : forall m m',
  mark_cells m (map (fun c => (c, v)) cs) = Ok m' ->
  (forall c, In c cs -> Maze.get_cell m' c = Ok v) /\
  (forall c, Maze.get_cell m c = Ok v -> Maze.get_cell m' c = Ok v) /\
  Maze.num_changes m' = Maze.num_changes m + len cs.
Proof.
  induction cs as [|c0 cs IH]; intros m m' H.
  - injection H as <-. unfold len. simpl. split; [tauto|]. split; [auto | lia].
  - simpl in H. apply bind_inv in H as (m1 & H1 & H).
    destruct (IH m1 m' H) as (Hin & Hkeep & Hn).
    split; [|split].
    + intros c [<- | Hc]; [|exact (Hin c Hc)].
      apply Hkeep. exact (mark_cell_reads m c0 v m1 H1).
    + intros c Hc. apply Hkeep. exact (mark_cell_keeps m c0 v m1 c H1 Hc).
    + rewrite Hn. destruct (mark_cell_spec m c0 v m1 H1) as (_ & _ & _ & _ & _ & Hn1).
      unfold Maze.num_changes. rewrite Hn1. unfold len. simpl length. lia.
Qed.

Lemma consecutive_zipped {A} (path : list A) i c1 c2 :
  path !! i = Some c1 -> path !! S i = Some c2 ->
  In (c2, c1) (zip (tail path) (removelast path)).
Proof.
  intros H1 H2. apply list_elem_of_In, list_elem_of_lookup. exists i.
  apply lookup_zip_with_Some. exists c2, c1. split; [reflexivity|].
  split; [rewrite lookup_tail; assumption|].
  rewrite removelast_firstn_len. change firstn with (@take A).
  rewrite lookup_take_lt; [assumption|].
  apply lookup_lt_Some in H2. lia.
Qed.

Lemma length_zipped {A} (path : list A) :
  len (zip (tail path) (removelast path)) = Z.max 0 (len path - 1).
Proof.
  unfold len. rewrite length_zip_with, removelast_firstn_len.
  change firstn with (@take A). rewrite length_take.
  destruct path; simpl; lia.
Qed.

(** X17: when [mark_path(path, value)] returns, every cell of the path
    holds the value, and so does the space between any two consecutive
    cells, so that [barrier] between them, either way round, tells
    whether the value is the wall; the changes counted are the cells and
    the spaces, [2 * len(path) - 1] for a path that is not empty. *)
Theorem mark_path_marks_cells_and_spaces (m m' : Maze.t) (path : list (Z * Z)) (v : Z) :
  Maze.mark_path m path v = Ok m' ->
  (forall c, In c path -> Maze.get_cell m' c = Ok v) /\
  (forall i c1 c2, path !! i = Some c1 -> path !! S i = Some c2 ->
     Maze.barrier m' c1 c2 = Ok (v =? Maze.WALL) /\
     Maze.barrier m' c2 c1 = Ok (v =? Maze.WALL)) /\
  Maze.num_changes m' = Maze.num_changes m + Z.max 0 (2 * len path - 1).
Proof.
  rewrite mark_path_marks. intros H.
  destruct (mark_cells_same_value v _ m m' H) as (Hin & _ & Hn).
  split; [|split].
  - intros c Hc. apply Hin, in_app_iff. left. assumption.
  - intros i c1 c2 H1 H2.
    assert (Hs : Maze.get_cell m' (space_between c1 c2) = Ok v).
    { apply Hin, in_app_iff. right. apply in_map_iff. exists (c2, c1).
      split; [apply space_between_comm | exact (consecutive_zipped path i c1 c2 H1 H2)]. }
    unfold Maze.barrier. fold (space_between c1 c2). fold (space_between c2 c1).
    rewrite <- (space_between_comm c1 c2), Hs. split; reflexivity.
  - rewrite Hn. unfold len. rewrite length_app, length_map.
    pose proof (length_zipped path) as Hz. unfold len in Hz. lia.
Qed.

Lemma mark_path_marks_cells_and_spaces_witness :
  exists m',
    Maze.mark_path example_maze [(0, 0); (2, 0); (2, 2)] Maze.TREE = Ok m' /\
    (forall c, In c [(0, 0); (2, 0); (2, 2)] -> Maze.get_cell m' c = Ok Maze.TREE) /\
    Maze.barrier m' (0, 0) (2, 0) = Ok false /\
    Maze.num_changes m' = Maze.num_changes example_maze + Z.max 0 (2 * 3 - 1).
Proof.
  exists (Maze.mk (5, 5)
            [[1; 0; 0; 0; 0]; [1; 0; 0; 0; 0]; [1; 1; 1; 0; 0]; [0; 0; 0; 0; 0];
             [0; 0; 0; 0; 0]] 5 (Some (0, 0, 2, 2))).
  assert (H : Maze.mark_path example_maze [(0, 0); (2, 0); (2, 2)] Maze.TREE
              = Ok (Maze.mk (5, 5)
                      [[1; 0; 0; 0; 0]; [1; 0; 0; 0; 0]; [1; 1; 1; 0; 0]; [0; 0; 0; 0; 0];
                       [0; 0; 0; 0; 0]] 5 (Some (0, 0, 2, 2)))) by reflexivity.
  destruct (mark_path_marks_cells_and_spaces _ _ _ _ H) as (Hcells & Hspaces & Hn).
  split; [exact H|]. split; [exact Hcells|]. split; [|exact Hn].
  exact (proj1 (Hspaces 0%nat (0, 0) (2, 0) eq_refl eq_refl)).
Defined.

(** * The animation *)

(** ** The colour map *)

Lemma identity_map_lookup (l : list Z) (d : gmap Z Z) v :
  foldl (fun d i => <[ i := i ]> d) d l !! v = if decide (v ∈ l) then Some v else d !! v.
Proof.
  revert d. induction l as [|i l IH]; intros d; simpl foldl.
  - rewrite decide_False by (apply not_elem_of_nil). reflexivity.
  - rewrite IH. destruct (decide (v ∈ l)) as [Hl | Hl].
    + rewrite decide_True by (apply elem_of_cons; tauto). reflexivity.
    + destruct (decide (i = v)) as [-> | Hne].
      * rewrite decide_True by (apply elem_of_cons; tauto). apply lookup_insert_eq.
      * rewrite decide_False by (rewrite elem_of_cons; intros [? | ?]; congruence).
        apply lookup_insert_ne. assumption.
Qed.

Lemma in_range n v : v ∈ range n <-> 0 <= v < n.
Proof. unfold range. rewrite elem_of_seqZ. lia. Qed.

(** X18: a new animation maps every cell value that is a colour index of
    the surface to itself and no other value: the colour map is the
    identity on [0, 2 ** color_depth), which is also the number of
    colours; the defaults are speed 10, delay 5, cells of 5 pixels at the
    origin, no transparent colour and no maze. *)
Theorem animation_init_colormap (surface : GIFSurface.t) (anim : Animation.t) :
  Animation.__init__ surface = Ok anim ->
  Animation.num_colors anim = 2 ^ GIFSurface.color_depth surface /\
  (forall v, Animation.colormap anim !! v =
             if decide (0 <= v < 2 ^ GIFSurface.color_depth surface) then Some v else None) /\
  Animation.speed anim = 10 /\ Animation.delay anim = 5 /\ Animation.cell_size anim = 5 /\
  Animation.translation anim = (0, 0) /\ Animation.trans_index anim = None /\
  Animation.maze anim = None /\ Animation._surface anim = surface.
Proof.
  unfold Animation.__init__. intros H. apply bind_inv in H as (n & Hn & [= <-]).
  unfold shl in Hn. destruct (Z.ltb_spec (GIFSurface.color_depth surface) 0); [discriminate|].
  injection Hn as <-. rewrite Z.shiftl_1_l. simpl. split; [reflexivity|].
  split; [|repeat split]. intros v. rewrite identity_map_lookup, lookup_empty.
  destruct (decide (v ∈ range (2 ^ GIFSurface.color_depth surface))) as [Hin | Hin];
    rewrite in_range in Hin.
  - rewrite decide_True by assumption. reflexivity.
  - rewrite decide_False by assumption. reflexivity.
Qed.

Lemma animation_init_colormap_witness :
  Animation.num_colors example_animation = 2 ^ GIFSurface.color_depth example_surface /\
  (forall v, Animation.colormap example_animation !! v =
             if decide (0 <= v < 2 ^ GIFSurface.color_depth example_surface)
             then Some v else None).
Proof.
  destruct (animation_init_colormap example_surface example_animation eq_refl)
    as (H1 & H2 & _).
  split; assumption.
Defined.

(** ** The pixels of a frame *)

(** X19: the pixels [_encode_frame] hands to the compressor are the
    region enlarged [cell_size] times, row by row.  For a positive cell
    size and a region of positive width there are as many pixels as the
    image descriptor announces, and the pixel in column [px] and row [py]
    of the frame is the colour of the maze cell
    [(left + px // cell_size, top + py // cell_size)], or the error that
    reading the cell or looking up its colour raises. *)
Theorem frame_pixels_scale (self : Animation.t) (m : Maze.t)
    (left top width height px py : Z) :
  let cs := Animation.cell_size self in
  0 < cs -> 0 < width -> 0 <= height ->
  0 <= px < cs * width -> 0 <= py < cs * height ->
  len (Animation.get_frame_pixels self m left top width height)
    = (cs * width) * (cs * height) /\
  Animation.get_frame_pixels self m left top width height
    !! Z.to_nat (py * (cs * width) + px)
  = Some (bind (Maze.get_cell m (left + px / cs, top + py / cs)) (fun val =>
          bind (getitem (Animation.colormap self) val) (fun color => Ok (Some color)))).
Proof.
  intros cs Hcs Hw Hh Hpx Hpy. unfold Animation.get_frame_pixels. fold cs.
  set (i := py * (cs * width) + px).
  assert (Hi : 0 <= i < width * height * cs * cs) by (unfold i; nia).
  split.
  - unfold len, range. rewrite length_map, length_seqZ. nia.
  - change (@map Z) with (@fmap list _ Z). rewrite list_lookup_fmap.
    unfold range. rewrite (lookup_seqZ_lt 0 _ (Z.to_nat i)) by lia.
    simpl. rewrite Z2Nat.id by lia. rewrite Z.add_0_l.
    assert (Hy : i / (width * cs * cs) = py / cs).
    { replace (width * cs * cs) with ((cs * width) * cs) by lia.
      rewrite <- Z.div_div by nia. f_equal. unfold i.
      rewrite Z.div_add_l by nia. rewrite (Z.div_small px) by lia. lia. }
    assert (Hx : (i mod (width * cs)) / cs = px / cs).
    { f_equal. unfold i. replace (width * cs) with (cs * width) by lia.
      rewrite Z.add_comm, Z.mod_add by nia. apply Z.mod_small. lia. }
    rewrite Hy, Hx. rewrite (Z.add_comm (px / cs)), (Z.add_comm (py / cs)). reflexivity.
Qed.

Lemma frame_pixels_scale_witness :
  len (Animation.get_frame_pixels example_animation example_marked_maze 2 3 1 1)
    = (5 * 1) * (5 * 1) /\
  Animation.get_frame_pixels example_animation example_marked_maze 2 3 1 1
    !! Z.to_nat (4 * (5 * 1) + 2)
  = Some (bind (Maze.get_cell example_marked_maze (2 + 2 / 5, 3 + 4 / 5)) (fun val =>
          bind (getitem (Animation.colormap example_animation) val)
               (fun color => Ok (Some color)))).
Proof.
  apply (frame_pixels_scale example_animation example_marked_maze 2 3 1 1 2 4);
    simpl; lia.
Defined.

(** ** After a flush *)

Lemma encode_frame_fields self m frame self1 :
  Animation.maze self = Some m ->
  Animation._encode_frame self = Ok (frame, self1) ->
  Animation.maze self1 = Some (Maze.reset m) /\ Animation.speed self1 = Animation.speed self.
Proof.
  intros Hm H. unfold Animation._encode_frame in H.
  apply bind_inv in H as (control & _ & H).
  unfold Animation.get_maze in H. rewrite Hm in H. simpl bind in H.
  destruct (match Maze.frame_box m with
            | Some box => box
            | None => (0, 0, fst (Maze.size m) - 1, snd (Maze.size m) - 1)
            end) as [[[l t] r] b].
  apply bind_inv in H as (descriptor & _ & H).
  apply bind_inv in H as ([data surface] & _ & [= _ <-]). split; reflexivity.
Qed.

(** X20: [clear_remaining_changes] settles the animation: when it
    returns, a second call returns at once and writes nothing, and so
    does [refresh_frame] if the speed is positive. *)
Theorem clear_remaining_changes_idempotent (self self' : Animation.t) :
  Animation.clear_remaining_changes self = Ok self' ->
  Animation.clear_remaining_changes self' = Ok self' /\
  (0 < Animation.speed self -> Animation.refresh_frame self' = Ok self').
Proof.
  unfold Animation.clear_remaining_changes at 1. intros H.
  apply bind_inv in H as (m & Hm & H).
  unfold Animation.get_maze in Hm.
  destruct (Animation.maze self) as [m0|] eqn:Hmaze; [|discriminate]. injection Hm as ->.
  destruct (Z.ltb_spec 0 (Maze.num_changes m)) as [Hpos | Hzero].
  - apply bind_inv in H as ([frame self1] & He & [= <-]).
    destruct (encode_frame_fields self m frame self1 Hmaze He) as [Hm1 Hspeed].
    unfold Animation.clear_remaining_changes, Animation.refresh_frame, Animation.get_maze.
    simpl Animation.maze. rewrite Hm1. simpl bind. simpl Animation.speed.
    rewrite Hspeed. split; [reflexivity|]. intros Hs.
    destruct (Z.leb_spec (Animation.speed self) 0); [lia | reflexivity].
  - injection H as <-.
    unfold Animation.clear_remaining_changes, Animation.refresh_frame, Animation.get_maze.
    rewrite Hmaze. simpl bind.
    destruct (Z.ltb_spec 0 (Maze.num_changes m)); [lia|]. split; [reflexivity|]. intros Hs.
    destruct (Z.leb_spec (Animation.speed self) (Maze.num_changes m)); [lia | reflexivity].
Qed.

Lemma clear_remaining_changes_idempotent_witness :
  Animation.clear_remaining_changes example_flushed = Ok example_flushed /\
  (0 < Animation.speed example_bound -> Animation.refresh_frame example_flushed
                                        = Ok example_flushed).
Proof.
  apply (clear_remaining_changes_idempotent example_bound example_flushed).
  vm_compute. reflexivity.
Defined.

(** ** A frame, decoded *)

(** X21: a frame decodes to its pixels.  For a surface whose compressor
    has a minimum code length in 2..11, when the blocks can be packed and
    every pixel of the region is produced and is a colour of the
    compressor's alphabet, [_encode_frame] returns the control block, the
    descriptor and data from which the decoder writes out exactly the
    pixels; the surface is as before and the maze is reset. *)
Theorem frame_decodes (self : Animation.t) (m : Maze.t) (mcl l t r b : Z)
    (pixels control descriptor : list Z) :
  Animation.maze self = Some m ->
  2 <= mcl <= 11 ->
  Compression.__init__ mcl = Ok (GIFSurface._lzw_compress (Animation._surface self)) ->
  graphics_control_block (Animation.delay self) (Animation.trans_index self) = Ok control ->
  frame_region m = (l, t, r, b) ->
  image_descriptor (Animation.cell_size self * l + fst (Animation.translation self))
                   (Animation.cell_size self * t + snd (Animation.translation self))
                   (Animation.cell_size self * (r - l + 1))
                   (Animation.cell_size self * (b - t + 1)) 0 = Ok descriptor ->
  Animation.get_frame_pixels self m l t (r - l + 1) (b - t + 1) = items (map Some pixels) ->
  pixels <> [] -> Forall (in_alphabet mcl) pixels ->
  exists data outcome,
    Animation._encode_frame self
      = Ok (control ++ descriptor ++ data, Animation.with_maze self (Maze.reset m)) /\
    Decoder.decode data = (pixels, outcome).
Proof.
  intros Hm Hmcl Hinit Hcontrol Hregion Hdesc Hpixels Hne Hin.
  destruct (init_compressor mcl _ Hinit) as (_ & Hself & Hstream).
  destruct (call_decodes mcl _ pixels Hmcl Hself Hstream Hne Hin)
    as (st & data & _ & Hcall & Hdec).
  exists data, (end_of_run st). split; [|exact Hdec].
  unfold Animation._encode_frame. rewrite Hcontrol. simpl bind.
  unfold Animation.get_maze. rewrite Hm. simpl bind.
  unfold frame_region in Hregion. rewrite Hregion. rewrite Hdesc. simpl bind.
  rewrite Hpixels. unfold GIFSurface.compress. rewrite Hcall. simpl bind.
  rewrite surface_eta. destruct self; reflexivity.
Qed.

Lemma frame_decodes_witness :
  exists data outcome,
    Animation._encode_frame example_bound
      = Ok ([33; 249; 4; 4; 5; 0; 0; 0] ++ [44; 2; 0; 3; 0; 1; 0; 1; 0; 0] ++ data,
            Animation.with_maze example_bound (Maze.reset example_marked_maze)) /\
    Decoder.decode data = ([1], outcome).
Proof.
  apply (frame_decodes example_bound example_marked_maze 2 2 3 2 3 [1]).
  - reflexivity.
  - lia.
  - reflexivity.
  - reflexivity.
  - reflexivity.
  - reflexivity.
  - vm_compute. reflexivity.
  - discriminate.
  - apply Forall_singleton. unfold in_alphabet. simpl. lia.
Defined.

(** ** A maze in a region *)

Lemma fit_axis_spec cs first last n start :
  fit_axis cs first last = (n, start) -> fitted cs first last n start.
Proof.
  unfold fitted, fit_axis. rewrite Zmod_even.
  pose proof (Z.negb_even ((last - first + 1) / cs)) as Hodd.
  destruct (Z.even ((last - first + 1) / cs)) eqn:He; simpl; intros [= <- <-].
  - split.
    { rewrite Z.odd_sub, <- Z.negb_even, He. reflexivity. }
    intros Hcs.
    pose proof (Z.div_mod (last - first + 1) cs ltac:(lia)) as Hdm.
    pose proof (Z.mod_pos_bound (last - first + 1) cs Hcs) as Hrem.
    set (q := (last - first + 1) / cs) in *. set (rem := (last - first + 1) mod cs) in *.
    assert (Hhalf : 0 <= (cs + rem) / 2 <= cs + rem) by (Z.div_mod_to_equations; lia).
    split; [lia|]. split; [nia|]. split; [|discriminate]. intros _.
    replace (last + 1 - first - cs * (q - 1)) with (cs + rem) by nia. lia.
  - split; [simpl in Hodd; symmetry; assumption|]. intros Hcs.
    pose proof (Z.div_mod (last - first + 1) cs ltac:(lia)) as Hdm.
    pose proof (Z.mod_pos_bound (last - first + 1) cs Hcs) as Hrem.
    split; [lia|]. split; [lia|]. split; [discriminate|]. intros _. split; [reflexivity | lia].
Qed.

Lemma odd_odd_product w h : Z.odd w = true -> Z.odd h = true -> ((w * h) mod 2 =? 0) = false.
Proof.
  intros Hw Hh. rewrite Zmod_odd, Z.odd_mul, Hw, Hh. reflexivity.
Qed.

(** X22: [create_maze_in_region] with a cell size other than zero always
    returns, never tripping the check of [Maze]: the maze it binds to the
    animation has an odd number of cells each way.  For a positive cell
    size the maze lies within the region; along an axis where the cells
    that fit are even in number one is dropped and the maze is centred,
    the margin before it being half of what is left over (rounded down);
    where they are odd in number the maze starts at the edge of the
    region and less than one cell is left over.  A cell size of zero
    raises [ZeroDivisionError]. *)
Theorem create_maze_in_region_fits (self : Animation.t) (cell_size l t r b : Z)
    (region : Z + Z * Z * Z * Z) :
  region_box self region = (l, t, r, b) ->
  (cell_size = 0 ->
   Animation.create_maze_in_region self cell_size region = Raise ZeroDivisionError) /\
  (cell_size <> 0 ->
   exists w h l' t' m,
     Maze.__init__ w h = Ok m /\
     Animation.create_maze_in_region self cell_size region
       = Ok (Animation.add_maze self m cell_size (l', t')) /\
     fitted cell_size l r w l' /\ fitted cell_size t b h t').
Proof.
  intros Hbox. unfold Animation.create_maze_in_region, divmod.
  unfold region_box in Hbox. rewrite Hbox. split.
  - intros ->. reflexivity.
  - intros Hcs. destruct (Z.eqb_spec cell_size 0) as [|_]; [contradiction|]. simpl bind.
    destruct (fit_axis cell_size l r) as [w l'] eqn:Hw.
    destruct (fit_axis cell_size t b) as [h t'] eqn:Hh.
    pose proof (fit_axis_spec _ _ _ _ _ Hw) as Hwfit.
    pose proof (fit_axis_spec _ _ _ _ _ Hh) as Hhfit.
    unfold fit_axis in Hw, Hh. cbv zeta in Hw, Hh. rewrite Hw. rewrite Hh.
    assert (Hinit : Maze.__init__ w h
              = Ok (Maze.mk (w, h) (replicate (Z.to_nat w) (replicate (Z.to_nat h) 0)) 0 None)).
    { unfold Maze.__init__.
      rewrite (odd_odd_product w h (proj1 Hwfit) (proj1 Hhfit)). reflexivity. }
    rewrite Hinit. simpl bind.
    eexists w, h, l', t', _. split; [exact Hinit|]. split; [reflexivity|].
    split; assumption.
Qed.

Lemma create_maze_in_region_fits_witness :
  (5 = 0 ->
   Animation.create_maze_in_region example_animation 5 (inr (1, 0, 52, 31))
     = Raise ZeroDivisionError) /\
  (5 <> 0 ->
   exists w h l' t' m,
     Maze.__init__ w h = Ok m /\
     Animation.create_maze_in_region example_animation 5 (inr (1, 0, 52, 31))
       = Ok (Animation.add_maze example_animation m 5 (l', t')) /\
     fitted 5 1 52 w l' /\ fitted 5 0 31 h t').
Proof.
  apply (create_maze_in_region_fits example_animation 5 1 0 52 31 (inr (1, 0, 52, 31))).
  reflexivity.
Defined.

(** * The algorithms *)

(** ** The colour of a distance *)

(** X23: [dist_to_color] of [bfs] and [dfs], for an animation built on a
    surface, returns for every distance a value from 3 on.  With a colour
    depth of at least 2 the value is below the number of colours and the
    colour map knows it; with a colour depth of 0 or 1 the value is 3,
    which is no colour of the surface and no key of the colour map, so
    that the frame that shows the cell cannot be encoded. *)
Theorem dist_to_color_range (surface : GIFSurface.t) (anim : Animation.t) (distance : Z) :
  Animation.__init__ surface = Ok anim ->
  exists c,
    dist_to_color anim distance = Ok c /\ 3 <= c /\
    (2 <= GIFSurface.color_depth surface ->
     c < Animation.num_colors anim /\ Animation.colormap anim !! c = Some c) /\
    (GIFSurface.color_depth surface < 2 ->
     c = 3 /\ Animation.num_colors anim <= c /\ Animation.colormap anim !! c = None).
Proof.
  unfold Animation.__init__. intros H. apply bind_inv in H as (n & Hn & [= <-]).
  unfold shl in Hn. destruct (Z.ltb_spec (GIFSurface.color_depth surface) 0); [discriminate|].
  injection Hn as <-. rewrite Z.shiftl_1_l.
  set (cd := GIFSurface.color_depth surface) in *.
  pose proof (pow2_pos cd ltac:(lia)) as Hpos.
  unfold dist_to_color. simpl Animation.num_colors. simpl Animation.colormap.
  destruct (Z.eqb_spec (2 ^ cd) 0); [lia|].
  pose proof (Z.mod_pos_bound distance (2 ^ cd) Hpos) as Hmod.
  eexists. split; [reflexivity|]. split; [lia|]. split.
  - intros Hcd. assert (4 <= 2 ^ cd) by (change 4 with (2 ^ 2); apply pow2_mono; lia).
    split; [lia|]. rewrite identity_map_lookup, decide_True; [reflexivity|].
    apply in_range. lia.
  - intros Hcd. assert (2 ^ cd <= 2).
    { change 2 with (2 ^ 1) at 2. apply pow2_mono. lia. }
    assert (Hc : Z.max (distance mod 2 ^ cd) 3 = 3) by lia. rewrite Hc.
    split; [reflexivity|]. split; [lia|].
    rewrite identity_map_lookup, decide_False; [apply lookup_empty|].
    rewrite in_range. lia.
Qed.

Lemma dist_to_color_range_witness :
  exists c,
    dist_to_color example_animation 7 = Ok c /\ 3 <= c /\
    (2 <= GIFSurface.color_depth example_surface ->
     c < Animation.num_colors example_animation /\
     Animation.colormap example_animation !! c = Some c) /\
    (GIFSurface.color_depth example_surface < 2 ->
     c = 3 /\ Animation.num_colors example_animation <= c /\
     Animation.colormap example_animation !! c = None).
Proof. apply (dist_to_color_range example_surface example_animation 7). reflexivity. Defined.

(** ** The way back *)

Lemma retrieve_loop_chain cf start rest : forall v acc fuel,
  chain cf start v rest -> (length rest < fuel)%nat ->
  retrieve_loop fuel cf start v acc = Some (Ok (acc ++ rest)).
Proof.
  induction rest as [|u rest IH]; intros v acc fuel Hchain Hfuel;
    (destruct fuel as [|fuel]; [simpl in Hfuel; lia|]); simpl in *.
  - rewrite bool_decide_eq_true_2 by assumption. rewrite app_nil_r. reflexivity.
  - destruct Hchain as (Hne & Hv & Hchain).
    rewrite bool_decide_eq_false_2 by assumption. rewrite Hv.
    rewrite (IH u (acc ++ [u]) fuel Hchain) by lia. rewrite <- app_assoc. reflexivity.
Qed.

Lemma retrieve_loop_sound cf start fuel : forall v acc path,
  retrieve_loop fuel cf start v acc = Some (Ok path) ->
  exists rest, path = acc ++ rest /\ chain cf start v rest /\ (length rest < fuel)%nat.
Proof.
  induction fuel as [|fuel IH]; intros v acc path H; [discriminate|]. simpl in H.
  destruct (bool_decide_reflect (v = start)) as [Heq | Hne].
  - injection H as <-. exists []. rewrite app_nil_r. simpl. split; [reflexivity|].
    split; [assumption | lia].
  - destruct (cf !! v) as [u|] eqn:Hv; [|discriminate].
    destruct (IH u (acc ++ [u]) path H) as (rest & -> & Hchain & Hlen).
    exists (u :: rest). rewrite <- app_assoc. simpl. split; [reflexivity|].
    split; [auto | lia].
Qed.

(** X24: [retrieve_path] walks [came_from] back from [end] until it
    meets [start].  With [fuel] turns of its loop allowed it returns a
    path exactly when [came_from] holds a chain from [end] to [start] of
    fewer than [fuel] steps, and the path is that chain, [end] first and
    [start] last, every cell mapped to the next. *)
Theorem retrieve_path_chain (came_from : gmap (Z * Z) (Z * Z)) (start end_ : Z * Z)
    (fuel : nat) (path : list (Z * Z)) :
  retrieve_path fuel came_from start end_ = Some (Ok path) <->
  exists rest, path = end_ :: rest /\ chain came_from start end_ rest /\
               (length rest < fuel)%nat.
Proof.
  unfold retrieve_path. split.
  - intros H. exact (retrieve_loop_sound came_from start fuel end_ [end_] path H).
  - intros (rest & -> & Hchain & Hlen).
    exact (retrieve_loop_chain came_from start rest end_ [end_] fuel Hchain Hlen).
Qed.

(** ** The delay frame *)

(** X25: with a transparent index that is a colour of the compressor's
    alphabet (minimum code length 2..11) and a delay that fits 16 bits,
    [pad_delay_frame] writes exactly one chunk: the control block with
    the transparency flag, the delay and the index, the descriptor of the
    one pixel at the origin, and data that decode to that one
    transparent pixel; nothing else of the animation changes. *)
Theorem pad_delay_frame_pads (self : Animation.t) (mcl delay t : Z) :
  2 <= mcl <= 11 ->
  Compression.__init__ mcl = Ok (GIFSurface._lzw_compress (Animation._surface self)) ->
  Animation.trans_index self = Some t -> 0 <= t < 2 ^ mcl -> t <= 255 ->
  0 <= delay <= 65535 ->
  exists data outcome,
    Animation.pad_delay_frame self delay
      = Ok (Animation.with_surface self
              (GIFSurface.write (Animation._surface self)
                 ([33; 249; 4; 5; delay mod 256; delay / 256; t; 0]
                  ++ [44; 0; 0; 0; 0; 1; 0; 1; 0; 0] ++ data))) /\
    Decoder.decode data = ([t], outcome).
Proof.
  intros Hmcl Hinit Htrans Ht Hbyte Hdelay.
  destruct (init_compressor mcl _ Hinit) as (_ & Hself & Hstream).
  destruct (call_decodes mcl _ [t] Hmcl Hself Hstream ltac:(discriminate)
              ltac:(apply Forall_singleton; exact Ht)) as (st & data & _ & Hcall & Hdec).
  exists data, (end_of_run st). split; [|exact Hdec].
  unfold Animation.pad_delay_frame. rewrite Htrans.
  unfold graphics_control_block, image_descriptor, pack_H, pack_B.
  destruct (Z.leb_spec 0 delay); [|lia]. destruct (Z.leb_spec delay 65535); [|lia].
  destruct (Z.leb_spec 0 t); [|lia]. destruct (Z.leb_spec t 255); [|lia].
  unfold items in Hcall. simpl map in Hcall.
  simpl bind. unfold GIFSurface.compress, items. simpl map. rewrite Hcall. simpl bind.
  rewrite surface_eta. reflexivity.
Qed.

Lemma pad_delay_frame_pads_witness :
  exists data outcome,
    Animation.pad_delay_frame
      (Animation.set_control example_animation None None (Some (Some 3))) 20
      = Ok (Animation.with_surface
              (Animation.set_control example_animation None None (Some (Some 3)))
              (GIFSurface.write example_surface
                 ([33; 249; 4; 5; 20 mod 256; 20 / 256; 3; 0]
                  ++ [44; 0; 0; 0; 0; 1; 0; 1; 0; 0] ++ data))) /\
    Decoder.decode data = ([3], outcome).
Proof.
  apply (pad_delay_frame_pads
           (Animation.set_control example_animation None None (Some (Some 3))) 2 20 3).
  - lia.
  - reflexivity.
  - reflexivity.
  - simpl. lia.
  - lia.
  - lia.
Defined.

(** ** A run that fills the table *)

Lemma ascending_step self k st :
  compressor_of self 11 -> 1 <= k <= 2045 -> ascending k st -> run_inv 11 st ->
  exists st', Compression.loop_body self st (Some k) = Ok st' /\
    ascending (k + 1) st' /\ run_inv 11 st'.
Proof.
  intros Hself Hk (Hpat & Hnext & Htable) Hinv.
  destruct (step_inv 11 self st k ltac:(lia) Hself Hinv) as (st' & Hbody & Hturn & Hinv').
  { unfold in_alphabet. change (2 ^ 11) with 2048. lia. }
  exists st'. split; [assumption|]. split; [|assumption].
  destruct Hturn as [k0 Hk0 | c s1 Hk0 Hc Hs1 Hroom | c s1 s2 Hk0 Hc Hs1 Hfull Hs2];
    rewrite Hpat in *; simpl app in *.
  - exfalso. destruct (Htable _ _ Hk0) as [[s Hs] | (i & Hi & Hlt)]; [discriminate|].
    injection Hi as Hi1 Hi2. lia.
  - unfold ascending.
    cbn [Compression.code_table Compression.pattern Compression.next_code].
    split; [do 2 f_equal; lia|]. split; [lia|].
    intros x c0 Hx. destruct (decide (x = [Some (k - 1); Some k])) as [-> | Hne].
    + right. exists (k - 1). split; [do 3 f_equal; lia | lia].
    + rewrite lookup_insert_ne in Hx by congruence.
      destruct (Htable _ _ Hx) as [Hs | (i & Hi & Hlt)]; [left; assumption|].
      right. exists i. split; [assumption | lia].
  - exfalso. lia.
Qed.

Lemma ascending_run self (n : nat) : forall k st,
  compressor_of self 11 -> 1 <= k -> k + Z.of_nat n <= 2046 ->
  ascending k st -> run_inv 11 st ->
  exists st', for_each (Compression.loop_body self) st
                (items (map Some (seqZ k (Z.of_nat n)))) = Ok st' /\
    ascending (k + Z.of_nat n) st' /\ run_inv 11 st'.
Proof.
  induction n as [|n IH]; intros k st Hself Hk Hn Hasc Hinv.
  - exists st. change (Z.of_nat 0) with 0. rewrite Z.add_0_r. auto.
  - rewrite seqZ_cons by lia.
    destruct (ascending_step self k st Hself ltac:(lia) Hasc Hinv) as (st1 & Hbody & Hasc1 & Hinv1).
    destruct (IH (k + 1) st1 Hself ltac:(lia) ltac:(lia) Hasc1 Hinv1)
      as (st2 & Hrun & Hasc2 & Hinv2).
    exists st2.
    replace (Z.pred (Z.of_nat (S n))) with (Z.of_nat n) by lia.
    replace (Z.succ k) with (k + 1) by lia.
    unfold items in *. cbn [map for_each]. rewrite Hbody. cbn [bind].
    split; [exact Hrun|]. split; [|assumption].
    replace (k + Z.of_nat (S n)) with (k + 1 + Z.of_nat n) by lia. assumption.
Qed.

(** X26: the reset of the code table is reached.  With 11-bit symbols,
    the input [0, 1, ..., 2045] gives every pair of neighbours a code of
    its own and leaves [next_code] at 4095 with 4093 table entries; the
    next symbol, 2046, adds the 4094th entry, and the compressor writes
    the clear code at the code length 12 and goes on with the initial
    table, [next_code] 2050 and the code length 12, in the middle of the
    stream. *)
Theorem table_reset_is_reached :
  exists before after s1 s2 k,
    final_locals (Compression.mk DataBlock.__init__ 11 2048 2049 4096)
      (items (map Some (seqZ 0 2046))) = Ok before /\
    Compression.next_code before = 4095 /\
    size (Compression.code_table before) = 4093%nat /\
    Compression.code_length before = 12 /\
    Compression.loop_body (Compression.mk DataBlock.__init__ 11 2048 2049 4096) before
      (Some 2046) = Ok after /\
    DataBlock.encode_bits (Compression.stream before) k 12 = Ok s1 /\
    DataBlock.encode_bits s1 2048 12 = Ok s2 /\
    after = Compression.mk_locals 12 2050 (Compression.single_codes 2048) [Some 2046] s2.
Proof.
  set (self := Compression.mk DataBlock.__init__ 11 2048 2049 4096).
  assert (Hself : compressor_of self 11) by (repeat split).
  assert (Hmcl : 2 <= 11 <= 11) by lia.
  destruct (enter_spec 11 Hmcl self Hself block_wf_init) as (s0 & _ & Hwf0 & Henter).
  change (2 ^ 11) with 2048 in Henter. change (11 + 1) with 12 in Henter.
  change (2048 + 1 + 1) with 2050 in Henter.
  set (st0 := Compression.mk_locals 12 2050 (Compression.single_codes 2048) [] s0) in *.
  assert (Hinv0 : run_inv 11 st0).
  { split; [exists (Decoder.cleared 11 []), []; apply (related_enter 11 Hmcl)|].
    split; [assumption|]. unfold st0.
    cbn [Compression.code_table Compression.next_code]. rewrite single_codes_size. lia. }
  (* the first symbol only makes the pattern *)
  destruct (step_inv 11 self st0 0 Hmcl Hself Hinv0) as (st1 & Hbody1 & Hturn1 & Hinv1).
  { unfold in_alphabet. change (2 ^ 11) with 2048. lia. }
  assert (Hasc1 : ascending 1 st1).
  { assert (Hzero : Compression.single_codes 2048 !! [Some 0] = Some 0)
      by (apply single_codes_lookup; split; [lia | reflexivity]).
    destruct Hturn1 as [k0 Hk0 | c s1 Hk0 Hc Hs1 Hroom | c s1 s2 Hk0 Hc Hs1 Hfull Hs2];
      unfold st0 in Hk0; cbn [Compression.code_table Compression.pattern app] in Hk0;
      try congruence.
    unfold st0, ascending.
    cbn [Compression.code_table Compression.pattern Compression.next_code app].
    split; [reflexivity|]. split; [reflexivity|].
    intros x c Hx. apply single_codes_lookup in Hx as [_ ->]. left. eauto. }
  destruct (ascending_run self 2045 1 st1 Hself ltac:(lia) ltac:(lia) Hasc1 Hinv1)
    as (before & Hrun & (Hpat & Hnext & Htable) & Hinv).
  change (1 + Z.of_nat 2045) with 2046 in *.
  change (2046 - 1) with 2045 in Hpat. change (2049 + 2046) with 4095 in Hnext.
  destruct (step_inv 11 self before 2046 Hmcl Hself Hinv) as (after & Hbody & Hturn & _).
  { unfold in_alphabet. change (2 ^ 11) with 2048. lia. }
  assert (Hwidth : Compression.code_length before = 12).
  { destruct Hinv as ((D & z & R) & _ & _). destruct R as [_ Rw Rwr _ _ _ _ _ _ _ _ _ _]. lia. }
  assert (Hsize : size (Compression.code_table before) = 4093%nat).
  { destruct Hinv as (_ & _ & Hsize). lia. }
  assert (Hfinal : final_locals self (items (map Some (seqZ 0 2046))) = Ok before).
  { unfold final_locals. rewrite Henter. cbn [bind].
    rewrite (seqZ_cons 0 2046) by lia.
    change (Z.succ 0) with 1. change (Z.pred 2046) with (Z.of_nat 2045).
    cbn [map items for_each]. unfold items. cbn [map for_each].
    rewrite Hbody1. cbn [bind]. exact Hrun. }
  destruct Hturn as [k0 Hk0 | c s1 Hk0 Hc Hs1 Hroom | c s1 s2 Hk0 Hc Hs1 Hfull Hs2];
    rewrite Hpat in *; simpl app in *.
  - exfalso. destruct (Htable _ _ Hk0) as [[s Hs] | (i & Hi & Hlt)]; [discriminate|].
    injection Hi as Hi1 Hi2. lia.
  - exfalso. lia.
  - rewrite Hwidth in Hs1, Hs2. exists before. eexists. exists s1, s2, c.
    split; [exact Hfinal|]. split; [exact Hnext|]. split; [exact Hsize|].
    split; [exact Hwidth|]. split; [exact Hbody|]. split; [exact Hs1|].
    split; [exact Hs2 | reflexivity].
Qed.
